(** * Take It Out Back: process model, poller parser, path trie and kill controller

    A shallow embedding of the TypeScript sources
    ([processModel], [processPoller], [processTreeProvider],
    [processController]) together with the properties stated about them.

    Conventions of the embedding.
    - JavaScript strings are modelled as [string] (sequences of 8-bit
      characters); the white space of [trim], [parseInt] and the regular
      expression [\s] is its ASCII part (tab, LF, VT, FF, CR, space).
    - Integer-valued JavaScript numbers (pids, resident set sizes, seconds)
      are [Z]; [NaN] results of [parseInt] are [None].  The model is exact
      as long as the values stay below 2^53.
    - The [cpu] percentage is a binary64 number, as in JavaScript: [float].
    - A JavaScript [Map] used as an index is a [gmap]; the [Map] of a trie
      node, whose insertion order is observable, is an association list.
    - Effects of the controller (calls of [process.kill], notifications) are
      threaded through an explicit [World]. *)

From Stdlib Require Import ZArith String Ascii List Bool Lia.
From Stdlib Require Import Floats.PrimFloat.
From stdpp Require Import base option list gmap strings relations.

Local Open Scope Z_scope.
Local Set Warnings "-register-all,-clear-no-such-hyp".


(* ================================================================== *)
(** * Part I — the embedding                                          *)
(* ================================================================== *)

(** ** The JavaScript built-ins the sources call *)

Module JS.

(** White space of [String.prototype.trim], [parseInt] and [\s]. *)
Definition isWhiteSpace (c : ascii) : bool := Ascii.is_space c.

Definition isDigit (c : ascii) : bool := bool_decide (is_Some (Ascii.is_nat c)).

Definition digitValue (c : ascii) : Z := Z.of_nat (default 0%nat (Ascii.is_nat c)).

Fixpoint trimStart (s : string) : string :=
  match s with
  | EmptyString => EmptyString
  | String c r => if isWhiteSpace c then trimStart r else s
  end.

Fixpoint trimEnd (s : string) : string :=
  match s with
  | EmptyString => EmptyString
  | String c r =>
      match trimEnd r with
      | EmptyString => if isWhiteSpace c then EmptyString else String c EmptyString
      | t => String c t
      end
  end.

(** [s.trim()] *)
Definition trim (s : string) : string := trimEnd (trimStart s).

(** [s.length] *)
Definition strlen (s : string) : Z := Z.of_nat (String.length s).

(** [s.indexOf(c)] for a one-character needle: [-1] when absent. *)
Fixpoint indexOf (c : ascii) (s : string) : Z :=
  match s with
  | EmptyString => -1
  | String a r =>
      if Ascii.eqb a c then 0
      else let i := indexOf c r in if i =? -1 then -1 else i + 1
  end.

(** [s.substring(start, end)]: both indices are clamped to [0, length]
    and swapped when [start > end]. *)
Definition substring (s : string) (first last : Z) : string :=
  let clamp i := Z.max 0 (Z.min i (strlen s)) in
  let lo := Z.min (clamp first) (clamp last) in
  let hi := Z.max (clamp first) (clamp last) in
  String.substring (Z.to_nat lo) (Z.to_nat (hi - lo)) s.

(** [s.substring(start)] *)
Definition substringFrom (s : string) (first : Z) : string :=
  substring s first (strlen s).

(** [s.split(sep)] for a separator matching exactly one character:
    [s.split(':')] is [splitOn (Ascii.eqb ":") s] and [s.split(/\s/)] is
    [splitOn isWhiteSpace s].  The result is never empty. *)
Fixpoint splitOn (sep : ascii → bool) (s : string) : list string :=
  match s with
  | EmptyString => [EmptyString]
  | String c r =>
      if sep c then EmptyString :: splitOn sep r
      else match splitOn sep r with
           | h :: t => String c h :: t
           | [] => [String c EmptyString]
           end
  end.

(** [s.startsWith(p)] *)
Definition startsWith (s p : string) : bool := String.prefix p s.

(** [s.includes(needle)] *)
Fixpoint includes (s needle : string) : bool :=
  String.prefix needle s ||
  match s with
  | EmptyString => false
  | String _ r => includes r needle
  end.

(** The longest prefix of decimal digits, as a number, most significant
    digit first; [None] when [s] does not start with a digit. *)
Fixpoint readDigits (acc : option Z) (s : string) : option Z :=
  match s with
  | String c r =>
      if isDigit c then readDigits (Some (10 * default 0 acc + digitValue c)) r
      else acc
  | EmptyString => acc
  end.

(** [parseInt(s, 10)]: leading white space is skipped, one sign is
    accepted, then the longest run of decimal digits is read; [None]
    stands for [NaN]. *)
Definition parseInt10 (s : string) : option Z :=
  match trimStart s with
  | String "-" r => Z.opp <$> readDigits None r
  | String "+" r => readDigits None r
  | t => readDigits None t
  end.

(** [n || 0] on a number: [NaN] and [0] are falsy. *)
Definition orZero (n : option Z) : Z := default 0 n.

(** [x || 0] on a binary64 number: [NaN], [+0] and [-0] are falsy. *)
Definition orZeroF (x : float) : float :=
  if (PrimFloat.is_nan x || PrimFloat.is_zero x)%bool then PrimFloat.zero else x.

(** [a !== b] on binary64 numbers (IEEE comparison). *)
Definition neF (a b : float) : bool := negb (PrimFloat.eqb a b).

(** Every character of [s] satisfies [P]. *)
Fixpoint allChars (P : ascii → bool) (s : string) : bool :=
  match s with
  | EmptyString => true
  | String c r => P c && allChars P r
  end.

End JS.

(** ** processModel.ts *)

Module ProcessModel.

(** Normalized representation of a single OS process. *)
Record ProcessInfo := mkProcessInfo {
  pid : Z;
  ppid : Z;
  pgid : Z;
  user : string;
  cpu : float;
  rss : Z;
  etime : string;
  etimeSeconds : Z;
  command : string;
  args : string;
}.

(** A complete snapshot of all processes at a point in time. *)
Record ProcessSnapshot := mkProcessSnapshot {
  timestamp : Z;
  processes : list ProcessInfo;
  byPid : gmap Z ProcessInfo;
  childrenByPpid : gmap Z (list Z);
  pidsByPgid : gmap Z (list Z);
}.

Inductive ProcessEventType := Added | Removed | Updated.

Record ProcessEvent := mkProcessEvent {
  type : ProcessEventType;
  process : ProcessInfo;
  previous : option ProcessInfo;
}.

(** [parseEtime]: [ss], [mm:ss], [hh:mm:ss] or [dd-hh:mm:ss] to seconds. *)
Definition parseEtime (etime : string) : Z :=
  let trimmed := JS.trim etime in
  let dashIdx := JS.indexOf "-" trimmed in
  let '(days, rest) :=
    if negb (dashIdx =? -1)
    then (JS.orZero (JS.parseInt10 (JS.substring trimmed 0 dashIdx)),
          JS.substringFrom trimmed (dashIdx + 1))
    else (0, trimmed) in
  let parts :=
    map (λ p, JS.orZero (JS.parseInt10 p)) (JS.splitOn (Ascii.eqb ":") rest) in
  let '(hours, minutes, seconds) :=
    match parts with
    | [h; m; s] => (h, m, s)
    | [m; s] => (0, m, s)
    | [s] => (0, 0, s)
    | _ => (0, 0, 0)
    end in
  days * 86400 + hours * 3600 + minutes * 60 + seconds.

(** [map.get(k)] then push, or [map.set(k, [v])]. *)
Definition pushAt (k v : Z) (m : gmap Z (list Z)) : gmap Z (list Z) :=
  match m !! k with
  | Some members => <[k := members ++ [v]]> m
  | None => <[k := [v]]> m
  end.

(** One iteration of the loop of [buildSnapshot]. *)
Definition indexProcess
    (acc : gmap Z ProcessInfo * gmap Z (list Z) * gmap Z (list Z))
    (proc : ProcessInfo) :=
  let '(byPid, childrenByPpid, pidsByPgid) := acc in
  (<[pid proc := proc]> byPid,
   pushAt (ppid proc) (pid proc) childrenByPpid,
   pushAt (pgid proc) (pid proc) pidsByPgid).

(** [buildSnapshot]; [now] is the value of [Date.now()]. *)
Definition buildSnapshot (now : Z) (processes : list ProcessInfo) : ProcessSnapshot :=
  let '(byPid, childrenByPpid, pidsByPgid) :=
    fold_left indexProcess processes (∅, ∅, ∅) in
  {| timestamp := now;
     processes := processes;
     byPid := byPid;
     childrenByPpid := childrenByPpid;
     pidsByPgid := pidsByPgid |}.

(** The first loop of [diffSnapshots] for a defined [oldSnap]. *)
Definition addedOrUpdated (oldSnap : ProcessSnapshot) (proc : ProcessInfo)
  : list ProcessEvent :=
  match byPid oldSnap !! pid proc with
  | None => [ {| type := Added; process := proc; previous := None |} ]
  | Some old =>
      if (JS.neF (cpu old) (cpu proc)
          || negb (rss old =? rss proc)
          || negb (String.eqb (etime old) (etime proc)))%bool
      then [ {| type := Updated; process := proc; previous := Some old |} ]
      else []
  end.

(** The second loop of [diffSnapshots]. *)
Definition removed (newSnap : ProcessSnapshot) (proc : ProcessInfo)
  : list ProcessEvent :=
  if bool_decide (is_Some (byPid newSnap !! pid proc)) then []
  else [ {| type := Removed; process := proc; previous := None |} ].

(** [diffSnapshots]; [None] is [undefined]. *)
Definition diffSnapshots (oldSnap : option ProcessSnapshot) (newSnap : ProcessSnapshot)
  : list ProcessEvent :=
  match oldSnap with
  | None =>
      map (λ proc, {| type := Added; process := proc; previous := None |})
          (processes newSnap)
  | Some oldSnap =>
      concat (map (addedOrUpdated oldSnap) (processes newSnap))
      ++ concat (map (removed newSnap) (processes oldSnap))
  end.

(** *** Notions used in the statements about the diff *)

#[global] Instance ProcessEventType_eq_dec : EqDecision ProcessEventType.
Proof. solve_decision. Defined.

(** The processes carried by the events of type [t], in event order. *)
Definition carried (t : ProcessEventType) (events : list ProcessEvent)
  : list ProcessInfo :=
  map process (filter (λ e, type e = t) events).

(** The pids of the records of a snapshot. *)
Definition pidSet (snap : ProcessSnapshot) : gset Z :=
  list_to_set (map pid (processes snap)).

(** The pids present in exactly one of the two snapshots. *)
Definition symmetricDifference (a b : ProcessSnapshot) : gset Z :=
  (pidSet a ∖ pidSet b) ∪ (pidSet b ∖ pidSet a).

(** The records of [procs] whose pid lies in [pids]. *)
Definition restrictedTo (pids : gset Z) (procs : list ProcessInfo) : list ProcessInfo :=
  filter (λ p, pid p ∈ pids) procs.

(** The records of [procs] whose pid the by-pid index of [snap] lacks. *)
Definition missingFrom (snap : ProcessSnapshot) (procs : list ProcessInfo)
  : list ProcessInfo :=
  filter (λ p, byPid snap !! pid p = None) procs.

(** Two records agree on what the diff compares: pid, cpu (as JavaScript
    compares numbers), resident set size and elapsed time. *)
Definition sameMetrics (old new : ProcessInfo) : Prop :=
  pid old = pid new
  ∧ JS.neF (cpu old) (cpu new) = false
  ∧ rss old = rss new
  ∧ etime old = etime new.

(** A character that may occur inside a component of an elapsed-time
    token: anything but white space, the dash and the colon. *)
Definition isEtimeChar (c : ascii) : bool :=
  negb (JS.isWhiteSpace c) && negb (Ascii.eqb c "-") && negb (Ascii.eqb c ":").

(** What a component contributes: [parseInt(p, 10) || 0]. *)
Definition component (p : string) : Z := JS.orZero (JS.parseInt10 p).

(** The seconds that [parseEtime] reads from what follows the days. *)
Definition clockSeconds (rest : string) : Z :=
  match map component (JS.splitOn (Ascii.eqb ":") rest) with
  | [h; m; s] => h * 3600 + m * 60 + s
  | [m; s] => m * 60 + s
  | [s] => s
  | _ => 0
  end.

End ProcessModel.

(** ** processPoller.ts: the line parser *)

Module ProcessPoller.

(** The first [while] of a field: advance the cursor over spaces.  The
    cursor [current] of the source is represented by the text from the
    cursor on, [line.substring(current)]. *)
Fixpoint skipSpaces (s : string) : string :=
  match s with
  | String c r => if Ascii.eqb c " " then skipSpaces r else s
  | EmptyString => EmptyString
  end.

(** The second [while] of a field: read up to the next space or the end;
    returns [line.substring(start, current)] and the text from the cursor on. *)
Fixpoint readField (s : string) : string * string :=
  match s with
  | String c r =>
      if Ascii.eqb c " " then (EmptyString, s)
      else let '(tok, rest) := readField r in (String c tok, rest)
  | EmptyString => (EmptyString, EmptyString)
  end.

(** The [for] loop over the fixed fields; [None] is the early
    [return null] taken when [start === current]. *)
Fixpoint readFields (n : nat) (s : string) : option (list string * string) :=
  match n with
  | O => Some ([], s)
  | S n' =>
      let '(tok, rest) := readField (skipSpaces s) in
      match tok with
      | EmptyString => None
      | _ =>
          match readFields n' rest with
          | Some (parts, rest') => Some (tok :: parts, rest')
          | None => None
          end
      end
  end.

(** [parts[i]] *)
Definition part (parts : list string) (i : nat) : string :=
  default EmptyString (parts !! i).

(** [parseLine]; [parseFloat] is the JavaScript built-in. *)
Definition parseLine (parseFloat : string → float) (line : string) (_platform : string)
  : option ProcessModel.ProcessInfo :=
  match readFields 8 line with
  | None => None
  | Some (parts, rest) =>
      let argsStr :=
        match skipSpaces rest with
        | EmptyString => part parts 7
        | remainder => remainder
        end in
      let user := part parts 3 in
      let cpu := JS.orZeroF (parseFloat (part parts 4)) in
      let rss := JS.orZero (JS.parseInt10 (part parts 5)) in
      let etime := part parts 6 in
      let command := part parts 7 in
      match JS.parseInt10 (part parts 0),
            JS.parseInt10 (part parts 1),
            JS.parseInt10 (part parts 2) with
      | Some pid, Some ppid, Some pgid =>
          Some {| ProcessModel.pid := pid;
                  ProcessModel.ppid := ppid;
                  ProcessModel.pgid := pgid;
                  ProcessModel.user := user;
                  ProcessModel.cpu := cpu;
                  ProcessModel.rss := rss;
                  ProcessModel.etime := etime;
                  ProcessModel.etimeSeconds := ProcessModel.parseEtime etime;
                  ProcessModel.command := command;
                  ProcessModel.args := argsStr |}
      | _, _, _ => None
      end
  end.

(** The body of the loop of [parseOutput] for one line. *)
Definition parseOutputLine (parseFloat : string → float) (platform : string)
    (raw : string) : list ProcessModel.ProcessInfo :=
  match JS.trim raw with
  | EmptyString => []
  | line =>
      match parseLine parseFloat line platform with
      | Some info => [info]
      | None => []
      end
  end.

(** [parseOutput]: the header line is skipped. *)
Definition parseOutput (parseFloat : string → float) (stdout : string) (platform : string)
  : list ProcessModel.ProcessInfo :=
  concat (map (parseOutputLine parseFloat platform)
              (tail (JS.splitOn (Ascii.eqb "010") stdout))).

(** *** The shape of a listing line *)

(** A token of a listing line: not empty, no space inside. *)
Fixpoint spaceFree (s : string) : bool :=
  match s with
  | EmptyString => true
  | String c r => negb (Ascii.eqb c " ") && spaceFree r
  end.

Definition isField (t : string) : bool :=
  match t with
  | EmptyString => false
  | _ => spaceFree t
  end.

(** A run of [n] spaces. *)
Fixpoint spaces (n : nat) : string :=
  match n with
  | O => EmptyString
  | S n' => String " " (spaces n')
  end.

(** The delimiter after a token: [g + 1] spaces. *)
Definition gap (g : nat) : string := spaces (S g).

(** Where a token may end: at the end of the line or before a space. *)
Definition endsField (s : string) : Prop :=
  s = EmptyString ∨ ∃ r, s = String " " r.

(** Tokens, each written after its delimiter of [g + 1] spaces. *)
Fixpoint joinFields (fields : list (nat * string)) : string :=
  match fields with
  | [] => EmptyString
  | (g, t) :: rest => gap g +:+ t +:+ joinFields rest
  end.

End ProcessPoller.

(** ** processTreeProvider.ts: the path trie and the visibility filter *)

Module ProcessTreeProvider.

(** A trie node; [children] keeps the insertion order of the [Map]. *)
Inductive TrieNode := mkTrieNode {
  segment : string;
  fullPath : string;
  children : list (string * TrieNode);
  processes : list ProcessModel.ProcessInfo;
  totalCount : Z;
  totalCpu : float;
  totalRss : Z;
}.

Definition createTrieNode (segment fullPath : string) : TrieNode :=
  {| segment := segment; fullPath := fullPath; children := []; processes := [];
     totalCount := 0; totalCpu := PrimFloat.zero; totalRss := 0 |}.

Definition nonEmpty (s : string) : bool := 0 <? JS.strlen s.

(** [getPathSegments] *)
Definition getPathSegments (proc : ProcessModel.ProcessInfo) : list string :=
  let first := hd EmptyString (JS.splitOn JS.isWhiteSpace (ProcessModel.args proc)) in
  let cmdPath := if nonEmpty first then first else ProcessModel.command proc in
  let cmdPath :=
    if JS.startsWith cmdPath "/" then JS.substringFrom cmdPath 1 else cmdPath in
  let segments := List.filter nonEmpty (JS.splitOn (Ascii.eqb "/") cmdPath) in
  if (0 <? Z.of_nat (length segments)) then segments else [ProcessModel.command proc].

(** [children.has(key)] *)
Definition hasChild (key : string) (m : list (string * TrieNode)) : bool :=
  existsb (λ kv, String.eqb kv.1 key) m.

(** The in-place change of the node stored under [key]. *)
Definition updateChild (f : TrieNode → TrieNode) (key : string)
    (m : list (string * TrieNode)) : list (string * TrieNode) :=
  map (λ kv, if String.eqb kv.1 key then (kv.1, f kv.2) else kv) m.

(** The body of the outer loop of [buildTrie] for one process: walk down
    [folderSegments] from [current], creating missing folders, and attach
    the process to the folder reached. *)
Fixpoint attach (folderSegments : list string) (proc : ProcessModel.ProcessInfo)
    (current : TrieNode) : TrieNode :=
  match folderSegments with
  | [] =>
      {| segment := segment current; fullPath := fullPath current;
         children := children current;
         processes := processes current ++ [proc];
         totalCount := totalCount current; totalCpu := totalCpu current;
         totalRss := totalRss current |}
  | seg :: rest =>
      let childPath :=
        if nonEmpty (fullPath current)
        then String.append (fullPath current) (String "/" seg) else seg in
      let withSeg :=
        if hasChild seg (children current) then children current
        else children current ++ [(seg, createTrieNode seg childPath)] in
      {| segment := segment current; fullPath := fullPath current;
         children := updateChild (attach rest proc) seg withSeg;
         processes := processes current;
         totalCount := totalCount current; totalCpu := totalCpu current;
         totalRss := totalRss current |}
  end.

(** [segments.length > 1 ? segments.slice(0, -1) : []] *)
Definition folderSegmentsOf (segments : list string) : list string :=
  if 1 <? Z.of_nat (length segments) then removelast segments else [].

(** [computeTotals] *)
Fixpoint computeTotals (node : TrieNode) : TrieNode :=
  let count0 := Z.of_nat (length (processes node)) in
  let cpu0 :=
    fold_left (λ acc p, PrimFloat.add acc (ProcessModel.cpu p)) (processes node)
              PrimFloat.zero in
  let rss0 := fold_left (λ acc p, acc + ProcessModel.rss p) (processes node) 0 in
  let done := map (λ kv, (fst kv, computeTotals (snd kv))) (children node) in
  {| segment := segment node; fullPath := fullPath node;
     children := done;
     processes := processes node;
     totalCount := fold_left (λ acc kv, acc + totalCount kv.2) done count0;
     totalCpu := fold_left (λ acc kv, PrimFloat.add acc (totalCpu kv.2)) done cpu0;
     totalRss := fold_left (λ acc kv, acc + totalRss kv.2) done rss0 |}.

(** [buildTrie] *)
Definition buildTrie (processes : list ProcessModel.ProcessInfo) : TrieNode :=
  computeTotals
    (fold_left
       (λ root proc, attach (folderSegmentsOf (getPathSegments proc)) proc root)
       processes (createTrieNode EmptyString EmptyString)).

(** [collapseChains] *)
Fixpoint collapseChains (node : TrieNode) : TrieNode :=
  let newChildren := map (λ kv, (fst kv, collapseChains (snd kv))) (children node) in
  match newChildren with
  | [(_, onlyChild)] =>
      if ((Z.of_nat (length (processes node)) =? 0) && nonEmpty (segment node))%bool
      then {| segment := String.append (segment node) (String "/" (segment onlyChild));
              fullPath := fullPath onlyChild;
              children := children onlyChild;
              processes := processes onlyChild;
              totalCount := totalCount onlyChild;
              totalCpu := totalCpu onlyChild;
              totalRss := totalRss onlyChild |}
      else {| segment := segment node; fullPath := fullPath node;
              children := newChildren; processes := processes node;
              totalCount := totalCount node; totalCpu := totalCpu node;
              totalRss := totalRss node |}
  | _ =>
      {| segment := segment node; fullPath := fullPath node;
         children := newChildren; processes := processes node;
         totalCount := totalCount node; totalCpu := totalCpu node;
         totalRss := totalRss node |}
  end.

(** A single-child link of a chain: a folder with exactly one child folder
    and no directly attached process. *)
Definition isChainLink (node : TrieNode) : bool :=
  ((Z.of_nat (length (children node)) =? 1)
   && (Z.of_nat (length (processes node)) =? 0))%bool.

(** No chain link anywhere in the subtree of [node]. *)
Fixpoint noChainLink (node : TrieNode) : bool :=
  negb (isChainLink node)
  && forallb (λ kv, noChainLink (snd kv)) (children node).

(** The fields of the provider that filtering reads. *)
Record Provider := mkProvider {
  snapshot : option ProcessModel.ProcessSnapshot;
  showSystemProcesses : bool;
  showOtherUsers : bool;
  currentUser : string;
}.

Definition systemUsers : list string :=
  [ "root"; "daemon"; "nobody"; "sys"; "bin"; "mail";
    "_windowserver"; "_coreaudiod"; "_spotlight"; "_locationd";
    "_hidd"; "_distnoted"; "_nsurlsessiond"; "_displaypolicyd" ].

(** [isSystemUser] *)
Definition isSystemUser (user : string) : bool :=
  existsb (String.eqb user) systemUsers || JS.startsWith user "_".

(** [isVisible] *)
Definition isVisible (this : Provider) (proc : ProcessModel.ProcessInfo) : bool :=
  if (negb (showOtherUsers this)
      && negb (String.eqb (ProcessModel.user proc) (currentUser this)))%bool
  then false
  else if (negb (showSystemProcesses this)
           && isSystemUser (ProcessModel.user proc))%bool
  then false
  else true.

(** [getVisibleProcesses] *)
Definition getVisibleProcesses (this : Provider) : list ProcessModel.ProcessInfo :=
  match snapshot this with
  | Some snap => List.filter (isVisible this) (ProcessModel.processes snap)
  | None => []
  end.

(** The trie that [update] stores after replacing the snapshot. *)
Definition update (this : Provider) (snap : ProcessModel.ProcessSnapshot)
  : Provider * TrieNode :=
  let this' := {| snapshot := Some snap;
                  showSystemProcesses := showSystemProcesses this;
                  showOtherUsers := showOtherUsers this;
                  currentUser := currentUser this |} in
  (this', collapseChains (buildTrie (getVisibleProcesses this'))).

(** *** The filter in the words of the specification *)

(** A recognized system account: a member of the fixed list, or any name
    beginning with an underscore. *)
Definition recognizedSystemAccount (owner : string) : Prop :=
  owner ∈ systemUsers ∨ ∃ rest, owner = String "_" rest.

(** Visible: (owner is the invoking user or show-other-users is enabled)
    and (owner is no recognized system account or show-system-processes is
    enabled). *)
Definition visibleBySpec (this : Provider) (proc : ProcessModel.ProcessInfo) : Prop :=
  (ProcessModel.user proc = currentUser this ∨ showOtherUsers this = true)
  ∧ (¬ recognizedSystemAccount (ProcessModel.user proc)
     ∨ showSystemProcesses this = true).

(** *** Notions used in the statements about the trie *)

(** Every process held in the subtree of [node]: the directly attached
    ones, then those of the child folders in order. *)
Fixpoint allProcesses (node : TrieNode) : list ProcessModel.ProcessInfo :=
  processes node ++ concat (map (λ kv, allProcesses (snd kv)) (children node)).

(** No folder of the subtree has two children under the same key. *)
Fixpoint uniqueKeys (node : TrieNode) : Prop :=
  NoDup (map fst (children node))
  ∧ fold_right (λ kv rest, uniqueKeys (snd kv) ∧ rest) True (children node).

(** Every folder below [node] has a non-empty segment. *)
Fixpoint namedFolders (node : TrieNode) : Prop :=
  fold_right (λ kv rest, nonEmpty (segment (snd kv)) = true
                         ∧ namedFolders (snd kv) ∧ rest)
             True (children node).

(** The sum of the resident set sizes. *)
Definition sumRss (procs : list ProcessModel.ProcessInfo) : Z :=
  fold_right (λ p acc, ProcessModel.rss p + acc) 0 procs.

(** In the subtree of [node], every folder's count and resident set size
    are those of the processes it holds. *)
Fixpoint totalsAgree (node : TrieNode) : Prop :=
  totalCount node = Z.of_nat (length (allProcesses node))
  ∧ totalRss node = sumRss (allProcesses node)
  ∧ fold_right (λ kv rest, totalsAgree (snd kv) ∧ rest) True (children node).

(** [children.get(key)] *)
Definition getChild (key : string) (m : list (string * TrieNode)) : option TrieNode :=
  snd <$> List.find (λ kv, String.eqb kv.1 key) m.

(** The folder reached from [node] by following [segments] key by key. *)
Fixpoint walk (segments : list string) (node : TrieNode) : option TrieNode :=
  match segments with
  | [] => Some node
  | seg :: rest =>
      match getChild seg (children node) with
      | Some child => walk rest child
      | None => None
      end
  end.

End ProcessTreeProvider.

(** ** processController.ts: kill operations *)

Module ProcessController.

Inductive Signal := SIGTERM | SIGKILL.

(** What [process.kill(pid, signal)] does: it returns, or it throws an
    error whose message (line 133 of the source) is [msg]. *)
Inductive KillResult :=
  | Delivered
  | Throws (msg : string).

(** One call [process.kill(target, signal)]; a group is addressed by a
    negative [target]. *)
Record KillCall := mkKillCall { target : Z; signal : Signal }.

(** The operating system as the controller sees it: the outcome of a call
    may depend on every call made before it. *)
Definition OS := list KillCall → KillCall → KillResult.

Inductive Subject := OfProcess | OfGroup.

(** What the controller shows through [vscode.window]. *)
Inductive Notice :=
  | AskConfirmation (what : Subject) (sig : Signal) (id : Z) (descendants : option Z)
  | AlreadyExited (what : Subject) (id : Z)
  | PermissionDenied (what : Subject) (id : Z)
  | FailedToSignal (what : Subject) (id : Z) (msg : string).

(** The observable state: the calls of [process.kill] made so far and the
    messages shown so far, oldest first. *)
Record World := mkWorld { calls : list KillCall; notices : list Notice }.

Definition notify (n : Notice) (w : World) : World :=
  {| calls := calls w; notices := notices w ++ [n] |}.

(** The [try]/[catch] shared by [sendSignal] and [sendSignalToGroup]:
    [target] is what is passed to [process.kill], [id] what is reported. *)
Definition signalAndReport (os : OS) (what : Subject) (target id : Z) (sig : Signal)
    (w : World) : bool * World :=
  let call := {| target := target; signal := sig |} in
  let w1 := {| calls := calls w ++ [call]; notices := notices w |} in
  match os (calls w) call with
  | Delivered => (true, w1)
  | Throws msg =>
      if JS.includes msg "ESRCH" then (true, notify (AlreadyExited what id) w1)
      else if JS.includes msg "EPERM" then (false, notify (PermissionDenied what id) w1)
      else (false, notify (FailedToSignal what id msg) w1)
  end.

(** [sendSignal] *)
Definition sendSignal (os : OS) (pid : Z) (sig : Signal) (w : World) : bool * World :=
  signalAndReport os OfProcess pid pid sig w.

(** [sendSignalToGroup] *)
Definition sendSignalToGroup (os : OS) (pgid : Z) (sig : Signal) (w : World)
  : bool * World :=
  signalAndReport os OfGroup (- pgid) pgid sig w.

(** The confirmation prologue of every operation: [answer] is what the
    modal dialog resolves to, [accept] the label of its only button. *)
Definition confirmed (confirm : bool) (ask : Notice) (accept : string)
    (answer : option string) (w : World) : bool * World :=
  if confirm
  then (bool_decide (answer = Some accept), notify ask w)
  else (true, w).

(** [terminatePid] *)
Definition terminatePid (os : OS) (pid : Z) (confirm : bool)
    (answer : option string) (w : World) : bool * World :=
  let '(go, w1) :=
    confirmed confirm (AskConfirmation OfProcess SIGTERM pid None) "Terminate" answer w in
  if go then sendSignal os pid SIGTERM w1 else (false, w1).

(** [forceKillPid] *)
Definition forceKillPid (os : OS) (pid : Z) (confirm : bool)
    (answer : option string) (w : World) : bool * World :=
  let '(go, w1) :=
    confirmed confirm (AskConfirmation OfProcess SIGKILL pid None) "Force Kill" answer w in
  if go then sendSignal os pid SIGKILL w1 else (false, w1).

(** [terminateGroup] *)
Definition terminateGroup (os : OS) (pgid : Z) (confirm : bool)
    (answer : option string) (w : World) : bool * World :=
  let '(go, w1) :=
    confirmed confirm (AskConfirmation OfGroup SIGTERM pgid None) "Terminate Group"
              answer w in
  if go then sendSignalToGroup os pgid SIGTERM w1 else (false, w1).

(** [forceKillGroup] *)
Definition forceKillGroup (os : OS) (pgid : Z) (confirm : bool)
    (answer : option string) (w : World) : bool * World :=
  let '(go, w1) :=
    confirmed confirm (AskConfirmation OfGroup SIGKILL pgid None) "Force Kill Group"
              answer w in
  if go then sendSignalToGroup os pgid SIGKILL w1 else (false, w1).

(** [snapshot.childrenByPpid.get(current) || []] *)
Definition childrenOf (index : gmap Z (list Z)) (current : Z) : list Z :=
  default [] (index !! current).

(** The [while] loop of [getDescendants].  The JavaScript array [stack]
    is kept top first (its last element is the head of the list), so that
    pushing [children] one by one puts them reversed in front.  Each
    unit of [fuel] pays for one test of the loop condition; [None] means
    that the stack was not found empty within [fuel] tests. *)
Fixpoint descend (fuel : nat) (index : gmap Z (list Z)) (stack result : list Z)
  : option (list Z) :=
  match fuel with
  | O => None
  | S fuel' =>
      match stack with
      | [] => Some result
      | current :: stack' =>
          let children := childrenOf index current in
          descend fuel' index (reverse children ++ stack') (result ++ children)
      end
  end.

(** [getDescendants] *)
Definition getDescendants (fuel : nat) (pid : Z) (snapshot : ProcessModel.ProcessSnapshot)
  : option (list Z) :=
  descend fuel (ProcessModel.childrenByPpid snapshot) [pid] [].

(** The [for] loop of [terminateSubtree] over the reversed descendants. *)
Fixpoint signalEach (os : OS) (pids : list Z) (allOk : bool) (w : World)
  : bool * World :=
  match pids with
  | [] => (allOk, w)
  | childPid :: rest =>
      let '(ok, w1) := sendSignal os childPid SIGTERM w in
      signalEach os rest (if ok then allOk else false) w1
  end.

(** [terminateSubtree]; [None] when [getDescendants] does not return. *)
Definition terminateSubtree (fuel : nat) (os : OS) (pid : Z)
    (snapshot : ProcessModel.ProcessSnapshot) (confirm : bool)
    (answer : option string) (w : World) : option (bool * World) :=
  match getDescendants fuel pid snapshot with
  | None => None
  | Some descendants =>
      let '(go, w1) :=
        confirmed confirm
          (AskConfirmation OfProcess SIGTERM pid (Some (Z.of_nat (length descendants))))
          "Terminate Subtree" answer w in
      if go then
        let '(allOk, w2) := signalEach os (reverse descendants) true w1 in
        let '(ok, w3) := sendSignal os pid SIGTERM w2 in
        Some (if ok then allOk else false, w3)
      else Some (false, w1)
  end.

(** *** Notions used in the statements about the controller *)

(** [parentOf index p c]: [c] is listed as a child of [p]. *)
Definition parentOf (index : gmap Z (list Z)) (p c : Z) : Prop :=
  c ∈ childrenOf index p.

(** [c] is a descendant of [p]: reachable in one or more child steps. *)
Definition descendantOf (index : gmap Z (list Z)) (p c : Z) : Prop :=
  tc (parentOf index) p c.

(** The parent links are acyclic: no process is its own descendant. *)
Definition acyclic (index : gmap Z (list Z)) : Prop :=
  ∀ p, ¬ descendantOf index p p.

(** A sufficient, executable test of acyclicity: every child has a strictly
    smaller [rank] than its parent. *)
Definition rankedBy (rank : Z → Z) (index : gmap Z (list Z)) : bool :=
  forallb (λ kv, forallb (λ c, rank c <? rank kv.1) kv.2) (map_to_list index).

(** The calls that signalling [pids] in order with SIGTERM makes. *)
Definition termCalls (pids : list Z) : list KillCall :=
  map (λ p, {| target := p; signal := SIGTERM |}) pids.

(** The four classes of outcome that the controller distinguishes. *)
Inductive OutcomeClass := Succeeded | NoSuchProcess | NotPermitted | OtherFailure.

Definition classify (r : KillResult) : OutcomeClass :=
  match r with
  | Delivered => Succeeded
  | Throws msg =>
      if JS.includes msg "ESRCH" then NoSuchProcess
      else if JS.includes msg "EPERM" then NotPermitted
      else OtherFailure
  end.

(** The outcome of a call counts as a success of the operation: the signal
    was delivered, or the target had already exited. *)
Definition benign (r : KillResult) : bool :=
  match r with
  | Delivered => true
  | Throws msg => JS.includes msg "ESRCH"
  end.

(** The outcomes, in order, that [os] gives to the calls [new] made after
    the calls [before]. *)
Fixpoint outcomes (os : OS) (before new : list KillCall) : list KillResult :=
  match new with
  | [] => []
  | c :: rest => os before c :: outcomes os (before ++ [c]) rest
  end.

(** In [ds], every occurrence of a pid is followed by each of its children. *)
Definition childrenAfter (index : gmap Z (list Z)) (ds : list Z) : Prop :=
  ∀ l1 q l2 c, ds = l1 ++ q :: l2 → parentOf index q c → c ∈ l2.

(** What the loop does with one stack entry [p]: after [n] iterations the
    entry and everything pushed because of it is gone, the stack below is
    untouched and [ds] has been appended to the result. *)
Definition unwinds (index : gmap Z (list Z)) (p : Z) (n : nat) (ds : list Z) : Prop :=
  (∀ fuel stack result,
      descend (n + fuel) index (p :: stack) result
      = descend fuel index stack (result ++ ds))
  ∧ (∀ d, d ∈ ds ↔ descendantOf index p d)
  ∧ childrenAfter index ds.

(** The same for several entries on top of the stack. *)
Definition unwindsAll (index : gmap Z (list Z)) (ps : list Z) (n : nat) (ds : list Z)
  : Prop :=
  (∀ fuel stack result,
      descend (n + fuel) index (ps ++ stack) result
      = descend fuel index stack (result ++ ds))
  ∧ (∀ d, d ∈ ds ↔ ∃ p, p ∈ ps ∧ descendantOf index p d)
  ∧ childrenAfter index ds.

(** *** The operations under one name *)

(** The five kill operations of the controller. *)
Inductive Operation :=
  | Terminate
  | ForceKill
  | TerminateGroup
  | ForceKillGroup
  | TerminateSubtree (fuel : nat) (snapshot : ProcessModel.ProcessSnapshot).

(** The operation applied to [id] (a pid, or a process group id). *)
Definition perform (op : Operation) (os : OS) (id : Z) (confirm : bool)
    (answer : option string) (w : World) : option (bool * World) :=
  match op with
  | Terminate => Some (terminatePid os id confirm answer w)
  | ForceKill => Some (forceKillPid os id confirm answer w)
  | TerminateGroup => Some (terminateGroup os id confirm answer w)
  | ForceKillGroup => Some (forceKillGroup os id confirm answer w)
  | TerminateSubtree fuel snapshot =>
      terminateSubtree fuel os id snapshot confirm answer w
  end.

(** The label of the button that confirms the operation. *)
Definition acceptLabel (op : Operation) : string :=
  match op with
  | Terminate => "Terminate"
  | ForceKill => "Force Kill"
  | TerminateGroup => "Terminate Group"
  | ForceKillGroup => "Force Kill Group"
  | TerminateSubtree _ _ => "Terminate Subtree"
  end.

(** Every process has at most one parent in the index and is listed at
    most once among its children. *)
Definition singleParent (index : gmap Z (list Z)) : Prop :=
  (∀ p q c, parentOf index p c → parentOf index q c → p = q)
  ∧ ∀ p, NoDup (childrenOf index p).

End ProcessController.

(** ** processPoller.ts: the polling loop *)

Module PollerControl.

(** What the poller does to the outside world, in order. *)
Inductive Effect :=
  | ExecPs (args : list string)
  | SetInterval (handle : nat) (ms : Z)
  | ClearInterval (handle : nat)
  | EmitError (err : string)
  | EmitEvents (events : list ProcessModel.ProcessEvent)
  | EmitSnapshot (snapshot : ProcessModel.ProcessSnapshot).

(** The fields of a [ProcessPoller]. *)
Record Poller := mkPoller {
  intervalHandle : option nat;
  polling : bool;
  paused : bool;
  currentSnapshot : option ProcessModel.ProcessSnapshot;
  currentUser : string;
  intervalMs : Z;
}.

(** A poller together with the effects it has had so far. *)
Definition Run : Type := Poller * list Effect.

(** [new ProcessPoller(intervalMs)]; [user] is [os.userInfo().username]. *)
Definition create (intervalMs : Z) (user : string) : Run :=
  ({| intervalHandle := None; polling := false; paused := false;
      currentSnapshot := None; currentUser := user; intervalMs := intervalMs |}, []).

(** The arguments given to [ps] on each platform. *)
Definition psArgs (platform : string) : list string :=
  if String.eqb platform "darwin"
  then ["-axo"; "pid,ppid,pgid,user,%cpu,rss,etime,comm,args"]
  else ["-eo"; "pid,ppid,pgid,user,pcpu,rss,etime,comm,args"].

(** [poll], up to the call of [execFile]. *)
Definition poll (platform : string) (r : Run) : Run :=
  let '(this, log) := r in
  if (polling this || paused this)%bool then r
  else ({| intervalHandle := intervalHandle this; polling := true;
           paused := paused this; currentSnapshot := currentSnapshot this;
           currentUser := currentUser this; intervalMs := intervalMs this |},
        log ++ [ExecPs (psArgs platform)]).

(** [start]; the handle that [setInterval] returns is new. *)
Definition start (platform : string) (r : Run) : Run :=
  match intervalHandle r.1 with
  | Some _ => r
  | None =>
      let '(this, log) := poll platform r in
      let handle := length log in
      ({| intervalHandle := Some handle; polling := polling this;
          paused := paused this; currentSnapshot := currentSnapshot this;
          currentUser := currentUser this; intervalMs := intervalMs this |},
       log ++ [SetInterval handle (intervalMs this)])
  end.

(** [stop] *)
Definition stop (r : Run) : Run :=
  let '(this, log) := r in
  match intervalHandle this with
  | Some handle =>
      ({| intervalHandle := None; polling := polling this;
          paused := paused this; currentSnapshot := currentSnapshot this;
          currentUser := currentUser this; intervalMs := intervalMs this |},
       log ++ [ClearInterval handle])
  | None => r
  end.

(** [togglePause]: the new paused state and the poller. *)
Definition togglePause (r : Run) : bool * Run :=
  let '(this, log) := r in
  (negb (paused this),
   ({| intervalHandle := intervalHandle this; polling := polling this;
       paused := negb (paused this); currentSnapshot := currentSnapshot this;
       currentUser := currentUser this; intervalMs := intervalMs this |}, log)).

(** [setInterval] *)
Definition setInterval (platform : string) (ms : Z) (r : Run) : Run :=
  let '(this, log) := r in
  let this1 :=
    {| intervalHandle := intervalHandle this; polling := polling this;
       paused := paused this; currentSnapshot := currentSnapshot this;
       currentUser := currentUser this; intervalMs := ms |} in
  match intervalHandle this1 with
  | Some _ => start platform (stop (this1, log))
  | None => (this1, log)
  end.

(** [refresh] *)
Definition refresh (platform : string) (r : Run) : Run := poll platform r.

(** What [execFile] hands to its callback. *)
Inductive ExecResult :=
  | ExecFailed (err : string)
  | ExecOutput (stdout : string).

(** The callback given to [execFile]; [now] is the value of [Date.now()]
    read by [buildSnapshot]. *)
Definition onExecDone (parseFloat : string → float) (platform : string) (now : Z)
    (result : ExecResult) (r : Run) : Run :=
  let '(this, log) := r in
  match result with
  | ExecFailed err =>
      ({| intervalHandle := intervalHandle this; polling := false;
          paused := paused this; currentSnapshot := currentSnapshot this;
          currentUser := currentUser this; intervalMs := intervalMs this |},
       log ++ [EmitError err])
  | ExecOutput stdout =>
      let processes := ProcessPoller.parseOutput parseFloat stdout platform in
      let newSnapshot := ProcessModel.buildSnapshot now processes in
      let events := ProcessModel.diffSnapshots (currentSnapshot this) newSnapshot in
      ({| intervalHandle := intervalHandle this; polling := false;
          paused := paused this; currentSnapshot := Some newSnapshot;
          currentUser := currentUser this; intervalMs := intervalMs this |},
       log ++ (if 0 <? Z.of_nat (length events) then [EmitEvents events] else [])
           ++ [EmitSnapshot newSnapshot])
  end.

(** *** The poller in its environment *)

(** What can happen to a poller: a call from the host, a firing of its
    timer, the completion of a listing. *)
Inductive Input :=
  | CallStart
  | CallStop
  | CallTogglePause
  | CallSetInterval (ms : Z)
  | CallRefresh
  | TimerFires
  | ExecDone (now : Z) (result : ExecResult).

Definition isExecPs (e : Effect) : bool :=
  match e with
  | ExecPs _ => true
  | _ => false
  end.

(** The number of listings launched. *)
Definition launched (log : list Effect) : nat :=
  length (List.filter isExecPs log).

(** A poller, its effects, and the number of listings that have completed. *)
Record System := mkSystem { run : Run; completed : nat }.

(** The listings launched and not yet completed. *)
Definition inFlight (s : System) : nat := (launched (run s).2 - completed s)%nat.

(** One input: a timer only fires while it is armed, a listing only
    completes while one is in flight. *)
Definition step (parseFloat : string → float) (platform : string)
    (s : System) (i : Input) : System :=
  match i with
  | CallStart => {| run := start platform (run s); completed := completed s |}
  | CallStop => {| run := stop (run s); completed := completed s |}
  | CallTogglePause => {| run := (togglePause (run s)).2; completed := completed s |}
  | CallSetInterval ms =>
      {| run := setInterval platform ms (run s); completed := completed s |}
  | CallRefresh => {| run := refresh platform (run s); completed := completed s |}
  | TimerFires =>
      match intervalHandle (run s).1 with
      | Some _ => {| run := poll platform (run s); completed := completed s |}
      | None => s
      end
  | ExecDone now result =>
      if (0 <? inFlight s)%nat
      then {| run := onExecDone parseFloat platform now result (run s);
              completed := S (completed s) |}
      else s
  end.

Definition steps (parseFloat : string → float) (platform : string)
    (s : System) (inputs : list Input) : System :=
  fold_left (step parseFloat platform) inputs s.

(** A new poller in its environment. *)
Definition boot (intervalMs : Z) (user : string) : System :=
  {| run := create intervalMs user; completed := 0 |}.

(** The timers armed and not cleared since, oldest first. *)
Fixpoint liveTimers (log : list Effect) (live : list nat) : list nat :=
  match log with
  | [] => live
  | SetInterval handle _ :: rest => liveTimers rest (live ++ [handle])
  | ClearInterval handle :: rest =>
      liveTimers rest (filter (λ h, h ≠ handle) live)
  | _ :: rest => liveTimers rest live
  end.

(** The input is no successful completion of a listing. *)
Definition noOutput (i : Input) : bool :=
  match i with
  | ExecDone _ (ExecOutput _) => false
  | _ => true
  end.

(** The effects that publish data. *)
Definition publishes (e : Effect) : bool :=
  match e with
  | EmitEvents _ | EmitSnapshot _ => true
  | _ => false
  end.

(** The poller's [polling] flag agrees with the listings in flight. *)
Definition consistent (s : System) : Prop :=
  if polling (run s).1
  then launched (run s).2 = S (completed s)
  else launched (run s).2 = completed s.

(** How an operation may change the flag and the launches: not at all, or
    by launching one listing from an idle poller. *)
Definition pollsAtMostOnce (r r' : Run) : Prop :=
  (polling r'.1 = polling r.1 ∧ launched r'.2 = launched r.2)
  ∨ (polling r.1 = false ∧ polling r'.1 = true ∧ launched r'.2 = S (launched r.2)).

(** The timer that the poller holds, as a list. *)
Definition heldTimer (this : Poller) : list nat :=
  match intervalHandle this with
  | Some handle => [handle]
  | None => []
  end.

End PollerControl.

(** ** sfxManager.ts: sound effects *)

Module SFX.

Inductive SFXEvent :=
  | Cock
  | Fire.

#[global] Instance SFXEvent_eq_dec : EqDecision SFXEvent.
Proof. solve_decision. Defined.

(** The value of the enum member, used in the name of the setting. *)
Definition eventName (event : SFXEvent) : string :=
  match event with
  | Cock => "cock"
  | Fire => "fire"
  end.

Definition DEBOUNCE (event : SFXEvent) : Z :=
  match event with
  | Cock => 400
  | Fire => 300
  end.

Definition DEFAULT_FILES (event : SFXEvent) : string :=
  match event with
  | Cock => "cock.wav"
  | Fire => "fire.wav"
  end.

(** [toUpperCase] on one character, for the letters a to z. *)
Definition toUpperCase (c : ascii) : ascii :=
  let n := nat_of_ascii c in
  if ((97 <=? n) && (n <=? 122))%nat then ascii_of_nat (n - 32) else c.

(** [capitalize]: [s.charAt(0).toUpperCase() + s.slice(1)] *)
Definition capitalize (s : string) : string :=
  match s with
  | EmptyString => EmptyString
  | String c rest => String (toUpperCase c) rest
  end.

(** The callbacks given to [exec]. *)
Inductive Callback :=
  | WhichPaplay
  | WhichAplay
  | IgnoreErrors.

(** What the manager does to the outside world, in order.  The event of a
    timeout is the one its callback removes from the debounce map. *)
Inductive Action :=
  | Exec (command : string) (callback : Callback)
  | SetTimeout (handle : nat) (event : SFXEvent) (ms : Z)
  | ClearTimeout (handle : nat).

(** What [trigger] reads from its environment: the settings of the
    section takeitoutback, the file system, and [path.join]. *)
Record Env := mkEnv {
  configGet : string → option string;
  existsSync : string → bool;
  pathJoin : list string → string;
}.

(** The fields of an [SFXManager]; the debounce map in insertion order. *)
Record SFXManager := mkSFXManager {
  enabled : bool;
  playbackCommand : option string;
  debounceTimers : list (SFXEvent * nat);
  extensionPath : string;
}.

(** A manager together with what it has done so far. *)
Definition Sfx : Type := SFXManager * list Action.

(** A string that is neither undefined nor empty. *)
Definition truthy (s : option string) : bool :=
  match s with
  | Some (String _ _) => true
  | _ => false
  end.

(** [Map.has], [Map.set] and [Map.delete] on the debounce map. *)
Definition has (event : SFXEvent) (m : list (SFXEvent * nat)) : bool :=
  existsb (λ kv, bool_decide (kv.1 = event)) m.

Definition mapSet (event : SFXEvent) (timer : nat) (m : list (SFXEvent * nat))
  : list (SFXEvent * nat) :=
  if has event m
  then map (λ kv, if bool_decide (kv.1 = event) then (event, timer) else kv) m
  else m ++ [(event, timer)].

Definition mapDelete (event : SFXEvent) (m : list (SFXEvent * nat))
  : list (SFXEvent * nat) :=
  filter (λ kv, kv.1 ≠ event) m.

(** [new SFXManager()]: the constructor runs [detectPlaybackCommand]. *)
Definition create (platform : string) : Sfx :=
  if String.eqb platform "darwin"
  then ({| enabled := true; playbackCommand := Some "afplay";
           debounceTimers := []; extensionPath := "" |}, [])
  else ({| enabled := true; playbackCommand := None;
           debounceTimers := []; extensionPath := "" |},
        [Exec "which paplay" WhichPaplay]).

(** The callback of [exec('which paplay')]; [err] tells whether it got an
    error. *)
Definition onWhichPaplay (err : bool) (r : Sfx) : Sfx :=
  let '(this, log) := r in
  if negb err
  then ({| enabled := enabled this; playbackCommand := Some "paplay";
           debounceTimers := debounceTimers this;
           extensionPath := extensionPath this |}, log)
  else (this, log ++ [Exec "which aplay" WhichAplay]).

(** The callback of [exec('which aplay')]. *)
Definition onWhichAplay (err : bool) (r : Sfx) : Sfx :=
  let '(this, log) := r in
  if negb err
  then ({| enabled := enabled this; playbackCommand := Some "aplay";
           debounceTimers := debounceTimers this;
           extensionPath := extensionPath this |}, log)
  else r.

Definition setExtensionPath (extPath : string) (r : Sfx) : Sfx :=
  let '(this, log) := r in
  ({| enabled := enabled this; playbackCommand := playbackCommand this;
      debounceTimers := debounceTimers this; extensionPath := extPath |}, log).

Definition setEnabled (value : bool) (r : Sfx) : Sfx :=
  let '(this, log) := r in
  ({| enabled := value; playbackCommand := playbackCommand this;
      debounceTimers := debounceTimers this;
      extensionPath := extensionPath this |}, log).

(** [resolveSoundPath]: the user's file when it is set and exists, else
    the bundled file when it exists. *)
Definition resolveSoundPath (env : Env) (this : SFXManager) (event : SFXEvent)
  : option string :=
  let settingKey := "sfx.path" +:+ capitalize (eventName event) in
  let userPath := configGet env settingKey in
  if truthy userPath && existsSync env (default "" userPath) then userPath
  else if truthy (Some (extensionPath this)) then
    let bundled :=
      pathJoin env [extensionPath this; "media"; "sfx"; DEFAULT_FILES event] in
    if existsSync env bundled then Some bundled else None
  else None.

(** The command line that [play] runs: the player, a space, and the file
    between double quotes. *)
Definition playCommand (player filePath : string) : string :=
  player +:+ " " +:+ String "034" filePath +:+ String "034" "".

(** [play] *)
Definition play (this : SFXManager) (filePath : string) (log : list Action)
  : list Action :=
  if truthy (playbackCommand this)
  then log ++ [Exec (playCommand (default "" (playbackCommand this)) filePath)
                    IgnoreErrors]
  else log.

(** [trigger]; the handle that [setTimeout] returns is new. *)
Definition trigger (env : Env) (event : SFXEvent) (r : Sfx) : Sfx :=
  let '(this, log) := r in
  if negb (enabled this) || negb (truthy (playbackCommand this)) then r
  else if has event (debounceTimers this) then r
  else
    let soundPath := resolveSoundPath env this event in
    if negb (truthy soundPath) then r
    else
      let log1 := play this (default "" soundPath) log in
      let timer := length log1 in
      ({| enabled := enabled this; playbackCommand := playbackCommand this;
          debounceTimers := mapSet event timer (debounceTimers this);
          extensionPath := extensionPath this |},
       log1 ++ [SetTimeout timer event (DEBOUNCE event)]).

(** The callback of the timeout armed by [trigger] for [event]. *)
Definition onTimeout (event : SFXEvent) (r : Sfx) : Sfx :=
  let '(this, log) := r in
  ({| enabled := enabled this; playbackCommand := playbackCommand this;
      debounceTimers := mapDelete event (debounceTimers this);
      extensionPath := extensionPath this |}, log).

(** [dispose] *)
Definition dispose (r : Sfx) : Sfx :=
  let '(this, log) := r in
  ({| enabled := enabled this; playbackCommand := playbackCommand this;
      debounceTimers := []; extensionPath := extensionPath this |},
   log ++ map (λ kv, ClearTimeout kv.2) (debounceTimers this)).

(** *** The manager in its environment *)

(** The timeouts set and not cleared since, oldest first. *)
Fixpoint armedTimeouts (log : list Action) (live : list (SFXEvent * nat))
  : list (SFXEvent * nat) :=
  match log with
  | [] => live
  | SetTimeout handle event _ :: rest => armedTimeouts rest (live ++ [(event, handle)])
  | ClearTimeout handle :: rest =>
      armedTimeouts rest (filter (λ kv, kv.2 ≠ handle) live)
  | _ :: rest => armedTimeouts rest live
  end.

(** What can happen to a manager: a call from the extension, the expiry
    of a timeout, the completion of a command. *)
Inductive SfxInput :=
  | CallSetExtensionPath (extPath : string)
  | CallSetEnabled (value : bool)
  | CallTrigger (env : Env) (event : SFXEvent)
  | CallDispose
  | TimeoutExpires (event : SFXEvent) (handle : nat)
  | ExecReturns (index : nat) (err : bool).

(** A manager, what it has done, and the callbacks that have run (a
    timeout by its handle, a command by its position among the actions). *)
Record SfxSystem := mkSfxSystem { sfx : Sfx; ran : list nat }.

(** The timeouts that can still expire. *)
Definition pendingTimeouts (s : SfxSystem) : list (SFXEvent * nat) :=
  filter (λ kv, kv.2 ∉ ran s) (armedTimeouts (sfx s).2 []).

(** One input: a timeout expires once, and only while armed; the callback
    of a command runs once. *)
Definition sfxStep (s : SfxSystem) (i : SfxInput) : SfxSystem :=
  match i with
  | CallSetExtensionPath extPath =>
      {| sfx := setExtensionPath extPath (sfx s); ran := ran s |}
  | CallSetEnabled value => {| sfx := setEnabled value (sfx s); ran := ran s |}
  | CallTrigger env event => {| sfx := trigger env event (sfx s); ran := ran s |}
  | CallDispose => {| sfx := dispose (sfx s); ran := ran s |}
  | TimeoutExpires event handle =>
      if bool_decide ((event, handle) ∈ pendingTimeouts s)
      then {| sfx := onTimeout event (sfx s); ran := handle :: ran s |}
      else s
  | ExecReturns index err =>
      if bool_decide (index ∈ ran s) then s
      else match (sfx s).2 !! index with
           | Some (Exec _ WhichPaplay) =>
               {| sfx := onWhichPaplay err (sfx s); ran := index :: ran s |}
           | Some (Exec _ WhichAplay) =>
               {| sfx := onWhichAplay err (sfx s); ran := index :: ran s |}
           | Some (Exec _ IgnoreErrors) => {| sfx := sfx s; ran := index :: ran s |}
           | _ => s
           end
  end.

Definition sfxSteps (s : SfxSystem) (inputs : list SfxInput) : SfxSystem :=
  fold_left sfxStep inputs s.

(** A new manager in its environment. *)
Definition sfxBoot (platform : string) : SfxSystem :=
  {| sfx := create platform; ran := [] |}.

(** The sounds played: the commands run by [play]. *)
Definition isPlay (a : Action) : bool :=
  match a with
  | Exec _ IgnoreErrors => true
  | _ => false
  end.

(** The events for which a timeout was set, in order. *)
Definition debounced (log : list Action) : list SFXEvent :=
  omap (λ a, match a with SetTimeout _ event _ => Some event | _ => None end) log.

(** The input neither ends a debounce window nor disposes of the manager. *)
Definition keepsWindows (i : SfxInput) : bool :=
  match i with
  | TimeoutExpires _ _ | CallDispose => false
  | _ => true
  end.

(** The three players that [detectPlaybackCommand] knows. *)
Definition players : list string := ["afplay"; "paplay"; "aplay"].


(** The player is one of the known ones, if any. *)
Definition knownPlayer (this : SFXManager) : Prop :=
  match playbackCommand this with
  | Some player => player ∈ players
  | None => True
  end.

(** The name of the setting that overrides the sound of [event]. *)
Definition settingKey (event : SFXEvent) : string :=
  "sfx.path" +:+ capitalize (eventName event).

(** The command lines a manager may hand to [exec] on [platform], given
    the calls made so far: the two probes (never on darwin), and a known
    player, a space and, between double quotes, a file name exactly as
    [resolveSoundPath] found it in a call of [trigger]: the user's
    override of the event, or the bundled file under an extension path
    that was set, and in both cases a file that existed then. *)
Definition allowedAction (platform : string) (inputs : list SfxInput) (a : Action)
  : Prop :=
  match a with
  | Exec command WhichPaplay => command = "which paplay" ∧ platform ≠ "darwin"
  | Exec command WhichAplay => command = "which aplay" ∧ platform ≠ "darwin"
  | Exec command IgnoreErrors =>
      ∃ player filePath env event,
        command = playCommand player filePath
        ∧ player ∈ players
        ∧ (platform = "darwin" → player = "afplay")
        ∧ CallTrigger env event ∈ inputs
        ∧ existsSync env filePath = true
        ∧ (configGet env (settingKey event) = Some filePath
           ∨ ∃ extPath,
               CallSetExtensionPath extPath ∈ inputs
               ∧ filePath
                 = pathJoin env [extPath; "media"; "sfx"; DEFAULT_FILES event])
  | _ => True
  end.

(** The extension path is the one of an earlier call, if it is set. *)
Definition pathWasSet (inputs : list SfxInput) (this : SFXManager) : Prop :=
  extensionPath this = EmptyString
  ∨ CallSetExtensionPath (extensionPath this) ∈ inputs.

End SFX.

(** ** extension.ts: the wiring of the poller and the tree view *)

Module Extension.

(** The settings of the section takeitoutback that the poller and the
    tree provider are configured from, defaults applied. *)
Record Settings := mkSettings {
  refreshIntervalMs : Z;
  showSystemProcessesSetting : bool;
  showOtherUsersSetting : bool;
}.

(** The tree provider and the trie it has stored, if any. *)
Record TreeView := mkTreeView {
  provider : ProcessTreeProvider.Provider;
  trie : option ProcessTreeProvider.TrieNode;
}.

(** The listener of the poller's snapshot event:
    [treeProvider.update(snapshot)]. *)
Definition onSnapshot (snapshot : ProcessModel.ProcessSnapshot) (view : TreeView)
  : TreeView :=
  let '(this, stored) := ProcessTreeProvider.update (provider view) snapshot in
  {| provider := this; trie := Some stored |}.

(** [emit] calls the listeners at once, so the tree view has seen what the
    poller has emitted, in order.  Only the snapshot event has a listener
    that changes the tree view; the listener of the error event writes to
    the console. *)
Definition deliver (emitted : list PollerControl.Effect) (view : TreeView) : TreeView :=
  fold_left (λ v e, match e with
                    | PollerControl.EmitSnapshot snapshot => onSnapshot snapshot v
                    | _ => v
                    end) emitted view.

(** [setShowSystemProcesses] and [setShowOtherUsers] with the settings. *)
Definition configure (settings : Settings) (view : TreeView) : TreeView :=
  {| provider :=
       {| ProcessTreeProvider.snapshot := ProcessTreeProvider.snapshot (provider view);
          ProcessTreeProvider.showSystemProcesses := showSystemProcessesSetting settings;
          ProcessTreeProvider.showOtherUsers := showOtherUsersSetting settings;
          ProcessTreeProvider.currentUser :=
            ProcessTreeProvider.currentUser (provider view) |};
     trie := trie view |}.

(** The poller in its environment and the tree view. *)
Record App := mkApp {
  pollerSystem : PollerControl.System;
  treeView : TreeView;
}.

(** [activate], as far as the poller and the tree view go; [user] is the
    name the poller reads from the operating system. *)
Definition activate (platform user : string) (settings : Settings) : App :=
  let poller := PollerControl.create (refreshIntervalMs settings) user in
  let treeProvider :=
    {| ProcessTreeProvider.snapshot := None;
       ProcessTreeProvider.showSystemProcesses := false;
       ProcessTreeProvider.showOtherUsers := false;
       ProcessTreeProvider.currentUser := PollerControl.currentUser poller.1 |} in
  let view := configure settings {| provider := treeProvider; trie := None |} in
  {| pollerSystem := {| PollerControl.run := PollerControl.start platform poller;
                        PollerControl.completed := 0 |};
     treeView := view |}.

(** What reaches the poller or the tree view after activation: an input of
    the poller (the commands refresh and togglePause, the refresh after a
    successful kill, the stop on disposal, its timer, the completion of a
    listing), or a change of the settings. *)
Inductive AppInput :=
  | OfPoller (i : PollerControl.Input)
  | SettingsChanged (settings : Settings).

(** What the poller emits in a step. *)
Definition emittedBy (before after : PollerControl.System) : list PollerControl.Effect :=
  drop (length (PollerControl.run before).2) (PollerControl.run after).2.

Definition appStep (parseFloat : string → float) (platform : string)
    (app : App) (input : AppInput) : App :=
  match input with
  | OfPoller i =>
      let after := PollerControl.step parseFloat platform (pollerSystem app) i in
      {| pollerSystem := after;
         treeView := deliver (emittedBy (pollerSystem app) after) (treeView app) |}
  | SettingsChanged settings =>
      let after :=
        PollerControl.step parseFloat platform (pollerSystem app)
          (PollerControl.CallSetInterval (refreshIntervalMs settings)) in
      {| pollerSystem := after;
         treeView := configure settings
                       (deliver (emittedBy (pollerSystem app) after) (treeView app)) |}
  end.

Definition appSteps (parseFloat : string → float) (platform : string)
    (app : App) (inputs : list AppInput) : App :=
  fold_left (appStep parseFloat platform) inputs app.

(** The last snapshot among the effects, or [current] when there is none. *)
Definition lastEmitted (emitted : list PollerControl.Effect)
    (current : option ProcessModel.ProcessSnapshot)
  : option ProcessModel.ProcessSnapshot :=
  fold_left (λ acc e, match e with
                      | PollerControl.EmitSnapshot snapshot => Some snapshot
                      | _ => acc
                      end) emitted current.

(** The stored trie is the one of the visible processes of the stored
    snapshot, under the flags as they are. *)
Definition upToDate (view : TreeView) : Prop :=
  trie view
  = option_map
      (λ _, ProcessTreeProvider.collapseChains
              (ProcessTreeProvider.buildTrie
                 (ProcessTreeProvider.getVisibleProcesses (provider view))))
      (ProcessTreeProvider.snapshot (provider view)).

(** The input leaves the two filter settings as [settings] has them. *)
Definition keepsFilters (settings : Settings) (input : AppInput) : Prop :=
  match input with
  | OfPoller _ => True
  | SettingsChanged settings' =>
      showSystemProcessesSetting settings' = showSystemProcessesSetting settings
      ∧ showOtherUsersSetting settings' = showOtherUsersSetting settings
  end.

(** An operation of the poller extends the log, and the snapshot the
    poller holds afterwards is the last one it emitted, if it emitted one. *)
Definition emitsItsSnapshot (r r' : PollerControl.Run) : Prop :=
  ∃ new, r'.2 = r.2 ++ new
         ∧ PollerControl.currentSnapshot r'.1
           = lastEmitted new (PollerControl.currentSnapshot r.1)
         ∧ PollerControl.currentUser r'.1 = PollerControl.currentUser r.1.

(** The tree view holds the snapshot and the user of the poller. *)
Definition follows (app : App) : Prop :=
  ProcessTreeProvider.snapshot (provider (treeView app))
  = PollerControl.currentSnapshot (PollerControl.run (pollerSystem app)).1
  ∧ ProcessTreeProvider.currentUser (provider (treeView app))
    = PollerControl.currentUser (PollerControl.run (pollerSystem app)).1.

(** The tree view is up to date and filters as [settings] says, for the
    user of the poller. *)
Definition shows (user : string) (settings : Settings) (app : App) : Prop :=
  follows app
  ∧ upToDate (treeView app)
  ∧ ProcessTreeProvider.showSystemProcesses (provider (treeView app))
    = showSystemProcessesSetting settings
  ∧ ProcessTreeProvider.showOtherUsers (provider (treeView app))
    = showOtherUsersSetting settings
  ∧ PollerControl.currentUser (PollerControl.run (pollerSystem app)).1 = user.

(** The poller holds the last snapshot it has emitted, for [user]. *)
Definition publishesItsSnapshot (user : string) (s : PollerControl.System) : Prop :=
  PollerControl.currentSnapshot (PollerControl.run s).1
  = lastEmitted (PollerControl.run s).2 None
  ∧ PollerControl.currentUser (PollerControl.run s).1 = user.

End Extension.

(** ** Sample inputs *)

Module Samples.
Import ProcessModel.

Definition sampleProcess (pid ppid : Z) (user command args : string) : ProcessInfo :=
  {| pid := pid; ppid := ppid; pgid := pid; user := user; cpu := 1.5%float;
     rss := 2048; etime := "02:30"; etimeSeconds := 150;
     command := command; args := args |}.

(** A table in which pid 0 is listed with parent pid 0, the way some
    systems list their kernel task. *)
Definition kernelTable : ProcessSnapshot :=
  buildSnapshot 0
    [ sampleProcess 0 0 "root" "kernel_task" "kernel_task";
      sampleProcess 1 0 "root" "launchd" "/sbin/launchd" ].

(** The chain 1 ← 2 ← 3 ← 4. *)
Definition chain : ProcessSnapshot :=
  buildSnapshot 0
    [ sampleProcess 1 0 "alice" "a" "/bin/a";
      sampleProcess 2 1 "alice" "b" "/bin/b";
      sampleProcess 3 2 "alice" "c" "/bin/c";
      sampleProcess 4 3 "alice" "d" "/bin/d" ].

(** An operating system that refuses to signal pid 3. *)
Definition denyThree : ProcessController.OS :=
  λ _ call,
    if ProcessController.target call =? 3
    then ProcessController.Throws "kill EPERM"
    else ProcessController.Delivered.

Definition freshWorld : ProcessController.World :=
  {| ProcessController.calls := []; ProcessController.notices := [] |}.

(** A provider showing system processes but not those of other users. *)
Definition aliceWithSystem : ProcessTreeProvider.Provider :=
  {| ProcessTreeProvider.snapshot := None;
     ProcessTreeProvider.showSystemProcesses := true;
     ProcessTreeProvider.showOtherUsers := false;
     ProcessTreeProvider.currentUser := "alice" |}.

Definition launchd : ProcessInfo := sampleProcess 1 0 "root" "launchd" "/sbin/launchd".

(** A [parseFloat] good enough for a sample line. *)
Definition sampleParseFloat (s : string) : float :=
  if String.eqb s "12.5" then 12.5%float else 0%float.

Definition frameworkA : ProcessInfo :=
  sampleProcess 10 1 "alice" "A" "/System/Library/Frameworks/A".
Definition frameworkB : ProcessInfo :=
  sampleProcess 11 1 "alice" "B" "/System/Library/Frameworks/B".
Definition usrBinC : ProcessInfo :=
  sampleProcess 12 1 "alice" "C" "/usr/bin/C".



End Samples.

(* ================================================================== *)
(** * Part II — properties                                            *)
(* ================================================================== *)

Module JSFacts.

Lemma app_String (c : ascii) (t s : string) :
  String c t +:+ s = String c (t +:+ s).
Proof. reflexivity. Qed.

Lemma app_empty_r (s : string) : s +:+ EmptyString = s.
Proof. induction s as [|c s IH]; [done|]. by rewrite app_String, IH. Qed.

Lemma app_assoc_str (a b c : string) : (a +:+ b) +:+ c = a +:+ (b +:+ c).
Proof. induction a as [|x a IH]; [done|]. by rewrite !app_String, IH. Qed.

Lemma strlen_app (a b : string) : JS.strlen (a +:+ b) = JS.strlen a + JS.strlen b.
Proof.
  unfold JS.strlen. induction a as [|x a IH]; [done|].
  rewrite app_String. cbn [String.length]. lia.
Qed.

Lemma strlen_nonneg (s : string) : 0 ≤ JS.strlen s.
Proof. unfold JS.strlen. lia. Qed.

Lemma allChars_app (P : ascii → bool) (a b : string) :
  JS.allChars P (a +:+ b) = (JS.allChars P a && JS.allChars P b)%bool.
Proof.
  induction a as [|x a IH]; [done|].
  rewrite app_String. cbn [JS.allChars]. by rewrite IH, andb_assoc.
Qed.

Lemma allChars_impl (P Q : ascii → bool) (s : string) :
  (∀ c, P c = true → Q c = true) → JS.allChars P s = true → JS.allChars Q s = true.
Proof.
  intros HPQ. induction s as [|c s IH]; [done|]. cbn [JS.allChars].
  intros [Hc Hs]%andb_true_iff. apply andb_true_iff. eauto.
Qed.

(** Trimming a string without white space changes nothing. *)
Lemma trim_id (s : string) :
  JS.allChars (λ c, negb (JS.isWhiteSpace c)) s = true → JS.trim s = s.
Proof.
  intros Hs. unfold JS.trim.
  assert (JS.trimStart s = s) as ->.
  { destruct s as [|c s]; [done|]. cbn [JS.allChars] in Hs. cbn [JS.trimStart].
    apply andb_true_iff in Hs as [Hc _]. by destruct (JS.isWhiteSpace c). }
  induction s as [|c s IH]; [done|]. cbn [JS.allChars] in Hs.
  apply andb_true_iff in Hs as [Hc Hs]. cbn [JS.trimEnd]. rewrite (IH Hs).
  destruct s; [|done]. by destruct (JS.isWhiteSpace c).
Qed.

Lemma indexOf_absent (c : ascii) (s : string) :
  JS.allChars (λ a, negb (Ascii.eqb a c)) s = true → JS.indexOf c s = -1.
Proof.
  induction s as [|a s IH]; [done|]. cbn [JS.allChars JS.indexOf].
  intros [Ha Hs]%andb_true_iff. destruct (Ascii.eqb a c); [done|].
  by rewrite (IH Hs).
Qed.

Lemma indexOf_first (c : ascii) (a r : string) :
  JS.allChars (λ x, negb (Ascii.eqb x c)) a = true →
  JS.indexOf c (a +:+ String c r) = JS.strlen a.
Proof.
  induction a as [|x a IH].
  - intros _. change (EmptyString +:+ String c r) with (String c r).
    cbn [JS.indexOf]. by rewrite Ascii.eqb_refl.
  - cbn [JS.allChars]. intros [Hx Ha]%andb_true_iff.
    rewrite app_String. cbn [JS.indexOf]. destruct (Ascii.eqb x c); [done|].
    rewrite (IH Ha). pose proof (strlen_nonneg a).
    destruct (Z.eqb_spec (JS.strlen a) (-1)); [lia|].
    unfold JS.strlen. cbn [String.length]. lia.
Qed.

Lemma substring_take (a r : string) :
  String.substring 0 (String.length a) (a +:+ r) = a.
Proof.
  induction a as [|x a IH]; [by destruct r|].
  rewrite app_String. cbn [String.length String.substring]. by rewrite IH.
Qed.

Lemma substring_drop (a r : string) :
  String.substring (String.length a) (String.length r) (a +:+ r) = r.
Proof.
  induction a as [|x a IH].
  - change (EmptyString +:+ r) with r. cbn [String.length].
    induction r as [|y r IH]; [done|].
    cbn [String.length String.substring]. by rewrite IH.
  - rewrite app_String. cbn [String.length String.substring]. apply IH.
Qed.

(** [s.substring(0, i)] up to the end of a prefix is that prefix. *)
Lemma substring_prefix (a r : string) :
  JS.substring (a +:+ r) 0 (JS.strlen a) = a.
Proof.
  unfold JS.substring. rewrite strlen_app.
  pose proof (strlen_nonneg a). pose proof (strlen_nonneg r).
  replace (Z.to_nat _) with 0%nat by lia.
  replace (Z.to_nat _) with (String.length a) by (unfold JS.strlen in *; lia).
  apply substring_take.
Qed.

(** [s.substring(i)] from just after a prefix and one character is the rest. *)
Lemma substringFrom_suffix (a : string) (c : ascii) (r : string) :
  JS.substringFrom (a +:+ String c r) (JS.strlen a + 1) = r.
Proof.
  unfold JS.substringFrom, JS.substring.
  replace (a +:+ String c r) with ((a +:+ String c EmptyString) +:+ r)
    by (by rewrite app_assoc_str).
  rewrite !strlen_app.
  pose proof (strlen_nonneg a). pose proof (strlen_nonneg r).
  change (JS.strlen (String c EmptyString)) with 1.
  replace (Z.to_nat (Z.min _ _)) with (String.length (a +:+ String c EmptyString)).
  2:{ pose proof (strlen_app a (String c EmptyString)) as H1.
      unfold JS.strlen in *. cbn [String.length] in *. lia. }
  replace (Z.to_nat _) with (String.length r) by (unfold JS.strlen in *; lia).
  apply substring_drop.
Qed.

Lemma splitOn_plain (sep : ascii → bool) (a : string) :
  JS.allChars (λ c, negb (sep c)) a = true → JS.splitOn sep a = [a].
Proof.
  induction a as [|c a IH]; [done|]. cbn [JS.allChars JS.splitOn].
  intros [Hc Ha]%andb_true_iff. destruct (sep c); [done|]. by rewrite (IH Ha).
Qed.

Lemma splitOn_app (sep : ascii → bool) (a : string) (c : ascii) (r : string) :
  JS.allChars (λ x, negb (sep x)) a = true → sep c = true →
  JS.splitOn sep (a +:+ String c r) = a :: JS.splitOn sep r.
Proof.
  intros Ha Hc. induction a as [|x a IH].
  - change (EmptyString +:+ String c r) with (String c r).
    cbn [JS.splitOn]. by rewrite Hc.
  - cbn [JS.allChars] in Ha. apply andb_true_iff in Ha as [Hx Ha].
    rewrite app_String. cbn [JS.splitOn]. destruct (sep x); [done|].
    by rewrite (IH Ha).
Qed.

End JSFacts.

Module ProcessModelSpec.
Import ProcessModel.

(** *** The elapsed-time parser on the four token forms *)

(** C6, as stated, fails on the days form: two days, three hours, four
    minutes and five seconds are 183845 seconds, not 187445. *)
Lemma parseEtime_days_form_not_187445 : parseEtime "2-03:04:05" ≠ 187445.
Proof. vm_compute. discriminate. Qed.

(** C6 (amended): [parseEtime] returns total whole seconds for the four
    token forms: "45" gives 45, "02:30" gives 150, "01:02:03" gives 3723,
    "2-03:04:05" gives 183845, and the malformed token "xx:05" gives 5 (the
    non-numeric component counts as 0). *)
Theorem parseEtime_token_forms :
  parseEtime "45" = 45 ∧
  parseEtime "02:30" = 150 ∧
  parseEtime "01:02:03" = 3723 ∧
  parseEtime "2-03:04:05" = 183845 ∧
  parseEtime "xx:05" = 5.
Proof. repeat split; reflexivity. Qed.

Lemma etimeChar_not_white (s : string) :
  JS.allChars isEtimeChar s = true →
  JS.allChars (λ c, negb (JS.isWhiteSpace c)) s = true.
Proof.
  apply JSFacts.allChars_impl. unfold isEtimeChar. intros c.
  by intros [[? ?]%andb_true_iff ?]%andb_true_iff.
Qed.

Lemma etimeChar_not_dash (s : string) :
  JS.allChars isEtimeChar s = true →
  JS.allChars (λ c, negb (Ascii.eqb c "-")) s = true.
Proof.
  apply JSFacts.allChars_impl. unfold isEtimeChar. intros c.
  by intros [[? ?]%andb_true_iff ?]%andb_true_iff.
Qed.

Lemma etimeChar_not_colon (s : string) :
  JS.allChars isEtimeChar s = true →
  JS.allChars (λ c, negb (Ascii.eqb c ":")) s = true.
Proof.
  apply JSFacts.allChars_impl. unfold isEtimeChar. intros c.
  by intros [[? ?]%andb_true_iff ?]%andb_true_iff.
Qed.

(** Without a dash the token is all clock. *)
Lemma parseEtime_clock (token : string) :
  JS.allChars (λ c, negb (JS.isWhiteSpace c)) token = true →
  JS.allChars (λ c, negb (Ascii.eqb c "-")) token = true →
  parseEtime token = clockSeconds token.
Proof.
  intros Hw Hd. unfold parseEtime, clockSeconds, component.
  rewrite (JSFacts.trim_id token Hw), (JSFacts.indexOf_absent "-" token Hd).
  rewrite Z.eqb_refl. cbn [negb].
  destruct (map _ _) as [|s1 [|s2 [|s3 [|s4 l]]]]; lia.
Qed.

(** Up to the first dash are the days. *)
Lemma parseEtime_days (dd rest : string) :
  JS.allChars (λ c, negb (JS.isWhiteSpace c)) (dd +:+ String "-" rest) = true →
  JS.allChars (λ c, negb (Ascii.eqb c "-")) dd = true →
  parseEtime (dd +:+ String "-" rest) = component dd * 86400 + clockSeconds rest.
Proof.
  intros Hw Hd. unfold parseEtime, clockSeconds, component.
  rewrite (JSFacts.trim_id _ Hw), (JSFacts.indexOf_first "-" dd rest Hd).
  pose proof (JSFacts.strlen_nonneg dd).
  destruct (Z.eqb_spec (JS.strlen dd) (-1)) as [?|_]; [lia|]. cbn [negb].
  rewrite JSFacts.substring_prefix, JSFacts.substringFrom_suffix.
  destruct (map _ _) as [|s1 [|s2 [|s3 [|s4 l]]]]; lia.
Qed.

(** X4: the value of [parseEtime] on each of the four token forms, for
    components of any characters but white space, dash and colon (empty
    components included): every component counts as [parseInt(p, 10) || 0],
    so a component that does not start with a number counts as 0. *)
Theorem parseEtime_by_form (dd hh mm ss : string) :
  JS.allChars isEtimeChar dd = true →
  JS.allChars isEtimeChar hh = true →
  JS.allChars isEtimeChar mm = true →
  JS.allChars isEtimeChar ss = true →
  parseEtime ss = component ss
  ∧ parseEtime (mm +:+ ":" +:+ ss) = component mm * 60 + component ss
  ∧ parseEtime (hh +:+ ":" +:+ mm +:+ ":" +:+ ss)
    = component hh * 3600 + component mm * 60 + component ss
  ∧ parseEtime (dd +:+ "-" +:+ hh +:+ ":" +:+ mm +:+ ":" +:+ ss)
    = component dd * 86400 + component hh * 3600 + component mm * 60 + component ss.
Proof.
  intros Hd Hh Hm Hs.
  pose proof (etimeChar_not_white _ Hd). pose proof (etimeChar_not_white _ Hh).
  pose proof (etimeChar_not_white _ Hm). pose proof (etimeChar_not_white _ Hs).
  pose proof (etimeChar_not_dash _ Hd). pose proof (etimeChar_not_dash _ Hh).
  pose proof (etimeChar_not_dash _ Hm). pose proof (etimeChar_not_dash _ Hs).
  pose proof (etimeChar_not_colon _ Hh) as Hh'.
  pose proof (etimeChar_not_colon _ Hm) as Hm'.
  pose proof (etimeChar_not_colon _ Hs) as Hs'.
  change (":" +:+ ss) with (String ":" ss).
  change (":" +:+ mm +:+ String ":" ss) with (String ":" (mm +:+ String ":" ss)).
  change ("-" +:+ hh +:+ String ":" (mm +:+ String ":" ss))
    with (String "-" (hh +:+ String ":" (mm +:+ String ":" ss))).
  assert (clockSeconds ss = component ss) as Hc1.
  { unfold clockSeconds. by rewrite JSFacts.splitOn_plain. }
  assert (clockSeconds (mm +:+ String ":" ss) = component mm * 60 + component ss) as Hc2.
  { unfold clockSeconds.
    by rewrite JSFacts.splitOn_app, JSFacts.splitOn_plain. }
  assert (clockSeconds (hh +:+ String ":" (mm +:+ String ":" ss))
          = component hh * 3600 + component mm * 60 + component ss) as Hc3.
  { unfold clockSeconds.
    by rewrite !JSFacts.splitOn_app, JSFacts.splitOn_plain. }
  repeat split.
  - by rewrite parseEtime_clock.
  - rewrite parseEtime_clock; [done|..];
      rewrite JSFacts.allChars_app; cbn [JS.allChars]; by rewrite ?andb_true_iff.
  - rewrite parseEtime_clock; [done|..];
      rewrite !JSFacts.allChars_app; cbn [JS.allChars];
      rewrite ?JSFacts.allChars_app; cbn [JS.allChars]; by rewrite ?andb_true_iff.
  - rewrite parseEtime_days; [lia| |done].
    rewrite !JSFacts.allChars_app; cbn [JS.allChars];
      rewrite ?JSFacts.allChars_app; cbn [JS.allChars];
      rewrite ?JSFacts.allChars_app; cbn [JS.allChars]. by rewrite ?andb_true_iff.
Qed.

Lemma parseEtime_by_form_sample :
  JS.allChars isEtimeChar "2" = true
  ∧ JS.allChars isEtimeChar "xx" = true
  ∧ JS.allChars isEtimeChar "04" = true
  ∧ JS.allChars isEtimeChar "" = true
  ∧ parseEtime "" = component ""
  ∧ parseEtime ("04" +:+ ":" +:+ "") = component "04" * 60 + component ""
  ∧ parseEtime ("xx" +:+ ":" +:+ "04" +:+ ":" +:+ "")
    = component "xx" * 3600 + component "04" * 60 + component ""
  ∧ parseEtime ("2" +:+ "-" +:+ "xx" +:+ ":" +:+ "04" +:+ ":" +:+ "")
    = component "2" * 86400 + component "xx" * 3600 + component "04" * 60 + component "".
Proof.
  do 4 (split; [reflexivity|]).
  exact (parseEtime_by_form "2" "xx" "04" "" eq_refl eq_refl eq_refl eq_refl).
Defined.

Lemma splitOn_nonempty (sep : ascii → bool) (s : string) : JS.splitOn sep s ≠ [].
Proof.
  induction s as [|c s IH]; [done|]. cbn [JS.splitOn].
  destruct (sep c); [done|]. by destruct (JS.splitOn sep s).
Qed.

(** X5: a token without a dash that has more than three colon-separated
    components parses to 0: no component is used, not even the last
    three.  Here [a], [b], [c] are the first three components and [more]
    is everything after the third colon. *)
Theorem parseEtime_too_many_components (a b c more : string) :
  JS.allChars isEtimeChar a = true →
  JS.allChars isEtimeChar b = true →
  JS.allChars isEtimeChar c = true →
  JS.allChars (λ x, negb (JS.isWhiteSpace x) && negb (Ascii.eqb x "-")) more = true →
  parseEtime (a +:+ ":" +:+ b +:+ ":" +:+ c +:+ ":" +:+ more) = 0.
Proof.
  intros Ha Hb Hc Hmore.
  change (":" +:+ more) with (String ":" more).
  change (":" +:+ c +:+ String ":" more) with (String ":" (c +:+ String ":" more)).
  change (":" +:+ b +:+ String ":" (c +:+ String ":" more))
    with (String ":" (b +:+ String ":" (c +:+ String ":" more))).
  assert (JS.allChars (λ x, negb (JS.isWhiteSpace x)) more = true) as Hw.
  { revert Hmore. apply JSFacts.allChars_impl. by intros x [? ?]%andb_true_iff. }
  assert (JS.allChars (λ x, negb (Ascii.eqb x "-")) more = true) as Hd.
  { revert Hmore. apply JSFacts.allChars_impl. by intros x [? ?]%andb_true_iff. }
  pose proof (etimeChar_not_white _ Ha). pose proof (etimeChar_not_white _ Hb).
  pose proof (etimeChar_not_white _ Hc).
  pose proof (etimeChar_not_dash _ Ha). pose proof (etimeChar_not_dash _ Hb).
  pose proof (etimeChar_not_dash _ Hc).
  rewrite parseEtime_clock.
  - unfold clockSeconds.
    rewrite !JSFacts.splitOn_app by (done || by apply etimeChar_not_colon).
    pose proof (splitOn_nonempty (Ascii.eqb ":") more).
    by destruct (JS.splitOn _ more).
  - rewrite !JSFacts.allChars_app; cbn [JS.allChars];
      rewrite ?JSFacts.allChars_app; cbn [JS.allChars];
      rewrite ?JSFacts.allChars_app; cbn [JS.allChars]. by rewrite ?andb_true_iff.
  - rewrite !JSFacts.allChars_app; cbn [JS.allChars];
      rewrite ?JSFacts.allChars_app; cbn [JS.allChars];
      rewrite ?JSFacts.allChars_app; cbn [JS.allChars]. by rewrite ?andb_true_iff.
Qed.

Lemma parseEtime_too_many_components_sample :
  JS.allChars isEtimeChar "1" = true
  ∧ JS.allChars isEtimeChar "02" = true
  ∧ JS.allChars isEtimeChar "03" = true
  ∧ JS.allChars (λ x, negb (JS.isWhiteSpace x) && negb (Ascii.eqb x "-")) "04:05" = true
  ∧ parseEtime ("1" +:+ ":" +:+ "02" +:+ ":" +:+ "03" +:+ ":" +:+ "04:05") = 0.
Proof.
  do 4 (split; [reflexivity|]).
  exact (parseEtime_too_many_components "1" "02" "03" "04:05"
           eq_refl eq_refl eq_refl eq_refl).
Defined.

(** *** Diffing snapshots *)

Lemma carried_app t (es1 es2 : list ProcessEvent) :
  carried t (es1 ++ es2) = carried t es1 ++ carried t es2.
Proof. unfold carried. by rewrite filter_app, map_app. Qed.

Lemma carried_removed_of_removed (snap : ProcessSnapshot) (procs : list ProcessInfo) :
  carried Removed (concat (map (removed snap) procs)) = missingFrom snap procs.
Proof.
  induction procs as [|p procs IH]; [done|].
  cbn [map concat]. rewrite carried_app, IH.
  unfold missingFrom. rewrite filter_cons. unfold removed.
  case_bool_decide as Hp; case_decide as Hq; try done.
  - destruct Hp as [x Hx]. congruence.
  - destruct Hp. by apply not_eq_None_Some.
Qed.

Lemma carried_added_of_removed (snap : ProcessSnapshot) (procs : list ProcessInfo) :
  carried Added (concat (map (removed snap) procs)) = [].
Proof.
  induction procs as [|p procs IH]; [done|].
  cbn [map concat]. rewrite carried_app, IH.
  unfold removed. by case_bool_decide.
Qed.

Lemma carried_removed_of_addedOrUpdated (snap : ProcessSnapshot) (procs : list ProcessInfo) :
  carried Removed (concat (map (addedOrUpdated snap) procs)) = [].
Proof.
  induction procs as [|p procs IH]; [done|].
  cbn [map concat]. rewrite carried_app, IH.
  unfold addedOrUpdated. destruct (byPid snap !! pid p); [|done].
  by destruct (_ || _ || _)%bool.
Qed.

Lemma carried_added_of_addedOrUpdated (snap : ProcessSnapshot) (procs : list ProcessInfo) :
  carried Added (concat (map (addedOrUpdated snap) procs)) = missingFrom snap procs.
Proof.
  induction procs as [|p procs IH]; [done|].
  cbn [map concat]. rewrite carried_app, IH.
  unfold missingFrom. rewrite filter_cons. unfold addedOrUpdated.
  destruct (byPid snap !! pid p) eqn:Hp; case_decide; try done.
  by destruct (_ || _ || _)%bool.
Qed.

Lemma removed_side (a b : ProcessSnapshot) :
  carried Removed (diffSnapshots (Some a) b) = missingFrom b (processes a).
Proof.
  cbn [diffSnapshots]. rewrite carried_app.
  by rewrite carried_removed_of_addedOrUpdated, carried_removed_of_removed.
Qed.

Lemma added_side (b a : ProcessSnapshot) :
  carried Added (diffSnapshots (Some b) a) = missingFrom b (processes a).
Proof.
  cbn [diffSnapshots]. rewrite carried_app.
  by rewrite carried_added_of_addedOrUpdated, carried_added_of_removed, app_nil_r.
Qed.

Lemma filter_all {A} (P : A → Prop) `{!∀ x, Decision (P x)} (l : list A) :
  Forall P l → filter P l = l.
Proof.
  induction 1 as [|x l Hx _ IH]; [done|]. by rewrite filter_cons_True, IH.
Qed.

(** The by-pid index built by [buildSnapshot] knows exactly the pids of the
    records. *)
Lemma fold_indexProcess_byPid (procs : list ProcessInfo) acc :
  dom (fold_left indexProcess procs acc).1.1
  = dom acc.1.1 ∪ list_to_set (map pid procs).
Proof.
  revert acc. induction procs as [|p procs IH]; intros [[m c] g]; cbn.
  - set_solver.
  - rewrite IH. cbn. rewrite dom_insert_L. set_solver.
Qed.

Lemma buildSnapshot_processes now procs : processes (buildSnapshot now procs) = procs.
Proof. unfold buildSnapshot. by destruct (fold_left _ _ _) as [[? ?] ?]. Qed.

Lemma buildSnapshot_byPid_dom now procs :
  dom (byPid (buildSnapshot now procs)) = pidSet (buildSnapshot now procs).
Proof.
  unfold pidSet. rewrite buildSnapshot_processes.
  pose proof (fold_indexProcess_byPid procs (∅, ∅, ∅)) as H.
  unfold buildSnapshot. destruct (fold_left _ _ _) as [[m c] g]. cbn in *.
  rewrite H. set_solver.
Qed.

(** C7: diffing [undefined] against a snapshot yields exactly one Added
    event for each record of the snapshot, in order, as many events as there
    are records, and no Removed or Updated event. *)
Theorem diff_undefined_all_added (snap : ProcessSnapshot) :
  map process (diffSnapshots None snap) = processes snap
  ∧ length (diffSnapshots None snap) = length (processes snap)
  ∧ Forall (λ e, type e = Added ∧ previous e = None) (diffSnapshots None snap)
  ∧ carried Removed (diffSnapshots None snap) = []
  ∧ carried Updated (diffSnapshots None snap) = [].
Proof.
  cbn [diffSnapshots]. generalize (processes snap) as procs.
  intros procs. repeat split.
  - rewrite map_map. cbn. apply map_id.
  - apply length_map.
  - apply Forall_map, Forall_true. by intros.
  - induction procs; [done|]. unfold carried in *. by rewrite map_cons, filter_cons_False.
  - induction procs; [done|]. unfold carried in *. by rewrite map_cons, filter_cons_False.
Qed.

(** C8: for any two snapshots, the processes carried by the Removed events
    of the diff from [a] to [b] are the processes carried by the Added
    events of the diff from [b] to [a] (the same records in the same order),
    hence also after restricting both to the pids of the symmetric
    difference; and for snapshots made by [buildSnapshot] the restriction
    drops nothing, every such pid being in the symmetric difference. *)
Theorem removed_forward_is_added_backward (a b : ProcessSnapshot) :
  carried Removed (diffSnapshots (Some a) b) = carried Added (diffSnapshots (Some b) a)
  ∧ restrictedTo (symmetricDifference a b) (carried Removed (diffSnapshots (Some a) b))
    = restrictedTo (symmetricDifference a b) (carried Added (diffSnapshots (Some b) a))
  ∧ ∀ now now' procs procs',
      let a' := buildSnapshot now procs in
      let b' := buildSnapshot now' procs' in
      restrictedTo (symmetricDifference a' b')
                   (carried Removed (diffSnapshots (Some a') b'))
      = carried Removed (diffSnapshots (Some a') b').
Proof.
  rewrite removed_side, added_side. split; [done|]. split; [done|].
  intros now now' procs procs' a' b'. subst a' b'. rewrite removed_side.
  unfold restrictedTo, missingFrom. apply filter_all, Forall_forall.
  intros p [Hnone Hp]%list_elem_of_filter.
  rewrite buildSnapshot_processes in Hp.
  unfold symmetricDifference. apply elem_of_union_l, elem_of_difference. split.
  - unfold pidSet. rewrite buildSnapshot_processes.
    apply elem_of_list_to_set, list_elem_of_fmap. eauto.
  - rewrite <- buildSnapshot_byPid_dom. by apply not_elem_of_dom.
Qed.

(** *** The indexes of a snapshot *)

Lemma fold_indexProcess_lookup (procs : list ProcessInfo) acc (k : Z) :
  (fold_left indexProcess procs acc).1.1 !! k
  = match last (filter (λ p, pid p = k) procs) with
    | Some p => Some p
    | None => acc.1.1 !! k
    end.
Proof.
  revert acc. induction procs as [|p procs IH]; intros [[m c] g]; [done|].
  cbn [fold_left]. rewrite IH. cbn [indexProcess fst snd]. rewrite filter_cons.
  case_decide as Hk.
  - rewrite last_cons. destruct (last _); [done|]. subst k. apply lookup_insert_eq.
  - destruct (last _); [done|]. by apply lookup_insert_ne.
Qed.

(** X1: the by-pid index of [buildSnapshot] maps a pid to the last record
    of the list with that pid, and to nothing when no record has it. *)
Theorem buildSnapshot_byPid_lookup (now : Z) (procs : list ProcessInfo) (k : Z) :
  byPid (buildSnapshot now procs) !! k = last (filter (λ p, pid p = k) procs).
Proof.
  pose proof (fold_indexProcess_lookup procs (∅, ∅, ∅) k) as H.
  unfold buildSnapshot. destruct (fold_left _ _ _) as [[m c] g]. cbn in *.
  rewrite H. by destruct (last _).
Qed.

Lemma pushAt_lookup (k v j : Z) (m : gmap Z (list Z)) :
  default [] (pushAt k v m !! j)
  = default [] (m !! j) ++ (if decide (k = j) then [v] else []).
Proof.
  unfold pushAt. destruct (m !! k) as [members|] eqn:Hk.
  - rewrite lookup_insert. case_decide as Hj.
    + subst j. by rewrite Hk.
    + by rewrite app_nil_r.
  - rewrite lookup_insert. case_decide as Hj.
    + subst j. by rewrite Hk.
    + by rewrite app_nil_r.
Qed.

Lemma pushAt_nonempty (k v : Z) (m : gmap Z (list Z)) :
  (∀ j l, m !! j = Some l → l ≠ []) →
  ∀ j l, pushAt k v m !! j = Some l → l ≠ [].
Proof.
  intros Hm j l. unfold pushAt. destruct (m !! k) as [members|] eqn:Hk.
  - rewrite lookup_insert. case_decide; [|by apply Hm].
    intros [= <-]. by destruct members.
  - rewrite lookup_insert. case_decide; [|by apply Hm]. by intros [= <-].
Qed.

Lemma fold_indexProcess_groups (procs : list ProcessInfo) acc (k : Z) :
  default [] ((fold_left indexProcess procs acc).1.2 !! k)
  = default [] (acc.1.2 !! k) ++ map pid (filter (λ p, ppid p = k) procs)
  ∧ default [] ((fold_left indexProcess procs acc).2 !! k)
    = default [] (acc.2 !! k) ++ map pid (filter (λ p, pgid p = k) procs).
Proof.
  revert acc. induction procs as [|p procs IH]; intros [[m c] g].
  - cbn. by rewrite !app_nil_r.
  - cbn [fold_left]. destruct (IH (indexProcess (m, c, g) p)) as [-> ->].
    cbn [indexProcess fst snd]. rewrite !pushAt_lookup, !filter_cons.
    split; case_decide; cbn [map]; by rewrite <- ?app_assoc, ?app_nil_r.
Qed.

Lemma fold_indexProcess_nonempty (procs : list ProcessInfo) acc :
  (∀ j l, acc.1.2 !! j = Some l → l ≠ []) →
  (∀ j l, acc.2 !! j = Some l → l ≠ []) →
  (∀ j l, (fold_left indexProcess procs acc).1.2 !! j = Some l → l ≠ [])
  ∧ (∀ j l, (fold_left indexProcess procs acc).2 !! j = Some l → l ≠ []).
Proof.
  revert acc. induction procs as [|p procs IH]; intros [[m c] g] Hc Hg; [done|].
  cbn [fold_left]. apply IH; cbn in *; by apply pushAt_nonempty.
Qed.

(** X2: in a snapshot made by [buildSnapshot], the children listed for a
    pid are the pids of the records naming it as parent, in listing order;
    the members listed for a group id are the pids of the records of that
    group, in listing order; and neither index holds an empty list. *)
Theorem buildSnapshot_groups (now : Z) (procs : list ProcessInfo) (k : Z) :
  let snap := buildSnapshot now procs in
  default [] (childrenByPpid snap !! k) = map pid (filter (λ p, ppid p = k) procs)
  ∧ default [] (pidsByPgid snap !! k) = map pid (filter (λ p, pgid p = k) procs)
  ∧ childrenByPpid snap !! k ≠ Some []
  ∧ pidsByPgid snap !! k ≠ Some [].
Proof.
  pose proof (fold_indexProcess_groups procs (∅, ∅, ∅) k) as [Hc Hg].
  destruct (fold_indexProcess_nonempty procs (∅, ∅, ∅)) as [Hc' Hg']; [done..|].
  unfold buildSnapshot. destruct (fold_left _ _ _) as [[m c] g]. cbn in *.
  rewrite Hc, Hg. repeat split; try done.
  - intros H. by apply Hc' in H.
  - intros H. by apply Hg' in H.
Qed.

Lemma filter_pid_absent (procs : list ProcessInfo) (k : Z) :
  k ∉ map pid procs → filter (λ r, pid r = k) procs = [].
Proof.
  induction procs as [|r procs IH]; [done|]. cbn [map].
  intros [Hr Hk]%not_elem_of_cons. rewrite filter_cons_False by done. by apply IH.
Qed.

Lemma last_filter_NoDup (procs : list ProcessInfo) (p : ProcessInfo) :
  NoDup (map pid procs) → p ∈ procs →
  last (filter (λ r, pid r = pid p) procs) = Some p.
Proof.
  induction procs as [|q procs IH]; [by intros _ ?%elem_of_nil|].
  cbn [map]. intros [Hq Hnd]%NoDup_cons [->|Hp]%elem_of_cons.
  - rewrite filter_cons_True, last_cons by done.
    by rewrite (filter_pid_absent procs (pid q) Hq).
  - rewrite filter_cons_False; [by apply IH|].
    intros Hpid. apply Hq. rewrite Hpid. apply list_elem_of_fmap. eauto.
Qed.

Lemma concat_map_nil {A B} (f : A → list B) (l : list A) :
  (∀ x, x ∈ l → f x = []) → concat (map f l) = [].
Proof.
  induction l as [|x l IH]; intros H; [done|]. cbn.
  rewrite H by (apply elem_of_cons; by left).
  apply IH. intros y Hy. apply H, elem_of_cons. by right.
Qed.

Lemma addedOrUpdated_same_metrics (now : Z) (procs : list ProcessInfo)
    (p p' : ProcessInfo) :
  NoDup (map pid procs) → p ∈ procs → sameMetrics p p' →
  addedOrUpdated (buildSnapshot now procs) p' = [].
Proof.
  intros Hnd Hp (Hpid & Hcpu & Hrss & Het).
  unfold addedOrUpdated. rewrite buildSnapshot_byPid_lookup, <- Hpid.
  rewrite (last_filter_NoDup procs p Hnd Hp).
  by rewrite Hcpu, Hrss, Het, Z.eqb_refl, String.eqb_refl.
Qed.

Lemma removed_known_pid (now : Z) (procs : list ProcessInfo) (p : ProcessInfo) :
  pid p ∈ map pid procs → removed (buildSnapshot now procs) p = [].
Proof.
  intros Hp. unfold removed. rewrite bool_decide_eq_true_2; [done|].
  apply elem_of_dom. rewrite buildSnapshot_byPid_dom. unfold pidSet.
  rewrite buildSnapshot_processes. by apply elem_of_list_to_set.
Qed.

(** X3: two listings whose records agree, position by position, on pid,
    cpu, resident set size and elapsed time, and whose pids are distinct,
    diff to no event at all, whatever else differs between the records
    (owner, parent, group, command). *)
Theorem diff_of_same_metrics_is_empty (now now' : Z) (procs procs' : list ProcessInfo) :
  NoDup (map pid procs) →
  Forall2 sameMetrics procs procs' →
  diffSnapshots (Some (buildSnapshot now procs)) (buildSnapshot now' procs') = [].
Proof.
  intros Hnd Hsame. cbn [diffSnapshots]. rewrite !buildSnapshot_processes.
  assert (map pid procs' = map pid procs) as Hpids.
  { clear Hnd. induction Hsame as [|p p' l l' (Hp & _) _ IH]; [done|].
    cbn. by rewrite IH, Hp. }
  rewrite !concat_map_nil; [done|..].
  - intros p Hp. apply removed_known_pid. rewrite Hpids.
    apply list_elem_of_fmap. eauto.
  - intros p' Hp'. apply list_elem_of_lookup in Hp' as [i Hi].
    destruct (Forall2_lookup_r _ _ _ _ _ Hsame Hi) as (p & Hp & Hmetrics).
    apply (addedOrUpdated_same_metrics now procs p p' Hnd); [|done].
    by eapply list_elem_of_lookup_2.
Qed.

Lemma diff_of_same_metrics_sample :
  let old := [Samples.sampleProcess 7 1 "alice" "node" "/usr/bin/node a.js"] in
  let new := [Samples.sampleProcess 7 2 "bob" "nodejs" "/usr/bin/node b.js"] in
  NoDup (map pid old)
  ∧ Forall2 sameMetrics old new
  ∧ diffSnapshots (Some (buildSnapshot 0 old)) (buildSnapshot 1 new) = [].
Proof.
  assert (NoDup (map pid [Samples.sampleProcess 7 1 "alice" "node" "/usr/bin/node a.js"]))
    as Hnd by (cbn; apply NoDup_singleton).
  assert (Forall2 sameMetrics
            [Samples.sampleProcess 7 1 "alice" "node" "/usr/bin/node a.js"]
            [Samples.sampleProcess 7 2 "bob" "nodejs" "/usr/bin/node b.js"]) as Hsame
    by (repeat constructor).
  split; [exact Hnd|]. split; [exact Hsame|].
  exact (diff_of_same_metrics_is_empty 0 1 _ _ Hnd Hsame).
Defined.

End ProcessModelSpec.

Module ProcessControllerSpec.
Import ProcessController.

(** *** Single signals *)

Lemma benign_classify (r : KillResult) :
  benign r = match classify r with
             | Succeeded | NoSuchProcess => true
             | NotPermitted | OtherFailure => false
             end.
Proof.
  destruct r as [|msg]; cbn; [done|].
  destruct (JS.includes msg "ESRCH"); [done|]. by destruct (JS.includes msg "EPERM").
Qed.

(** Case analysis along the branches of the [catch] block. *)
Ltac case_outcome :=
  unfold sendSignal, sendSignalToGroup, signalAndReport;
  match goal with
  | |- context [match ?os ?before ?call with Delivered => _ | Throws _ => _ end] =>
      let msg := fresh "msg" in
      destruct (os before call) as [|msg]; cbn;
      [|destruct (JS.includes msg "ESRCH"); [|destruct (JS.includes msg "EPERM")]]
  end.

Lemma sendSignal_result (os : OS) (pid : Z) (sig : Signal) (w : World) :
  (sendSignal os pid sig w).1 = benign (os (calls w) {| target := pid; signal := sig |}).
Proof. case_outcome; try done. all: by destruct (JS.includes _ _). Qed.

Lemma sendSignal_calls (os : OS) (pid : Z) (sig : Signal) (w : World) :
  calls (sendSignal os pid sig w).2 = calls w ++ [ {| target := pid; signal := sig |} ].
Proof. by case_outcome. Qed.

(** C3: with confirmation disabled, [terminatePid] and [forceKillPid] make
    exactly one call of [process.kill] (SIGTERM, respectively SIGKILL, to
    the pid) and return true when that call succeeds or fails with a "no
    such process" (ESRCH) error, and false when it fails with "permission
    denied" (EPERM) or any other error. *)
Theorem single_pid_kill_result (os : OS) (pid : Z) (answer : option string) (w : World) :
  let term := {| target := pid; signal := SIGTERM |} in
  let kill := {| target := pid; signal := SIGKILL |} in
  (terminatePid os pid false answer w).1
    = match classify (os (calls w) term) with
      | Succeeded | NoSuchProcess => true
      | NotPermitted | OtherFailure => false
      end
  ∧ calls (terminatePid os pid false answer w).2 = calls w ++ [term]
  ∧ (forceKillPid os pid false answer w).1
    = match classify (os (calls w) kill) with
      | Succeeded | NoSuchProcess => true
      | NotPermitted | OtherFailure => false
      end
  ∧ calls (forceKillPid os pid false answer w).2 = calls w ++ [kill].
Proof.
  intros term kill. unfold terminatePid, forceKillPid, confirmed.
  rewrite !sendSignal_result, !sendSignal_calls, <- !benign_classify. done.
Qed.

(** The messages that Node gives to the two errors. *)
Example classify_node_messages :
  classify (Throws "kill ESRCH") = NoSuchProcess
  ∧ classify (Throws "kill EPERM") = NotPermitted
  ∧ classify (Throws "kill EINVAL") = OtherFailure.
Proof. by vm_compute. Qed.

(** *** The descendant traversal *)

Section Traversal.
Variable index : gmap Z (list Z).

(** Every child listed anywhere in the index. *)
Lemma parentOf_listed (p c : Z) :
  parentOf index p c → c ∈ concat (map snd (map_to_list index)).
Proof.
  unfold parentOf, childrenOf. destruct (index !! p) as [l|] eqn:Hp; cbn.
  - intros Hc. apply list_elem_of_In, in_concat. exists l. split.
    + apply in_map_iff. exists (p, l). split; [done|].
      by apply list_elem_of_In, elem_of_map_to_list.
    + by apply list_elem_of_In.
  - by intros ?%elem_of_nil.
Qed.

Lemma descendantOf_listed (p d : Z) :
  descendantOf index p d → d ∈ concat (map snd (map_to_list index)).
Proof. induction 1; eauto using parentOf_listed. Qed.

(** On a finite index, acyclic parent links are well founded. *)
Lemma acyclic_sn (p : Z) : acyclic index → sn (parentOf index) p.
Proof.
  intros Hacyc. apply tc_finite_sn.
  - intros x Hx. exact (Hacyc x Hx).
  - eexists. intros d Hd. exact (descendantOf_listed p d Hd).
Qed.

Lemma descendantOf_inv (p d : Z) :
  descendantOf index p d ↔
  parentOf index p d ∨ ∃ c, parentOf index p c ∧ descendantOf index c d.
Proof.
  split.
  - inversion 1; subst; eauto.
  - intros [?|(c & ? & ?)]; [by apply tc_once|by eapply tc_l].
Qed.

Lemma childrenAfter_app (ds1 ds2 : list Z) :
  childrenAfter index ds1 → childrenAfter index ds2 → childrenAfter index (ds1 ++ ds2).
Proof.
  intros H1 H2 l1 q l2 c Heq Hc.
  apply app_eq_inv in Heq as [(k & -> & Heq)|(k & -> & ->)].
  - destruct k as [|x k]; cbn in Heq.
    + subst ds2. by eapply (H2 []).
    + injection Heq as <- ->. apply elem_of_app. left. by eapply H1.
  - by eapply H2.
Qed.

Lemma unwindsAll_cons (p : Z) (ps : list Z) n ds m es :
  unwinds index p n ds → unwindsAll index ps m es →
  unwindsAll index (p :: ps) (n + m) (ds ++ es).
Proof.
  intros (Hrun & Hmem & Hord) (Hrun' & Hmem' & Hord'). split; [|split].
  - intros fuel stack result. cbn [app].
    rewrite <- Nat.add_assoc, Hrun, Hrun'. by rewrite app_assoc.
  - intros d. rewrite elem_of_app, Hmem, Hmem'. split.
    + intros [?|(q & ? & ?)]; [exists p|exists q]; split; try done.
      * apply elem_of_cons; by left.
      * apply elem_of_cons; by right.
    + intros (q & [->|?]%elem_of_cons & ?); eauto.
  - by apply childrenAfter_app.
Qed.

Lemma unwindsAll_of_each (ps : list Z) :
  Forall (λ p, ∃ n ds, unwinds index p n ds) ps → ∃ n ds, unwindsAll index ps n ds.
Proof.
  induction 1 as [|p ps (n & ds & Hp) _ (m & es & Hps)].
  - exists 0%nat, []. split; [|split].
    + intros. by rewrite app_nil_r.
    + intros d. split; [by intros ?%elem_of_nil|].
      by intros (p & ?%elem_of_nil & _).
    + intros [|??] ????; discriminate.
  - exists (n + m)%nat, (ds ++ es). by apply unwindsAll_cons.
Qed.

(** Below a well-founded pid the loop unwinds. *)
Lemma sn_unwinds (p : Z) : sn (parentOf index) p → ∃ n ds, unwinds index p n ds.
Proof.
  induction 1 as [p _ IH]. cbn in IH.
  destruct (unwindsAll_of_each (reverse (childrenOf index p)))
    as (n & ds & Hrun & Hmem & Hord).
  { apply Forall_forall. intros c Hc. rewrite elem_of_reverse in Hc. apply IH. exact Hc. }
  exists (S n), (childrenOf index p ++ ds). split; [|split].
  - intros fuel stack result. cbn [Nat.add descend].
    by rewrite Hrun, app_assoc.
  - intros d. rewrite elem_of_app, Hmem, descendantOf_inv. unfold parentOf.
    split.
    + intros [?|(c & Hc & ?)]; [by left|right].
      rewrite elem_of_reverse in Hc. eauto.
    + intros [?|(c & Hc & ?)]; [by left|right]. exists c.
      by rewrite elem_of_reverse.
  - intros l1 q l2 c Heq Hc.
    apply app_eq_inv in Heq as [(k & Hch & Heq)|(k & -> & ->)].
    + destruct k as [|x k]; cbn in Heq.
      * subst ds. by eapply (Hord []).
      * injection Heq as <- ->. apply elem_of_app. right.
        apply Hmem. exists q. split; [|by apply tc_once].
        apply elem_of_reverse. rewrite Hch. apply elem_of_app. right.
        apply elem_of_cons. by left.
    + by eapply Hord.
Qed.

(** The traversal from a single pid returns once the fuel suffices. *)
Lemma descend_returns (pid : Z) n ds :
  unwinds index pid n ds →
  ∀ fuel, (S n ≤ fuel)%nat → descend fuel index [pid] [] = Some ds.
Proof.
  intros (Hrun & _) fuel Hfuel.
  replace fuel with (n + S (fuel - S n))%nat by lia.
  by rewrite Hrun.
Qed.

End Traversal.

Lemma rankedBy_acyclic (rank : Z → Z) (index : gmap Z (list Z)) :
  rankedBy rank index = true → acyclic index.
Proof.
  intros Hr.
  assert (∀ p c, parentOf index p c → rank c < rank p) as Hstep.
  { intros p c. unfold parentOf, childrenOf.
    destruct (index !! p) as [l|] eqn:Hp; cbn; [|by intros ?%elem_of_nil].
    intros Hc. unfold rankedBy in Hr. rewrite forallb_forall in Hr.
    specialize (Hr (p, l)). cbn in Hr. rewrite forallb_forall in Hr.
    apply Z.ltb_lt, Hr.
    - by apply list_elem_of_In, elem_of_map_to_list.
    - by apply list_elem_of_In. }
  assert (∀ p c, descendantOf index p c → rank c < rank p) as Htc.
  { induction 1 as [p c H|p c d H _ IH]; [by apply Hstep|].
    apply Hstep in H. lia. }
  intros p Hp. apply Htc in Hp. lia.
Qed.

(** *** The signalling loop *)

Lemma outcomes_app (os : OS) (before new1 new2 : list KillCall) :
  outcomes os before (new1 ++ new2)
  = outcomes os before new1 ++ outcomes os (before ++ new1) new2.
Proof.
  revert before. induction new1 as [|c new1 IH]; intros before; cbn.
  - by rewrite app_nil_r.
  - by rewrite IH, <- app_assoc.
Qed.

Lemma signalEach_spec (os : OS) (pids : list Z) (allOk : bool) (w : World) :
  (signalEach os pids allOk w).1
  = (allOk && forallb benign (outcomes os (calls w) (termCalls pids)))%bool
  ∧ calls (signalEach os pids allOk w).2 = calls w ++ termCalls pids.
Proof.
  revert allOk w. induction pids as [|p pids IH]; intros allOk w; cbn.
  - by rewrite andb_true_r, app_nil_r.
  - pose proof (sendSignal_result os p SIGTERM w) as Hok.
    pose proof (sendSignal_calls os p SIGTERM w) as Hcalls.
    destruct (sendSignal os p SIGTERM w) as [ok w1]. cbn in Hok, Hcalls.
    destruct (IH (if ok then allOk else false) w1) as [-> ->].
    rewrite Hcalls, <- Hok, <- app_assoc. split; [|done].
    by destruct ok, allOk.
Qed.

(** With confirmation disabled, [terminateSubtree] signals the reversed
    descendants and then the pid, and reports whether every outcome was
    benign. *)
Lemma terminateSubtree_run (fuel : nat) (os : OS) (pid : Z)
    (snap : ProcessModel.ProcessSnapshot) (answer : option string) (w : World)
    (ds : list Z) :
  getDescendants fuel pid snap = Some ds →
  ∃ w', terminateSubtree fuel os pid snap false answer w
        = Some (forallb benign (outcomes os (calls w) (termCalls (reverse ds ++ [pid]))),
                w')
        ∧ calls w' = calls w ++ termCalls (reverse ds ++ [pid]).
Proof.
  intros Hds. unfold terminateSubtree, confirmed. rewrite Hds.
  destruct (signalEach_spec os (reverse ds) true w) as [Hall Hcalls].
  destruct (signalEach os (reverse ds) true w) as [allOk w2]. cbn in Hall, Hcalls.
  pose proof (sendSignal_result os pid SIGTERM w2) as Hok.
  pose proof (sendSignal_calls os pid SIGTERM w2) as Hcalls'.
  destruct (sendSignal os pid SIGTERM w2) as [ok w3]. cbn in Hok, Hcalls'.
  exists w3. unfold termCalls in *. rewrite map_app, outcomes_app, forallb_app.
  cbn [map outcomes forallb]. rewrite <- Hcalls, <- Hok, <- Hall, Hcalls', Hcalls.
  rewrite <- app_assoc. split; [|done]. by destruct ok, allOk.
Qed.

Lemma descend_step (fuel : nat) (index : gmap Z (list Z)) (current : Z)
    (stack result : list Z) :
  descend (S fuel) index (current :: stack) result
  = descend fuel index (reverse (childrenOf index current) ++ stack)
            (result ++ childrenOf index current).
Proof. reflexivity. Qed.

(** The self-parented kernel entry makes the traversal run for ever: two
    iterations after pid 0 is on top of the stack, it is there again. *)
Lemma descend_kernel_loops (fuel : nat) (result : list Z) :
  descend fuel (ProcessModel.childrenByPpid Samples.kernelTable) [0] result = None.
Proof.
  revert result. induction fuel as [fuel IH] using lt_wf_ind. intros result.
  destruct fuel as [|[|fuel]]; [done..|].
  rewrite descend_step.
  replace (childrenOf (ProcessModel.childrenByPpid Samples.kernelTable) 0)
    with [0; 1] by (by vm_compute).
  change (reverse [0; 1] ++ []) with [1; 0].
  rewrite descend_step.
  replace (childrenOf (ProcessModel.childrenByPpid Samples.kernelTable) 1)
    with (@nil Z) by (by vm_compute).
  change (reverse [] ++ [0]) with [0].
  apply IH. lia.
Qed.

(** C2, as stated, fails: on the process table of a system that lists its
    kernel as pid 0 with parent pid 0, the traversal from pid 0 never
    returns, whatever the number of iterations allowed. *)
Lemma getDescendants_loops_on_self_parent :
  ¬ ∃ fuel ds, getDescendants fuel 0 Samples.kernelTable = Some ds.
Proof.
  intros (fuel & ds & H). unfold getDescendants in H.
  by rewrite descend_kernel_loops in H.
Qed.

(** C2 (amended): for every snapshot whose children-by-parent index is
    acyclic and every pid, [getDescendants] terminates and returns a finite
    list: there is a number of loop iterations from which on it returns
    that list. *)
Theorem getDescendants_terminates_when_acyclic
    (snap : ProcessModel.ProcessSnapshot) (pid : Z) :
  acyclic (ProcessModel.childrenByPpid snap) →
  ∃ (fuel0 : nat) (ds : list Z),
    ∀ fuel, (fuel0 ≤ fuel)%nat → getDescendants fuel pid snap = Some ds.
Proof.
  intros Hacyc.
  destruct (sn_unwinds _ pid (acyclic_sn _ pid Hacyc)) as (n & ds & Hun).
  exists (S n), ds. intros fuel Hfuel. by eapply descend_returns.
Qed.

Lemma chain_acyclic : acyclic (ProcessModel.childrenByPpid Samples.chain).
Proof. apply (rankedBy_acyclic Z.opp). vm_compute. reflexivity. Qed.

Lemma getDescendants_terminates_on_chain :
  acyclic (ProcessModel.childrenByPpid Samples.chain)
  ∧ ∃ (fuel0 : nat) (ds : list Z),
      ∀ fuel, (fuel0 ≤ fuel)%nat → getDescendants fuel 1 Samples.chain = Some ds.
Proof.
  split; [exact chain_acyclic|].
  exact (getDescendants_terminates_when_acyclic Samples.chain 1 chain_acyclic).
Defined.

(** C1: for every snapshot whose parent links are acyclic and every target
    pid, [terminateSubtree] with confirmation disabled returns, and
    - the pids it signals (with SIGTERM, in this order) are a list [below]
      followed by the target, where [below] holds exactly the descendants of
      the target and not the target;
    - every signal sent to a process of the closure comes after a signal to
      each of that process's children (bottom-up);
    - this list does not depend on how the operating system answers, so
      every member is attempted whatever fails;
    - the result is true if and only if every call succeeded or found its
      target already exited. *)
Theorem terminateSubtree_bottom_up (snap : ProcessModel.ProcessSnapshot)
    (pid : Z) (answer : option string) :
  acyclic (ProcessModel.childrenByPpid snap) →
  ∃ (fuel0 : nat) (below : list Z),
    (∀ d, d ∈ below ↔ descendantOf (ProcessModel.childrenByPpid snap) pid d)
    ∧ (pid ∉ below)
    ∧ (∀ l1 p l2 c,
          below ++ [pid] = l1 ++ p :: l2 →
          parentOf (ProcessModel.childrenByPpid snap) p c → c ∈ l1)
    ∧ (∀ fuel, (fuel0 ≤ fuel)%nat → getDescendants fuel pid snap = Some (reverse below))
    ∧ ∀ os w, ∃ (ok : bool) (w' : World),
        (∀ fuel, (fuel0 ≤ fuel)%nat →
           terminateSubtree fuel os pid snap false answer w = Some (ok, w'))
        ∧ calls w' = calls w ++ termCalls (below ++ [pid])
        ∧ (ok = true ↔
           ∀ r, r ∈ outcomes os (calls w) (termCalls (below ++ [pid])) →
                benign r = true).
Proof.
  intros Hacyc. set (index := ProcessModel.childrenByPpid snap) in *.
  destruct (sn_unwinds index pid (acyclic_sn index pid Hacyc)) as (n & ds & Hun).
  pose proof (descend_returns index pid n ds Hun) as Hret.
  destruct Hun as (_ & Hmem & Hord).
  exists (S n), (reverse ds). split; [|split; [|split; [|split]]].
  - intros d. by rewrite elem_of_reverse.
  - rewrite elem_of_reverse, Hmem. apply Hacyc.
  - intros l1 p l2 c Heq Hc.
    destruct l2 as [|x l2 _] using rev_ind.
    + apply app_inj_tail in Heq as [<- <-].
      apply elem_of_reverse, Hmem. by apply tc_once.
    + rewrite app_comm_cons, app_assoc in Heq.
      apply app_inj_tail in Heq as [Heq _].
      apply (f_equal reverse) in Heq.
      rewrite reverse_involutive, reverse_app, reverse_cons, <- app_assoc in Heq.
      apply elem_of_reverse. by eapply Hord.
  - intros fuel Hfuel. rewrite reverse_involutive. by apply Hret.
  - intros os w.
    destruct (terminateSubtree_run (S n) os pid snap answer w ds) as (w' & Hrun & Hcalls).
    { by apply Hret. }
    eexists _, w'. split; [|split].
    + intros fuel Hfuel.
      destruct (terminateSubtree_run fuel os pid snap answer w ds) as (w'' & Hrun' & Hcalls').
      { by apply Hret. }
      rewrite Hrun'. f_equal. f_equal.
      unfold terminateSubtree in Hrun, Hrun'. unfold getDescendants in *.
      rewrite Hret in Hrun, Hrun' by lia.
      rewrite Hrun in Hrun'. by injection Hrun'.
    + done.
    + rewrite forallb_forall. split; intros H r Hr; apply H.
      * by apply list_elem_of_In.
      * by apply list_elem_of_In.
Qed.

Lemma terminateSubtree_bottom_up_on_chain :
  acyclic (ProcessModel.childrenByPpid Samples.chain)
  ∧ ∃ (fuel0 : nat) (below : list Z),
      (∀ d, d ∈ below ↔ descendantOf (ProcessModel.childrenByPpid Samples.chain) 1 d)
      ∧ (1 ∉ below)
      ∧ (∀ l1 p l2 c,
            below ++ [1] = l1 ++ p :: l2 →
            parentOf (ProcessModel.childrenByPpid Samples.chain) p c → c ∈ l1)
      ∧ (∀ fuel, (fuel0 ≤ fuel)%nat →
           getDescendants fuel 1 Samples.chain = Some (reverse below))
      ∧ ∀ os w, ∃ (ok : bool) (w' : World),
          (∀ fuel, (fuel0 ≤ fuel)%nat →
             terminateSubtree fuel os 1 Samples.chain false None w = Some (ok, w'))
          ∧ calls w' = calls w ++ termCalls (below ++ [1])
          ∧ (ok = true ↔
             ∀ r, r ∈ outcomes os (calls w) (termCalls (below ++ [1])) →
                  benign r = true).
Proof.
  split; [exact chain_acyclic|].
  exact (terminateSubtree_bottom_up Samples.chain 1 None chain_acyclic).
Defined.

(** The chain 1 ← 2 ← 3 ← 4 with a system that refuses pid 3: the signals go
    to 4, 3, 2, 1 in this order, the refusal is reported, the result is
    false. *)
Example terminateSubtree_chain_with_refusal :
  terminateSubtree 5 Samples.denyThree 1 Samples.chain false None Samples.freshWorld
  = Some (false, {| calls := termCalls [4; 3; 2; 1];
                    notices := [PermissionDenied OfProcess 3] |}).
Proof. by vm_compute. Qed.

(** *** Confirmation *)

Lemma sendSignal_notices_calls (os : OS) (what : Subject) (target id : Z)
    (sig : Signal) (w w0 : World) :
  calls w = calls w0 →
  (signalAndReport os what target id sig w).1 = (signalAndReport os what target id sig w0).1
  ∧ calls (signalAndReport os what target id sig w).2
    = calls (signalAndReport os what target id sig w0).2.
Proof.
  intros Hc. unfold signalAndReport. rewrite Hc.
  destruct (os _ _) as [|msg]; cbn; [done|].
  destruct (JS.includes msg "ESRCH"); [done|].
  by destruct (JS.includes msg "EPERM").
Qed.

Lemma signalEach_calls_only (os : OS) (pids : list Z) (allOk : bool) (w w0 : World) :
  calls w = calls w0 →
  (signalEach os pids allOk w).1 = (signalEach os pids allOk w0).1
  ∧ calls (signalEach os pids allOk w).2 = calls (signalEach os pids allOk w0).2.
Proof.
  intros Hc. destruct (signalEach_spec os pids allOk w) as [-> ->].
  destruct (signalEach_spec os pids allOk w0) as [-> ->]. by rewrite Hc.
Qed.

(** X16: when confirmation is required and the dialog does not resolve to
    the operation's own button (it is dismissed, or anything else comes
    back), each of the five operations returns false and sends no signal
    at all; the only thing it has done is ask.  The four operations on a
    pid or a group always return; the subtree operation returns unless the
    traversal of the descendants, which runs before the question is
    asked, does not. *)
Theorem declined_sends_nothing (op : Operation) (os : OS) (id : Z)
    (answer : option string) (w : World) :
  answer ≠ Some (acceptLabel op) →
  match perform op os id true answer w with
  | Some (ok, w') =>
      ok = false
      ∧ calls w' = calls w
      ∧ ∃ ask, notices w' = notices w ++ [ask]
  | None =>
      ∃ fuel snapshot,
        op = TerminateSubtree fuel snapshot
        ∧ getDescendants fuel id snapshot = None
  end.
Proof.
  intros Hans. destruct op as [| | | |fuel snap]; cbn [perform acceptLabel] in *.
  1-4: unfold terminatePid, forceKillPid, terminateGroup, forceKillGroup, confirmed;
       rewrite bool_decide_eq_false_2 by done; cbn; eauto.
  unfold terminateSubtree, confirmed.
  destruct (getDescendants fuel id snap) as [ds|] eqn:Hds; [|by eauto].
  rewrite bool_decide_eq_false_2 by done. cbn. eauto.
Qed.

Lemma declined_sends_nothing_sample :
  None ≠ Some (acceptLabel (TerminateSubtree 5 Samples.chain))
  ∧ match perform (TerminateSubtree 5 Samples.chain) Samples.denyThree 1 true None
            Samples.freshWorld with
    | Some (ok, w') =>
        ok = false
        ∧ calls w' = calls Samples.freshWorld
        ∧ ∃ ask, notices w' = notices Samples.freshWorld ++ [ask]
    | None =>
        ∃ fuel snapshot,
          TerminateSubtree 5 Samples.chain = TerminateSubtree fuel snapshot
          ∧ getDescendants fuel 1 snapshot = None
    end.
Proof.
  assert (None ≠ Some (acceptLabel (TerminateSubtree 5 Samples.chain))) as Hne
    by discriminate.
  split; [exact Hne|].
  exact (declined_sends_nothing (TerminateSubtree 5 Samples.chain)
           Samples.denyThree 1 None Samples.freshWorld Hne).
Defined.

(** X17: confirmation only gates an operation: once the dialog resolves to
    the operation's button, the result and the signals sent are those of
    the same operation run without confirmation. *)
Theorem accepted_runs_as_unconfirmed (op : Operation) (os : OS) (id : Z)
    (answer : option string) (w : World) :
  match perform op os id false answer w,
        perform op os id true (Some (acceptLabel op)) w with
  | Some (ok, w1), Some (ok', w1') => ok = ok' ∧ calls w1 = calls w1'
  | None, None => True
  | _, _ => False
  end.
Proof.
  destruct op as [| | | |fuel snap]; cbn [perform acceptLabel].
  1-4: unfold terminatePid, forceKillPid, terminateGroup, forceKillGroup, confirmed,
         sendSignal, sendSignalToGroup;
       rewrite bool_decide_eq_true_2 by done;
       match goal with
       | |- context [signalAndReport ?os ?what ?t ?i ?s (notify ?n ?w)] =>
           destruct (sendSignal_notices_calls os what t i s w (notify n w) eq_refl)
             as [H1 H2];
           destruct (signalAndReport os what t i s w) as [ok w1];
           destruct (signalAndReport os what t i s (notify n w)) as [ok' w1']
       end; by cbn in *.
  unfold terminateSubtree, confirmed.
  destruct (getDescendants fuel id snap) as [ds|]; [|done].
  rewrite bool_decide_eq_true_2 by done.
  set (w0 := notify _ w).
  destruct (signalEach_calls_only os (reverse ds) true w w0 eq_refl) as [H1 H2].
  destruct (signalEach os (reverse ds) true w) as [allOk w2].
  destruct (signalEach os (reverse ds) true w0) as [allOk' w2']. cbn in H1, H2.
  destruct (sendSignal_notices_calls os OfProcess id id SIGTERM w2 w2' H2) as [H3 H4].
  unfold sendSignal.
  destruct (signalAndReport os OfProcess id id SIGTERM w2) as [ok w3].
  destruct (signalAndReport os OfProcess id id SIGTERM w2') as [ok' w3'].
  cbn in *. by subst.
Qed.

(** X18: with confirmation disabled, a group operation makes exactly one
    call of [process.kill], addressed to the negated group id, whatever
    the number of processes in the group, and returns true when that call
    succeeds or fails with ESRCH, false otherwise. *)
Theorem group_kill_is_one_call (os : OS) (pgid : Z) (answer : option string) (w : World) :
  let term := {| target := - pgid; signal := SIGTERM |} in
  let kill := {| target := - pgid; signal := SIGKILL |} in
  (terminateGroup os pgid false answer w).1 = benign (os (calls w) term)
  ∧ calls (terminateGroup os pgid false answer w).2 = calls w ++ [term]
  ∧ (forceKillGroup os pgid false answer w).1 = benign (os (calls w) kill)
  ∧ calls (forceKillGroup os pgid false answer w).2 = calls w ++ [kill].
Proof.
  intros term kill. subst term kill.
  unfold terminateGroup, forceKillGroup, confirmed.
  repeat split; case_outcome; try done.
  all: by destruct (JS.includes _ _).
Qed.

(** *** Subtrees of a process table *)

Lemma NoDup_reversed {A} (l : list A) : NoDup l → NoDup (reverse l).
Proof. by rewrite reverse_Permutation. Qed.

Section Forest.
Variable index : gmap Z (list Z).
Hypothesis Hsingle : singleParent index.
Hypothesis Hacyc : acyclic index.

Lemma descendantOf_last (p d : Z) :
  descendantOf index p d → ∃ q, rtc (parentOf index) p q ∧ parentOf index q d.
Proof.
  induction 1 as [p d H|p c d H _ (q & Hq & Hd)].
  - exists p. split; [apply rtc_refl|done].
  - exists q. split; [by eapply rtc_l|done].
Qed.

Lemma ancestors_comparable (a b q : Z) :
  rtc (parentOf index) a q → rtc (parentOf index) b q →
  rtc (parentOf index) a b ∨ rtc (parentOf index) b a.
Proof.
  intros Ha. revert b. revert q Ha.
  refine (rtc_ind_r (R := parentOf index)
            (λ q, ∀ b, rtc (parentOf index) b q →
                       rtc (parentOf index) a b ∨ rtc (parentOf index) b a) a _ _);
    [by right|].
  intros y z Hay Hyz IH b [->|(y' & Hby' & Hy'z)]%rtc_inv_r.
  - left. by eapply rtc_r.
  - destruct Hsingle as [Huniq _]. rewrite (Huniq y' y z Hy'z Hyz) in Hby'.
    by apply IH.
Qed.

Lemma no_way_back (p c : Z) : parentOf index p c → ¬ rtc (parentOf index) c p.
Proof.
  intros Hpc Hcp. apply (Hacyc p). eapply tc_rtc_r; [by apply tc_once|done].
Qed.

Lemma siblings_share_nothing (p c1 c2 d : Z) :
  parentOf index p c1 → parentOf index p c2 → c1 ≠ c2 →
  descendantOf index c1 d → descendantOf index c2 d → False.
Proof.
  intros H1 H2 Hne (q1 & Hq1 & Hd1)%descendantOf_last (q2 & Hq2 & Hd2)%descendantOf_last.
  destruct Hsingle as [Huniq _]. rewrite (Huniq q2 q1 d Hd2 Hd1) in Hq2.
  destruct (ancestors_comparable c1 c2 q1 Hq1 Hq2)
    as [[->|(y & Hy & Hyc)]%rtc_inv_r|[->|(y & Hy & Hyc)]%rtc_inv_r]; try done.
  - rewrite (Huniq y p c2 Hyc H2) in Hy. exact (no_way_back p c1 H1 Hy).
  - rewrite (Huniq y p c1 Hyc H1) in Hy. exact (no_way_back p c2 H2 Hy).
Qed.

Lemma child_not_below_sibling (p c c' : Z) :
  parentOf index p c → parentOf index p c' → ¬ descendantOf index c' c.
Proof.
  intros Hc Hc' (q & Hq & Hqc)%descendantOf_last.
  destruct Hsingle as [Huniq _]. rewrite (Huniq q p c Hqc Hc) in Hq.
  exact (no_way_back p c' Hc' Hq).
Qed.

Lemma unwindsAll_NoDup (p : Z) (ps : list Z) :
  NoDup ps → (∀ c, c ∈ ps → parentOf index p c) →
  Forall (λ c, ∃ n ds, unwinds index c n ds ∧ NoDup ds) ps →
  ∃ n ds, unwindsAll index ps n ds ∧ NoDup ds.
Proof.
  intros Hnd Hps Hall. induction Hall as [|c ps (n & ds & Hc & Hds) _ IH].
  - destruct (unwindsAll_of_each index []) as (n & ds & H); [constructor|].
    exists n, ds. split; [done|]. destruct H as (_ & Hmem & _).
    destruct ds as [|d ds]; [constructor|].
    destruct (proj1 (Hmem d)) as (q & ?%elem_of_nil & _); [|done].
    apply elem_of_cons. by left.
  - apply NoDup_cons in Hnd as [Hc' Hnd].
    destruct IH as (m & es & Hps' & Hes); [done| |].
    { intros c' Hin. apply Hps, elem_of_cons. by right. }
    exists (n + m)%nat, (ds ++ es). split; [by apply unwindsAll_cons|].
    apply NoDup_app. split; [done|]. split; [|done].
    intros d Hd He. destruct Hc as (_ & Hmem & _). destruct Hps' as (_ & Hmem' & _).
    apply Hmem in Hd. apply Hmem' in He as (c' & Hc'in & Hc'd).
    apply (siblings_share_nothing p c c' d); try done.
    + apply Hps, elem_of_cons. by left.
    + apply Hps, elem_of_cons. by right.
    + by intros ->.
Qed.

Lemma unwinds_of_children (p : Z) (n : nat) (ds : list Z) :
  unwindsAll index (reverse (childrenOf index p)) n ds →
  unwinds index p (S n) (childrenOf index p ++ ds).
Proof.
  intros (Hrun & Hmem & Hord). split; [|split].
  - intros fuel stack result. rewrite Nat.add_succ_l, descend_step.
    by rewrite Hrun, app_assoc.
  - intros d. rewrite elem_of_app, Hmem, descendantOf_inv. unfold parentOf.
    split.
    + intros [?|(c & Hc & ?)]; [by left|right].
      rewrite elem_of_reverse in Hc. eauto.
    + intros [?|(c & Hc & ?)]; [by left|right]. exists c.
      by rewrite elem_of_reverse.
  - intros l1 q l2 c Heq Hc.
    apply app_eq_inv in Heq as [(k & Hch & Heq)|(k & -> & ->)].
    + destruct k as [|x k]; cbn in Heq.
      * subst ds. by eapply (Hord []).
      * injection Heq as <- ->. apply elem_of_app. right.
        apply Hmem. exists q. split; [|by apply tc_once].
        apply elem_of_reverse. rewrite Hch. apply elem_of_app. right.
        apply elem_of_cons. by left.
    + by eapply Hord.
Qed.

Lemma sn_unwinds_NoDup (p : Z) :
  sn (parentOf index) p → ∃ n ds, unwinds index p n ds ∧ NoDup ds.
Proof.
  induction 1 as [p _ IH]. cbn in IH.
  destruct (unwindsAll_NoDup p (reverse (childrenOf index p)))
    as (n & ds & Hall & Hds).
  { apply NoDup_reversed. apply Hsingle. }
  { intros c Hc. by rewrite elem_of_reverse in Hc. }
  { apply Forall_forall. intros c Hc. rewrite elem_of_reverse in Hc. apply IH. exact Hc. }
  exists (S n), (childrenOf index p ++ ds).
  split; [by apply unwinds_of_children|].
  apply NoDup_app. split; [apply Hsingle|]. split; [|done].
  intros c Hc Hin. destruct Hall as (_ & Hmem & _).
  apply Hmem in Hin as (c' & Hc' & Hd). rewrite elem_of_reverse in Hc'.
  by eapply (child_not_below_sibling p c c').
Qed.

End Forest.

Lemma childrenOf_buildSnapshot (now : Z) (procs : list ProcessModel.ProcessInfo) (k : Z) :
  childrenOf (ProcessModel.childrenByPpid (ProcessModel.buildSnapshot now procs)) k
  = map ProcessModel.pid (filter (λ p, ProcessModel.ppid p = k) procs).
Proof.
  pose proof (ProcessModelSpec.fold_indexProcess_groups procs (∅, ∅, ∅) k) as [Hc _].
  unfold childrenOf, ProcessModel.buildSnapshot.
  destruct (fold_left _ _ _) as [[m c] g]. cbn in *. by rewrite Hc.
Qed.

Lemma same_pid_same_record (procs : list ProcessModel.ProcessInfo)
    (r r' : ProcessModel.ProcessInfo) :
  NoDup (map ProcessModel.pid procs) → r ∈ procs → r' ∈ procs →
  ProcessModel.pid r = ProcessModel.pid r' → r = r'.
Proof.
  induction procs as [|q procs IH]; [by intros _ ?%elem_of_nil|]. cbn [map].
  intros [Hq Hnd]%NoDup_cons [->|Hr]%elem_of_cons [->|Hr']%elem_of_cons Hpid;
    [done| | |by apply IH].
  - destruct Hq. rewrite Hpid. apply list_elem_of_fmap. eauto.
  - destruct Hq. rewrite <- Hpid. apply list_elem_of_fmap. eauto.
Qed.

Lemma NoDup_pids_filter (P : ProcessModel.ProcessInfo → Prop) `{!∀ x, Decision (P x)}
    (procs : list ProcessModel.ProcessInfo) :
  NoDup (map ProcessModel.pid procs) → NoDup (map ProcessModel.pid (filter P procs)).
Proof.
  induction procs as [|q procs IH]; [done|]. cbn [map].
  intros [Hq Hnd]%NoDup_cons. rewrite filter_cons. case_decide; [|by apply IH].
  cbn [map]. apply NoDup_cons. split; [|by apply IH].
  intros (r & Hr & [_ Hin]%list_elem_of_filter)%list_elem_of_fmap.
  apply Hq. rewrite Hr. apply list_elem_of_fmap. eauto.
Qed.

Lemma buildSnapshot_singleParent (now : Z) (procs : list ProcessModel.ProcessInfo) :
  NoDup (map ProcessModel.pid procs) →
  singleParent (ProcessModel.childrenByPpid (ProcessModel.buildSnapshot now procs)).
Proof.
  intros Hnd. split.
  - intros p q c. unfold parentOf. rewrite !childrenOf_buildSnapshot.
    intros (r & Hr & [Hrp Hin]%list_elem_of_filter)%list_elem_of_fmap
           (r' & Hr' & [Hrq Hin']%list_elem_of_filter)%list_elem_of_fmap.
    assert (r = r') as <- by (apply (same_pid_same_record procs); congruence).
    congruence.
  - intros p. rewrite childrenOf_buildSnapshot. by apply NoDup_pids_filter.
Qed.

(** X19: in a process table whose records have distinct pids and whose
    parent links are acyclic, [terminateSubtree] with confirmation disabled
    returns and signals every process of the subtree exactly once: the
    pids it calls [process.kill] on are the target and its descendants,
    all of them and nothing else, and they are pairwise distinct.  A
    descendant is a process reached from the target by one or more steps
    from a pid to the pid of a record that names it as its parent. *)
Theorem subtree_signalled_exactly_once
    (now : Z) (procs : list ProcessModel.ProcessInfo) (pid : Z) (answer : option string) :
  NoDup (map ProcessModel.pid procs) →
  acyclic (ProcessModel.childrenByPpid (ProcessModel.buildSnapshot now procs)) →
  ∃ (fuel0 : nat) (signalled : list Z),
    NoDup signalled
    ∧ (∀ q, q ∈ signalled ↔
            q = pid
            ∨ descendantOf
                (ProcessModel.childrenByPpid (ProcessModel.buildSnapshot now procs))
                pid q)
    ∧ (∀ p c,
         parentOf (ProcessModel.childrenByPpid (ProcessModel.buildSnapshot now procs)) p c
         ↔ ∃ r, r ∈ procs ∧ ProcessModel.ppid r = p ∧ ProcessModel.pid r = c)
    ∧ ∀ fuel os w, (fuel0 ≤ fuel)%nat →
        ∃ ok w',
          terminateSubtree fuel os pid (ProcessModel.buildSnapshot now procs)
                           false answer w = Some (ok, w')
          ∧ calls w' = calls w ++ termCalls signalled.
Proof.
  intros Hnd Hacyc. set (snap := ProcessModel.buildSnapshot now procs) in *.
  set (index := ProcessModel.childrenByPpid snap) in *.
  destruct (sn_unwinds_NoDup index (buildSnapshot_singleParent now procs Hnd) Hacyc
              pid (acyclic_sn index pid Hacyc)) as (n & ds & Hun & Hds).
  pose proof (descend_returns index pid n ds Hun) as Hret.
  destruct Hun as (_ & Hmem & _).
  exists (S n), (reverse ds ++ [pid]). split; [|split; [|split]].
  - apply NoDup_app. split; [by apply NoDup_reversed|]. split; [|apply NoDup_singleton].
    intros d Hd [->|?%elem_of_nil]%elem_of_cons; [|done].
    rewrite elem_of_reverse in Hd.
    by apply (Hacyc pid), Hmem.
  - intros q. rewrite elem_of_app, elem_of_reverse, Hmem, list_elem_of_singleton.
    tauto.
  - intros p c. unfold parentOf, index, snap.
    rewrite childrenOf_buildSnapshot, list_elem_of_fmap. split.
    + intros (r & -> & [Hr Hin]%list_elem_of_filter). eauto.
    + intros (r & Hin & Hr & <-). exists r. split; [done|].
      by apply list_elem_of_filter.
  - intros fuel os w Hfuel.
    destruct (terminateSubtree_run fuel os pid snap answer w ds) as (w' & Hrun & Hcalls).
    { by apply Hret. }
    eauto.
Qed.

Lemma subtree_signalled_exactly_once_sample :
  let procs :=
    [ Samples.sampleProcess 1 0 "alice" "a" "/bin/a";
      Samples.sampleProcess 2 1 "alice" "b" "/bin/b";
      Samples.sampleProcess 3 2 "alice" "c" "/bin/c";
      Samples.sampleProcess 4 3 "alice" "d" "/bin/d" ] in
  NoDup (map ProcessModel.pid procs)
  ∧ acyclic (ProcessModel.childrenByPpid (ProcessModel.buildSnapshot 0 procs))
  ∧ ∃ (fuel0 : nat) (signalled : list Z),
      NoDup signalled
      ∧ (∀ q, q ∈ signalled ↔
              q = 2
              ∨ descendantOf
                  (ProcessModel.childrenByPpid (ProcessModel.buildSnapshot 0 procs))
                  2 q)
      ∧ (∀ p c,
           parentOf (ProcessModel.childrenByPpid (ProcessModel.buildSnapshot 0 procs)) p c
           ↔ ∃ r, r ∈ procs ∧ ProcessModel.ppid r = p ∧ ProcessModel.pid r = c)
      ∧ ∀ fuel os w, (fuel0 ≤ fuel)%nat →
          ∃ ok w',
            terminateSubtree fuel os 2 (ProcessModel.buildSnapshot 0 procs)
                             false None w = Some (ok, w')
            ∧ calls w' = calls w ++ termCalls signalled.
Proof.
  assert (NoDup (map ProcessModel.pid
            [ Samples.sampleProcess 1 0 "alice" "a" "/bin/a";
              Samples.sampleProcess 2 1 "alice" "b" "/bin/b";
              Samples.sampleProcess 3 2 "alice" "c" "/bin/c";
              Samples.sampleProcess 4 3 "alice" "d" "/bin/d" ])) as Hnd.
  { exact (NoDup_seqZ 1 4). }
  split; [exact Hnd|]. split; [exact chain_acyclic|].
  exact (subtree_signalled_exactly_once 0 _ 2 None Hnd chain_acyclic).
Defined.

End ProcessControllerSpec.

Module ProcessTreeProviderSpec.
Import ProcessTreeProvider.

(** *** Visibility *)

Lemma startsWith_underscore (owner : string) :
  JS.startsWith owner "_" = true ↔ ∃ rest, owner = String "_" rest.
Proof.
  unfold JS.startsWith. destruct owner as [|c rest].
  - split; [discriminate|]. by intros [? ?].
  - change (String.prefix "_" (String c rest))
      with (if ascii_dec "_" c then String.prefix "" rest else false).
    destruct (ascii_dec "_" c) as [<-|Hne].
    + split; [eauto|]. intros _. by destruct rest.
    + split; [done|]. intros [? [= ? ?]]. by subst.
Qed.

Lemma isSystemUser_spec (owner : string) :
  isSystemUser owner = true ↔ recognizedSystemAccount owner.
Proof.
  unfold isSystemUser, recognizedSystemAccount.
  rewrite orb_true_iff, startsWith_underscore, existsb_exists.
  apply or_iff_compat_r. split.
  - intros (x & Hx & ->%String.eqb_eq). by apply list_elem_of_In.
  - intros Hx. exists owner. split; [by apply list_elem_of_In|apply String.eqb_refl].
Qed.

Lemma isVisible_spec (this : Provider) (proc : ProcessModel.ProcessInfo) :
  isVisible this proc = true ↔ visibleBySpec this proc.
Proof.
  unfold isVisible, visibleBySpec. rewrite <- isSystemUser_spec.
  destruct (String.eqb_spec (ProcessModel.user proc) (currentUser this)) as [Heq|Hne];
    destruct (showOtherUsers this), (showSystemProcesses this),
      (isSystemUser (ProcessModel.user proc)); cbn; naive_solver.
Qed.

(** C5: a record is in the visible set if and only if (its owner equals
    the invoking user or show-other-users is enabled) and (its owner is no
    recognized system account, that is neither a member of the fixed list
    nor a name beginning with an underscore, or show-system-processes is
    enabled). *)
Theorem visible_iff_spec (this : Provider) (proc : ProcessModel.ProcessInfo) :
  (isVisible this proc = true ↔ visibleBySpec this proc)
  ∧ ∀ snap : ProcessModel.ProcessSnapshot,
      proc ∈ getVisibleProcesses (update this snap).1
      ↔ proc ∈ ProcessModel.processes snap ∧ visibleBySpec this proc.
Proof.
  split; [apply isVisible_spec|]. intros snap.
  unfold getVisibleProcesses, update. cbn.
  rewrite list_elem_of_In, filter_In, <- list_elem_of_In.
  apply and_iff_compat_l. apply (isVisible_spec
    {| snapshot := Some snap; showSystemProcesses := showSystemProcesses this;
       showOtherUsers := showOtherUsers this; currentUser := currentUser this |}).
Qed.

(** C4, as stated, fails: with show-system-processes on and
    show-other-users off, a process of root is not shown to alice. *)
Lemma system_account_hidden_from_other_user :
  isSystemUser (ProcessModel.user Samples.launchd) = true
  ∧ showSystemProcesses Samples.aliceWithSystem = true
  ∧ isVisible Samples.aliceWithSystem Samples.launchd = false.
Proof. by vm_compute. Qed.

(** C4 (amended): a record owned by a recognized system account is excluded
    from the visible set when show-system-processes is false, whatever the
    show-other-users flag; when show-system-processes is true it is
    included if and only if its owner is the invoking user or
    show-other-users is enabled. *)
Theorem system_account_visibility (this : Provider) (proc : ProcessModel.ProcessInfo) :
  isSystemUser (ProcessModel.user proc) = true →
  (showSystemProcesses this = false → isVisible this proc = false)
  ∧ (showSystemProcesses this = true →
     (isVisible this proc = true
      ↔ ProcessModel.user proc = currentUser this ∨ showOtherUsers this = true)).
Proof.
  intros Hsys. unfold isVisible. rewrite Hsys.
  destruct (String.eqb_spec (ProcessModel.user proc) (currentUser this));
    destruct (showOtherUsers this), (showSystemProcesses this); cbn; naive_solver.
Qed.

Lemma system_account_visibility_launchd :
  isSystemUser (ProcessModel.user Samples.launchd) = true
  ∧ (showSystemProcesses Samples.aliceWithSystem = false →
     isVisible Samples.aliceWithSystem Samples.launchd = false)
  ∧ (showSystemProcesses Samples.aliceWithSystem = true →
     (isVisible Samples.aliceWithSystem Samples.launchd = true
      ↔ ProcessModel.user Samples.launchd = currentUser Samples.aliceWithSystem
        ∨ showOtherUsers Samples.aliceWithSystem = true)).
Proof.
  split; [reflexivity|].
  apply (system_account_visibility Samples.aliceWithSystem Samples.launchd).
  reflexivity.
Defined.

(** *** The collapsed trie of three processes *)

(** C9: for exactly three processes whose full command lines are
    /System/Library/Frameworks/A, /System/Library/Frameworks/B and
    /usr/bin/C, building the trie and collapsing chains yields a root with
    exactly two child folders: one displayed as System/Library/Frameworks
    holding the first two processes, with aggregate cpu the sum of their cpu
    values (accumulated from 0 in this order), and one displayed as usr/bin
    holding the third; no folder with exactly one child folder and no
    directly attached process remains. *)
Theorem three_process_trie (pA pB pC : ProcessModel.ProcessInfo) :
  ProcessModel.args pA = "/System/Library/Frameworks/A" →
  ProcessModel.args pB = "/System/Library/Frameworks/B" →
  ProcessModel.args pC = "/usr/bin/C" →
  let trie := collapseChains (buildTrie [pA; pB; pC]) in
  segment trie = ""
  ∧ processes trie = []
  ∧ totalCount trie = 3
  ∧ children trie =
      [ ("System",
         {| segment := "System/Library/Frameworks";
            fullPath := "System/Library/Frameworks";
            children := [];
            processes := [pA; pB];
            totalCount := 2;
            totalCpu := (0 + ProcessModel.cpu pA + ProcessModel.cpu pB)%float;
            totalRss := ProcessModel.rss pA + ProcessModel.rss pB |});
        ("usr",
         {| segment := "usr/bin";
            fullPath := "usr/bin";
            children := [];
            processes := [pC];
            totalCount := 1;
            totalCpu := (0 + ProcessModel.cpu pC)%float;
            totalRss := ProcessModel.rss pC |}) ]
  ∧ noChainLink trie = true.
Proof.
  intros HA HB HC trie. subst trie.
  unfold buildTrie. cbn [fold_left]. unfold getPathSegments.
  rewrite HA, HB, HC. vm_compute. done.
Qed.

Lemma three_process_trie_sample :
  let trie :=
    collapseChains (buildTrie [Samples.frameworkA; Samples.frameworkB; Samples.usrBinC]) in
  segment trie = ""
  ∧ processes trie = []
  ∧ totalCount trie = 3
  ∧ children trie =
      [ ("System",
         {| segment := "System/Library/Frameworks";
            fullPath := "System/Library/Frameworks";
            children := [];
            processes := [Samples.frameworkA; Samples.frameworkB];
            totalCount := 2;
            totalCpu := (0 + ProcessModel.cpu Samples.frameworkA
                         + ProcessModel.cpu Samples.frameworkB)%float;
            totalRss := ProcessModel.rss Samples.frameworkA
                        + ProcessModel.rss Samples.frameworkB |});
        ("usr",
         {| segment := "usr/bin";
            fullPath := "usr/bin";
            children := [];
            processes := [Samples.usrBinC];
            totalCount := 1;
            totalCpu := (0 + ProcessModel.cpu Samples.usrBinC)%float;
            totalRss := ProcessModel.rss Samples.usrBinC |}) ]
  ∧ noChainLink trie = true.
Proof.
  exact (three_process_trie Samples.frameworkA Samples.frameworkB Samples.usrBinC
           eq_refl eq_refl eq_refl).
Defined.

(** *** Induction on tries *)

Lemma TrieNode_ind' (P : TrieNode → Prop) :
  (∀ node, Forall (λ kv, P (snd kv)) (children node) → P node) →
  ∀ node, P node.
Proof.
  intros H. fix IH 1. intros [seg path ch procs count cpu rss].
  apply H. cbn [children]. clear seg path procs count cpu rss.
  revert ch. fix IHch 1. intros [|[key child] ch].
  - constructor.
  - constructor; [apply IH|apply IHch].
Qed.

Lemma conj_fold (P : TrieNode → Prop) (m : list (string * TrieNode)) :
  fold_right (λ kv rest, P (snd kv) ∧ rest) True m ↔ Forall (λ kv, P (snd kv)) m.
Proof.
  induction m as [|kv m IH]; cbn; [by split; [constructor|]|].
  rewrite Forall_cons. by rewrite IH.
Qed.

Lemma allProcesses_eq (node : TrieNode) :
  allProcesses node
  = processes node ++ concat (map (λ kv, allProcesses (snd kv)) (children node)).
Proof. by destruct node. Qed.

Lemma uniqueKeys_eq (node : TrieNode) :
  uniqueKeys node
  ↔ NoDup (map fst (children node)) ∧ Forall (λ kv, uniqueKeys (snd kv)) (children node).
Proof. destruct node. cbn. by rewrite conj_fold. Qed.

(** *** Attaching a process *)

Lemma hasChild_keys (key : string) (m : list (string * TrieNode)) :
  hasChild key m = true ↔ key ∈ map fst m.
Proof.
  unfold hasChild. rewrite existsb_exists, list_elem_of_fmap. split.
  - intros ([k c] & Hin & Heq). cbn in Heq. apply String.eqb_eq in Heq as ->.
    exists (key, c). split; [done|by apply list_elem_of_In].
  - intros ([k c] & -> & Hin). exists (k, c).
    split; [by apply list_elem_of_In|apply String.eqb_refl].
Qed.

Lemma updateChild_keys (f : TrieNode → TrieNode) (key : string)
    (m : list (string * TrieNode)) :
  map fst (updateChild f key m) = map fst m.
Proof.
  unfold updateChild. rewrite map_map. apply map_ext.
  intros [k c]. cbn. by destruct (String.eqb k key).
Qed.

Lemma updateChild_Forall (P : TrieNode → Prop) (f : TrieNode → TrieNode)
    (key : string) (m : list (string * TrieNode)) :
  (∀ c, P c → P (f c)) →
  Forall (λ kv, P (snd kv)) m → Forall (λ kv, P (snd kv)) (updateChild f key m).
Proof.
  intros Hf Hm. unfold updateChild. apply Forall_map.
  eapply Forall_impl; [exact Hm|]. intros [k c] Hc. cbn in *.
  destruct (String.eqb k key); cbn; eauto.
Qed.

Lemma updateChild_cons (f : TrieNode → TrieNode) (key k : string) (c : TrieNode)
    (m : list (string * TrieNode)) :
  updateChild f key ((k, c) :: m)
  = (if String.eqb k key then (k, f c) else (k, c)) :: updateChild f key m.
Proof. reflexivity. Qed.

Lemma updateChild_absent (f : TrieNode → TrieNode) (key : string)
    (m : list (string * TrieNode)) :
  key ∉ map fst m → updateChild f key m = m.
Proof.
  induction m as [|[k c] m IH]; [done|]. cbn [map fst].
  intros [Hk Hm]%not_elem_of_cons. rewrite updateChild_cons.
  destruct (String.eqb_spec k key) as [->|_]; [done|]. f_equal. by apply IH.
Qed.

Lemma updateChild_processes (f : TrieNode → TrieNode) (key : string)
    (m : list (string * TrieNode)) (p : ProcessModel.ProcessInfo) :
  NoDup (map fst m) → key ∈ map fst m →
  (∀ c, (key, c) ∈ m → allProcesses (f c) ≡ₚ p :: allProcesses c) →
  concat (map (λ kv, allProcesses (snd kv)) (updateChild f key m))
  ≡ₚ p :: concat (map (λ kv, allProcesses (snd kv)) m).
Proof.
  induction m as [|[k c] m IH]; [by intros _ ?%elem_of_nil|]. cbn [map fst].
  intros [Hk Hnd]%NoDup_cons Hin Hf.
  rewrite updateChild_cons.
  destruct (String.eqb_spec k key) as [->|Hne].
  - rewrite (updateChild_absent f key m Hk). cbn.
    rewrite (Hf c) by (apply elem_of_cons; by left). done.
  - apply elem_of_cons in Hin as [->|Hin]; [done|]. cbn.
    rewrite IH; [|done..|].
    + by rewrite Permutation_middle.
    + intros c' Hc'. apply Hf, elem_of_cons. by right.
Qed.

Lemma attach_processes (segs : list string) (p : ProcessModel.ProcessInfo)
    (node : TrieNode) :
  uniqueKeys node →
  uniqueKeys (attach segs p node)
  ∧ allProcesses (attach segs p node) ≡ₚ p :: allProcesses node.
Proof.
  revert node. induction segs as [|seg rest IH]; intros node Hu.
  - destruct node as [s path ch procs count cpu rss]. split; [done|].
    cbn [attach allProcesses processes children segment fullPath
         totalCount totalCpu totalRss].
    rewrite <- app_assoc. cbn [app]. by rewrite <- Permutation_middle.
  - apply uniqueKeys_eq in Hu as [Hnd Hch].
    cbn [attach]. set (new := createTrieNode seg _).
    set (withSeg := if hasChild seg (children node) then _ else _).
    assert (NoDup (map fst withSeg) ∧ Forall (λ kv, uniqueKeys (snd kv)) withSeg
            ∧ seg ∈ map fst withSeg
            ∧ concat (map (λ kv, allProcesses (snd kv)) withSeg)
              = concat (map (λ kv, allProcesses (snd kv)) (children node)))
      as (Hnd' & Hch' & Hin & Hsame).
    { subst withSeg. destruct (hasChild seg (children node)) eqn:Hhas.
      - apply hasChild_keys in Hhas. done.
      - assert (seg ∉ map fst (children node)) as Hno.
        { intros Hin%hasChild_keys. congruence. }
        rewrite !map_app, concat_app. cbn. rewrite app_nil_r.
        split; [|split; [|split; [|done]]].
        + apply NoDup_app. split; [done|]. split; [|apply NoDup_singleton].
          intros k Hk [->|?%elem_of_nil]%elem_of_cons; done.
        + apply Forall_app. split; [done|]. repeat constructor.
        + apply elem_of_app. right. apply elem_of_cons. by left. }
    split.
    + apply uniqueKeys_eq. cbn [children]. rewrite updateChild_keys.
      split; [done|]. apply updateChild_Forall; [|done].
      intros c Hc. by apply IH.
    + rewrite allProcesses_eq. cbn [processes children].
      rewrite (allProcesses_eq node), updateChild_processes with (p := p);
        [|done..|].
      * by rewrite Hsame, Permutation_middle.
      * intros c Hc. apply IH.
        rewrite Forall_forall in Hch'. by apply (Hch' (seg, c)).
Qed.

(** *** Totals *)

Lemma totalsAgree_eq (node : TrieNode) :
  totalsAgree node
  ↔ totalCount node = Z.of_nat (length (allProcesses node))
    ∧ totalRss node = sumRss (allProcesses node)
    ∧ Forall (λ kv, totalsAgree (snd kv)) (children node).
Proof. destruct node. cbn -[allProcesses]. by rewrite conj_fold. Qed.

Lemma sumRss_app (l1 l2 : list ProcessModel.ProcessInfo) :
  sumRss (l1 ++ l2) = sumRss l1 + sumRss l2.
Proof. unfold sumRss. induction l1 as [|p l1 IH]; cbn; [done|]. rewrite IH. lia. Qed.

Lemma sumRss_fold (procs : list ProcessModel.ProcessInfo) (a : Z) :
  fold_left (λ acc p, acc + ProcessModel.rss p) procs a = a + sumRss procs.
Proof.
  revert a. induction procs as [|p procs IH]; intros a; cbn; [lia|].
  rewrite IH. unfold sumRss. lia.
Qed.

Lemma sumRss_perm (l1 l2 : list ProcessModel.ProcessInfo) :
  l1 ≡ₚ l2 → sumRss l1 = sumRss l2.
Proof. unfold sumRss. induction 1; cbn; lia. Qed.

Lemma computeTotals_fields (node : TrieNode) :
  segment (computeTotals node) = segment node
  ∧ processes (computeTotals node) = processes node
  ∧ children (computeTotals node)
    = map (λ kv, (fst kv, computeTotals (snd kv))) (children node)
  ∧ totalCount (computeTotals node)
    = fold_left (λ acc kv, acc + totalCount kv.2) (children (computeTotals node))
                (Z.of_nat (length (processes node)))
  ∧ totalRss (computeTotals node)
    = fold_left (λ acc kv, acc + totalRss kv.2) (children (computeTotals node))
                (fold_left (λ acc p, acc + ProcessModel.rss p) (processes node) 0).
Proof. by destruct node. Qed.

Lemma concat_map_agree {A B} (f g : A → list B) (l : list A) :
  Forall (λ x, f x = g x) l → concat (map f l) = concat (map g l).
Proof. induction 1 as [|x l Hx _ IH]; cbn; [done|]. by rewrite Hx, IH. Qed.

Lemma computeTotals_processes (node : TrieNode) :
  allProcesses (computeTotals node) = allProcesses node.
Proof.
  induction node as [node IH] using TrieNode_ind'.
  destruct (computeTotals_fields node) as (_ & Hp & Hc & _).
  rewrite (allProcesses_eq (computeTotals node)), (allProcesses_eq node), Hp, Hc.
  rewrite map_map. f_equal. by apply concat_map_agree.
Qed.

Lemma totals_fold (m : list (string * TrieNode)) (a b : Z) :
  Forall (λ kv, totalsAgree (snd kv)) m →
  fold_left (λ acc kv, acc + totalCount kv.2) m a
  = a + Z.of_nat (length (concat (map (λ kv, allProcesses (snd kv)) m)))
  ∧ fold_left (λ acc kv, acc + totalRss kv.2) m b
    = b + sumRss (concat (map (λ kv, allProcesses (snd kv)) m)).
Proof.
  intros Hm. revert a b.
  induction Hm as [|[k c] m Hc _ IH]; intros a b.
  - cbn. unfold sumRss. cbn. lia.
  - cbn [snd] in Hc. apply totalsAgree_eq in Hc as (Hcount & Hrss & _).
    cbn [fold_left map concat snd]. destruct (IH (a + totalCount c) (b + totalRss c))
      as [-> ->].
    rewrite length_app, sumRss_app, Hcount, Hrss. lia.
Qed.

Lemma computeTotals_agree (node : TrieNode) : totalsAgree (computeTotals node).
Proof.
  induction node as [node IH] using TrieNode_ind'.
  destruct (computeTotals_fields node) as (_ & Hp & Hc & Hcount & Hrss).
  assert (Forall (λ kv, totalsAgree (snd kv)) (children (computeTotals node))) as Hch.
  { rewrite Hc. apply Forall_map. eapply Forall_impl; [exact IH|]. by intros [k c]. }
  apply totalsAgree_eq. split; [|split; [|done]].
  - rewrite Hcount, (proj1 (totals_fold _ _ 0 Hch)).
    rewrite (allProcesses_eq (computeTotals node)), Hp, length_app. lia.
  - rewrite Hrss, (proj2 (totals_fold _ 0 _ Hch)), sumRss_fold.
    rewrite (allProcesses_eq (computeTotals node)), Hp, sumRss_app. lia.
Qed.

(** *** Collapsing *)

Lemma collapseChains_cases (node : TrieNode) :
  let newChildren := map (λ kv, (fst kv, collapseChains (snd kv))) (children node) in
  let kept :=
    {| segment := segment node; fullPath := fullPath node;
       children := newChildren; processes := processes node;
       totalCount := totalCount node; totalCpu := totalCpu node;
       totalRss := totalRss node |} in
  collapseChains node
  = match newChildren with
    | [(_, onlyChild)] =>
        if ((Z.of_nat (length (processes node)) =? 0) && nonEmpty (segment node))%bool
        then {| segment := String.append (segment node) (String "/" (segment onlyChild));
                fullPath := fullPath onlyChild;
                children := children onlyChild;
                processes := processes onlyChild;
                totalCount := totalCount onlyChild;
                totalCpu := totalCpu onlyChild;
                totalRss := totalRss onlyChild |}
        else kept
    | _ => kept
    end.
Proof.
  destruct node as [seg path ch procs count cpu rss]. cbn.
  destruct (map _ ch) as [|[k c] [|? ?]]; [done| |done].
  by destruct (_ && _)%bool.
Qed.

Lemma collapseChains_processes (node : TrieNode) :
  allProcesses (collapseChains node) = allProcesses node.
Proof.
  induction node as [node IH] using TrieNode_ind'.
  assert (concat (map (λ kv, allProcesses (snd kv))
                      (map (λ kv, (fst kv, collapseChains (snd kv))) (children node)))
          = concat (map (λ kv, allProcesses (snd kv)) (children node))) as Hsame.
  { rewrite map_map. by apply concat_map_agree. }
  rewrite collapseChains_cases. cbn zeta.
  destruct (map _ (children node)) as [|[k only] [|? ?]] eqn:Hnew;
    try (by rewrite allProcesses_eq, (allProcesses_eq node); cbn [processes children];
            rewrite Hsame).
  destruct (_ && _)%bool eqn:Hif;
    [|by rewrite allProcesses_eq, (allProcesses_eq node); cbn [processes children];
         rewrite Hsame].
  apply andb_true_iff in Hif as [Hlen _].
  rewrite (allProcesses_eq node), <- Hsame. rewrite allProcesses_eq.
  cbn [processes children map concat snd]. rewrite app_nil_r, <- allProcesses_eq.
  destruct (processes node); [done|]. apply Z.eqb_eq in Hlen. cbn [length] in Hlen. lia.
Qed.

Lemma collapseChains_agree (node : TrieNode) :
  totalsAgree node → totalsAgree (collapseChains node).
Proof.
  induction node as [node IH] using TrieNode_ind'.
  intros (Hcount & Hrss & Hch)%totalsAgree_eq.
  assert (Forall (λ kv, totalsAgree (snd kv))
                 (map (λ kv, (fst kv, collapseChains (snd kv))) (children node))) as Hnew.
  { apply Forall_map. rewrite Forall_forall in IH, Hch. apply Forall_forall.
    intros kv Hkv. apply IH; [done|]. by apply Hch. }
  pose proof (collapseChains_processes node) as Hsame.
  rewrite collapseChains_cases in Hsame |- *. cbn zeta in *.
  destruct (map _ (children node)) as [|[k only] [|? ?]] eqn:Hmap.
  - apply totalsAgree_eq. cbn [totalCount totalRss children]. by rewrite Hsame.
  - destruct (_ && _)%bool.
    + apply Forall_cons in Hnew as [Honly _]. cbn [snd] in Honly.
      apply totalsAgree_eq in Honly as (Hc & Hr & Hchildren).
      apply totalsAgree_eq. cbn [totalCount totalRss children].
      rewrite allProcesses_eq. cbn [processes children].
      by rewrite <- allProcesses_eq.
    + apply totalsAgree_eq. cbn [totalCount totalRss children]. by rewrite Hsame.
  - apply totalsAgree_eq. cbn [totalCount totalRss children]. by rewrite Hsame.
Qed.

(** *** The built and collapsed trie *)

Lemma fold_attach (procs : list ProcessModel.ProcessInfo) (root : TrieNode) :
  uniqueKeys root →
  allProcesses
    (fold_left (λ root proc, attach (folderSegmentsOf (getPathSegments proc)) proc root)
               procs root)
  ≡ₚ allProcesses root ++ procs.
Proof.
  revert root. induction procs as [|p procs IH]; intros root Hu.
  - by rewrite app_nil_r.
  - cbn [fold_left].
    destruct (attach_processes (folderSegmentsOf (getPathSegments p)) p root Hu)
      as [Hu' Hp].
    rewrite (IH _ Hu'), Hp. cbn [app]. by rewrite Permutation_middle.
Qed.

Lemma buildTrie_processes (procs : list ProcessModel.ProcessInfo) :
  allProcesses (collapseChains (buildTrie procs)) ≡ₚ procs.
Proof.
  unfold buildTrie. rewrite collapseChains_processes, computeTotals_processes.
  rewrite fold_attach; [done|]. apply uniqueKeys_eq. cbn. split; constructor.
Qed.

(** X20: the collapsed trie accounts for the processes it was built from:
    it holds every process exactly once, every folder's count and
    resident-set total are those of the processes below that folder, and
    the root's are those of the whole list. *)
Theorem collapsed_trie_accounts (procs : list ProcessModel.ProcessInfo) :
  let trie := collapseChains (buildTrie procs) in
  allProcesses trie ≡ₚ procs
  ∧ totalsAgree trie
  ∧ totalCount trie = Z.of_nat (length procs)
  ∧ totalRss trie = sumRss procs.
Proof.
  intros trie. pose proof (buildTrie_processes procs) as Hperm. fold trie in Hperm.
  assert (totalsAgree trie) as Hagree.
  { subst trie. unfold buildTrie. apply collapseChains_agree, computeTotals_agree. }
  split; [done|]. split; [done|].
  apply totalsAgree_eq in Hagree as (-> & -> & _).
  split; [by rewrite Hperm|by apply sumRss_perm].
Qed.

(** *** No chain is left *)

Lemma namedFolders_eq (node : TrieNode) :
  namedFolders node
  ↔ Forall (λ kv, nonEmpty (segment (snd kv)) = true ∧ namedFolders (snd kv))
           (children node).
Proof.
  destruct node as [seg path ch procs count cpu rss]. cbn [namedFolders children].
  induction ch as [|kv ch IH]; cbn; [by split; [constructor|]|].
  rewrite Forall_cons, IH. tauto.
Qed.

Lemma noChainLink_eq (node : TrieNode) :
  noChainLink node
  = (negb (isChainLink node) && forallb (λ kv, noChainLink (snd kv)) (children node))%bool.
Proof. by destruct node. Qed.

Lemma attach_segment (segs : list string) (p : ProcessModel.ProcessInfo) (node : TrieNode) :
  segment (attach segs p node) = segment node.
Proof. by destruct segs. Qed.

Lemma attach_named (segs : list string) (p : ProcessModel.ProcessInfo) (node : TrieNode) :
  Forall (λ s, nonEmpty s = true) segs →
  namedFolders node → namedFolders (attach segs p node).
Proof.
  intros Hsegs. revert node. induction Hsegs as [|seg rest Hseg _ IH]; intros node Hn.
  - apply namedFolders_eq. by apply namedFolders_eq in Hn.
  - apply namedFolders_eq in Hn. apply namedFolders_eq. cbn [attach children].
    apply (updateChild_Forall
             (λ c, nonEmpty (segment c) = true ∧ namedFolders c)).
    + intros c [Hc Hc']. rewrite attach_segment. split; [done|by apply IH].
    + destruct (hasChild seg (children node)); [done|].
      apply Forall_app. split; [done|]. apply Forall_cons. split; [|constructor].
      split; [done|]. apply namedFolders_eq. constructor.
Qed.

Lemma computeTotals_named (node : TrieNode) :
  namedFolders node → namedFolders (computeTotals node).
Proof.
  induction node as [node IH] using TrieNode_ind'.
  intros Hn%namedFolders_eq. apply namedFolders_eq.
  destruct (computeTotals_fields node) as (_ & _ & -> & _).
  apply Forall_map. rewrite Forall_forall in IH, Hn. apply Forall_forall.
  intros [k c] Hkc. destruct (Hn _ Hkc) as [Hseg Hc]. cbn [snd] in *.
  destruct (computeTotals_fields c) as (-> & _). split; [done|].
  by apply (IH (k, c)).
Qed.

Lemma removelast_Forall {A} (P : A → Prop) (l : list A) :
  Forall P l → Forall P (removelast l).
Proof.
  induction 1 as [|x l Hx Hl IH]; [constructor|]. cbn.
  destruct l; [constructor|]. by constructor.
Qed.

Lemma folderSegments_named (p : ProcessModel.ProcessInfo) :
  Forall (λ s, nonEmpty s = true) (folderSegmentsOf (getPathSegments p)).
Proof.
  unfold folderSegmentsOf. destruct (1 <? _) eqn:Hlen; [|constructor].
  apply removelast_Forall. unfold getPathSegments in *.
  destruct (0 <? _); [|apply Z.ltb_lt in Hlen; cbn in Hlen; lia].
  apply Forall_forall. intros s Hs. apply list_elem_of_In, filter_In in Hs. tauto.
Qed.

Lemma fold_attach_named (procs : list ProcessModel.ProcessInfo) (root : TrieNode) :
  namedFolders root →
  namedFolders
    (fold_left (λ root proc, attach (folderSegmentsOf (getPathSegments proc)) proc root)
               procs root).
Proof.
  revert root. induction procs as [|p procs IH]; intros root Hn; [done|].
  cbn [fold_left]. apply IH, attach_named; [apply folderSegments_named|done].
Qed.

Lemma fold_attach_segment (procs : list ProcessModel.ProcessInfo) (root : TrieNode) :
  segment
    (fold_left (λ root proc, attach (folderSegmentsOf (getPathSegments proc)) proc root)
               procs root)
  = segment root.
Proof.
  revert root. induction procs as [|p procs IH]; intros root; [done|].
  cbn [fold_left]. by rewrite IH, attach_segment.
Qed.

Lemma collapseChains_children_clean (node : TrieNode) :
  namedFolders node →
  (nonEmpty (segment node) = true → noChainLink (collapseChains node) = true)
  ∧ forallb (λ kv, noChainLink (snd kv))
            (map (λ kv, (fst kv, collapseChains (snd kv))) (children node)) = true.
Proof.
  induction node as [node IH] using TrieNode_ind'.
  intros Hn%namedFolders_eq.
  assert (forallb (λ kv, noChainLink (snd kv))
            (map (λ kv, (fst kv, collapseChains (snd kv))) (children node)) = true)
    as Hclean.
  { apply forallb_forall. intros [k c] Hin. apply in_map_iff in Hin as ([k' c'] & [= <- <-] & Hin).
    apply list_elem_of_In in Hin. rewrite Forall_forall in IH, Hn.
    destruct (Hn _ Hin) as [Hseg Hc']. by apply (IH (k', c')). }
  split; [|done]. intros Hseg. rewrite collapseChains_cases. cbn zeta.
  destruct (map _ (children node)) as [|[k only] [|? ?]] eqn:Hmap.
  - by rewrite noChainLink_eq.
  - rewrite Hseg, andb_true_r.
    cbn [forallb snd] in Hclean. rewrite andb_true_r in Hclean.
    destruct (Z.of_nat (length (processes node)) =? 0) eqn:Hlen.
    + rewrite noChainLink_eq in Hclean. rewrite noChainLink_eq. exact Hclean.
    + rewrite noChainLink_eq. unfold isChainLink. cbn [children processes].
      rewrite Hlen, andb_false_r. cbn [negb forallb snd andb].
      by rewrite Hclean.
  - rewrite noChainLink_eq. unfold isChainLink. cbn [children processes length].
    replace (Z.of_nat _ =? 1) with false by (symmetry; apply Z.eqb_neq; lia).
    cbn [andb negb]. exact Hclean.
Qed.

(** X21: after [collapseChains], no folder below the root of a trie built
    by [buildTrie] has exactly one child folder and no directly attached
    process: every chain has been merged, at every depth. *)
Theorem collapsed_trie_has_no_chain (procs : list ProcessModel.ProcessInfo) :
  forallb (λ kv, noChainLink (snd kv)) (children (collapseChains (buildTrie procs)))
  = true.
Proof.
  assert (namedFolders (buildTrie procs)) as Hn.
  { unfold buildTrie. apply computeTotals_named, fold_attach_named.
    by apply namedFolders_eq. }
  assert (segment (buildTrie procs) = EmptyString) as Hroot.
  { unfold buildTrie. destruct (computeTotals_fields
      (fold_left (λ root proc, attach (folderSegmentsOf (getPathSegments proc)) proc root)
                 procs (createTrieNode EmptyString EmptyString))) as (-> & _).
    by rewrite fold_attach_segment. }
  destruct (collapseChains_children_clean (buildTrie procs) Hn) as [_ Hclean].
  rewrite collapseChains_cases. cbn zeta. rewrite Hroot.
  destruct (map _ (children (buildTrie procs))) as [|[k only] [|? ?]]; try done.
  by rewrite andb_false_r.
Qed.

(** *** Finding a process under its folders *)

Lemma getChild_cons (key k : string) (c : TrieNode) (m : list (string * TrieNode)) :
  getChild key ((k, c) :: m) = if String.eqb k key then Some c else getChild key m.
Proof. unfold getChild. cbn. by destruct (String.eqb k key). Qed.

Lemma getChild_updateChild (f : TrieNode → TrieNode) (key k : string)
    (m : list (string * TrieNode)) :
  getChild key (updateChild f k m)
  = (if String.eqb key k then f else id) <$> getChild key m.
Proof.
  induction m as [|[k' c] m IH]; [done|].
  rewrite updateChild_cons, getChild_cons.
  destruct (String.eqb_spec k' k) as [->|Hne].
  - rewrite getChild_cons. destruct (String.eqb_spec k key) as [->|Hne'].
    + by rewrite String.eqb_refl.
    + done.
  - rewrite getChild_cons. destruct (String.eqb_spec k' key) as [->|Hne']; [|done].
    cbn. by destruct (String.eqb_spec key k).
Qed.

Lemma getChild_extended (key : string) (m : list (string * TrieNode)) (c : TrieNode) :
  getChild key (if hasChild key m then m else m ++ [(key, c)])
  = Some (default c (getChild key m)).
Proof.
  destruct (hasChild key m) eqn:Hhas.
  - induction m as [|[k c'] m IH]; [done|]. rewrite getChild_cons.
    unfold hasChild in Hhas. cbn [existsb fst] in Hhas.
    destruct (String.eqb k key); [done|]. cbn [orb] in Hhas. by rewrite (IH Hhas).
  - induction m as [|[k c'] m IH].
    + cbn [app]. by rewrite getChild_cons, String.eqb_refl.
    + unfold hasChild in Hhas. cbn [existsb fst] in Hhas.
      apply orb_false_iff in Hhas as [Hk Hm].
      cbn [app]. rewrite !getChild_cons, Hk. by apply IH.
Qed.

Lemma getChild_kept (key seg : string) (m : list (string * TrieNode))
    (c child : TrieNode) :
  getChild key m = Some child →
  getChild key (if hasChild seg m then m else m ++ [(seg, c)]) = Some child.
Proof.
  intros Hget. destruct (hasChild seg m); [done|].
  induction m as [|[k c'] m IH]; [done|]. cbn [app].
  rewrite getChild_cons in *. destruct (String.eqb k key); [done|]. by apply IH.
Qed.

Lemma walk_attach_same (segs : list string) (p : ProcessModel.ProcessInfo)
    (node : TrieNode) :
  ∃ folder, walk segs (attach segs p node) = Some folder ∧ p ∈ processes folder.
Proof.
  revert node. induction segs as [|seg rest IH]; intros node.
  - eexists. split; [done|]. cbn. apply elem_of_app. right. apply elem_of_cons. by left.
  - cbn [attach walk children].
    rewrite getChild_updateChild, String.eqb_refl, getChild_extended. cbn [fmap option_fmap option_map].
    apply IH.
Qed.

Lemma walk_attach_other (segs segs' : list string) (p q : ProcessModel.ProcessInfo)
    (node folder : TrieNode) :
  walk segs node = Some folder → p ∈ processes folder →
  ∃ folder', walk segs (attach segs' q node) = Some folder' ∧ p ∈ processes folder'.
Proof.
  revert node segs'. induction segs as [|seg rest IH]; intros node segs' Hwalk Hp.
  - injection Hwalk as <-. eexists. split; [done|].
    destruct segs'; cbn; [|done]. apply elem_of_app. by left.
  - cbn [walk] in Hwalk.
    destruct (getChild seg (children node)) as [child|] eqn:Hchild; [|done].
    destruct segs' as [|seg' rest'].
    + exists folder. cbn [attach walk children]. by rewrite Hchild.
    + cbn [attach walk children].
      rewrite getChild_updateChild, (getChild_kept seg seg' _ _ child Hchild).
      cbn [fmap option_fmap option_map].
      destruct (String.eqb seg seg'); [by apply IH|]. by exists folder.
Qed.

Lemma getChild_map (f : TrieNode → TrieNode) (key : string)
    (m : list (string * TrieNode)) :
  getChild key (map (λ kv, (fst kv, f (snd kv))) m) = f <$> getChild key m.
Proof.
  induction m as [|[k c] m IH]; [done|]. cbn [map fst snd].
  rewrite !getChild_cons. by destruct (String.eqb k key).
Qed.

Lemma walk_computeTotals (segs : list string) (node folder : TrieNode) :
  walk segs node = Some folder →
  ∃ folder', walk segs (computeTotals node) = Some folder'
             ∧ processes folder' = processes folder.
Proof.
  revert node. induction segs as [|seg rest IH]; intros node Hwalk.
  - injection Hwalk as <-. eexists. split; [done|].
    by destruct (computeTotals_fields node) as (_ & -> & _).
  - cbn [walk] in *. destruct (computeTotals_fields node) as (_ & _ & -> & _).
    rewrite getChild_map.
    destruct (getChild seg (children node)) as [child|]; [|done].
    cbn [fmap option_fmap option_map]. by apply IH.
Qed.

Lemma walk_fold_attach (procs : list ProcessModel.ProcessInfo) (root : TrieNode)
    (p : ProcessModel.ProcessInfo) :
  p ∈ procs →
  ∃ folder,
    walk (folderSegmentsOf (getPathSegments p))
         (fold_left (λ root proc, attach (folderSegmentsOf (getPathSegments proc)) proc root)
                    procs root)
    = Some folder
    ∧ p ∈ processes folder.
Proof.
  induction procs as [|q procs IH] using rev_ind; [by intros ?%elem_of_nil|].
  rewrite fold_left_app. cbn [fold_left].
  intros [Hp|Hp]%elem_of_app.
  - destruct (IH Hp) as (folder & Hwalk & Hin).
    by eapply walk_attach_other.
  - apply elem_of_cons in Hp as [->|?%elem_of_nil]; [|done].
    apply walk_attach_same.
Qed.

(** X22: every process given to [buildTrie] is found again by following
    the folder segments of its command path from the root: the walk
    reaches a folder, and the process is directly attached to it. *)
Theorem process_found_under_its_folders
    (procs : list ProcessModel.ProcessInfo) (p : ProcessModel.ProcessInfo) :
  p ∈ procs →
  ∃ folder,
    walk (folderSegmentsOf (getPathSegments p)) (buildTrie procs) = Some folder
    ∧ p ∈ processes folder.
Proof.
  intros Hp. unfold buildTrie.
  destruct (walk_fold_attach procs (createTrieNode EmptyString EmptyString) p Hp)
    as (folder & Hwalk & Hin).
  destruct (walk_computeTotals _ _ _ Hwalk) as (folder' & Hwalk' & Hsame).
  exists folder'. split; [done|]. by rewrite Hsame.
Qed.

Lemma process_found_under_its_folders_sample :
  Samples.frameworkB ∈ [Samples.frameworkA; Samples.usrBinC; Samples.frameworkB]
  ∧ ∃ folder,
      walk (folderSegmentsOf (getPathSegments Samples.frameworkB))
           (buildTrie [Samples.frameworkA; Samples.usrBinC; Samples.frameworkB])
      = Some folder
      ∧ Samples.frameworkB ∈ processes folder.
Proof.
  assert (Samples.frameworkB
          ∈ [Samples.frameworkA; Samples.usrBinC; Samples.frameworkB]) as H.
  { apply elem_of_cons. right. apply elem_of_cons. right. apply elem_of_cons. by left. }
  split; [exact H|].
  exact (process_found_under_its_folders _ _ H).
Defined.

(** X23: turning a filter flag on never hides a process: whatever is
    visible stays visible when show-other-users or show-system-processes
    is switched on, and with both on every process is visible. *)
Theorem showing_more_hides_nothing (this : Provider) (proc : ProcessModel.ProcessInfo) :
  let others := {| snapshot := snapshot this;
                   showSystemProcesses := showSystemProcesses this;
                   showOtherUsers := true;
                   currentUser := currentUser this |} in
  let system := {| snapshot := snapshot this;
                   showSystemProcesses := true;
                   showOtherUsers := showOtherUsers this;
                   currentUser := currentUser this |} in
  let both := {| snapshot := snapshot this;
                 showSystemProcesses := true;
                 showOtherUsers := true;
                 currentUser := currentUser this |} in
  (isVisible this proc = true → isVisible others proc = true)
  ∧ (isVisible this proc = true → isVisible system proc = true)
  ∧ isVisible both proc = true
  ∧ getVisibleProcesses both
    = match snapshot this with
      | Some snap => ProcessModel.processes snap
      | None => []
      end.
Proof.
  intros others system both. unfold isVisible, getVisibleProcesses. cbn.
  repeat split.
  - destruct (showOtherUsers this), (showSystemProcesses this),
      (String.eqb _ _), (isSystemUser _); by cbn.
  - destruct (showOtherUsers this), (showSystemProcesses this),
      (String.eqb _ _), (isSystemUser _); by cbn.
  - destruct (snapshot this) as [snap|]; [|done].
    induction (ProcessModel.processes snap) as [|p l IH]; [done|].
    cbn. by rewrite IH.
Qed.

End ProcessTreeProviderSpec.

Module ProcessPollerSpec.
Import ProcessPoller.

(** *** Splitting a line into fields *)

Lemma append_cons (c : ascii) (t s : string) :
  String c t +:+ s = String c (t +:+ s).
Proof. reflexivity. Qed.

Lemma append_empty (s : string) : EmptyString +:+ s = s.
Proof. reflexivity. Qed.

Lemma skipSpaces_spaces (n : nat) (s : string) :
  skipSpaces (spaces n +:+ s) = skipSpaces s.
Proof.
  induction n as [|n IH]; [done|].
  cbn [spaces]. rewrite append_cons. cbn [skipSpaces]. by rewrite Ascii.eqb_refl.
Qed.

Lemma skipSpaces_field (t s : string) :
  isField t = true → skipSpaces (t +:+ s) = t +:+ s.
Proof.
  destruct t as [|c t]; [done|]. cbn [isField spaceFree].
  intros [Hc _]%andb_true_iff. rewrite append_cons. cbn [skipSpaces].
  by destruct (Ascii.eqb c " ").
Qed.

Lemma readField_field (t s : string) :
  spaceFree t = true → endsField s → readField (t +:+ s) = (t, s).
Proof.
  intros Ht Hs. induction t as [|c t IH].
  - rewrite append_empty. by destruct Hs as [->|[r ->]].
  - cbn [spaceFree] in Ht. apply andb_true_iff in Ht as [Hc Ht].
    rewrite append_cons. cbn [readField].
    destruct (Ascii.eqb c " "); [done|]. by rewrite (IH Ht).
Qed.

Lemma isField_spaceFree (t : string) : isField t = true → spaceFree t = true.
Proof. by destruct t. Qed.

(** One round of the loop on a token followed by the rest of the line. *)
Lemma readFields_field (n : nat) (t s : string) :
  isField t = true → endsField s →
  readFields (S n) (t +:+ s)
  = match readFields n s with
    | Some (parts, rest) => Some (t :: parts, rest)
    | None => None
    end.
Proof.
  intros Ht Hs. cbn [readFields].
  rewrite (skipSpaces_field t s Ht), (readField_field t s (isField_spaceFree t Ht) Hs).
  by destruct t.
Qed.

(** Leading spaces do not matter to the loop. *)
Lemma readFields_gap (n g : nat) (s : string) :
  readFields (S n) (gap g +:+ s) = readFields (S n) s.
Proof. cbn [readFields]. unfold gap. by rewrite skipSpaces_spaces. Qed.

Lemma endsField_gap (g : nat) (s : string) : endsField (gap g +:+ s).
Proof. right. unfold gap. cbn [spaces]. rewrite append_cons. eauto. Qed.







(** *** Lines of other shapes *)

Lemma endsField_spaces (k : nat) : endsField (spaces k).
Proof. destruct k; [by left|right; cbn; eauto]. Qed.

Lemma endsField_join (fs : list (nat * string)) (tail : string) :
  endsField tail → endsField (joinFields fs +:+ tail).
Proof.
  intros Htail. destruct fs as [|[g t] fs]; [done|].
  cbn [joinFields]. rewrite JSFacts.app_assoc_str. apply endsField_gap.
Qed.

Lemma readFields_join (fs : list (nat * string)) (n : nat) (tail : string) :
  Forall (λ f, isField f.2 = true) fs → endsField tail →
  readFields (length fs + n) (joinFields fs +:+ tail)
  = match readFields n tail with
    | Some (parts, rest) => Some (map snd fs ++ parts, rest)
    | None => None
    end.
Proof.
  intros Hfs Htail. induction Hfs as [|[g t] fs Ht _ IH].
  - change (joinFields [] +:+ tail) with tail. cbn [length Nat.add map app].
    by destruct (readFields n tail) as [[? ?]|].
  - cbn [joinFields length Nat.add].
    rewrite !JSFacts.app_assoc_str, readFields_gap.
    rewrite readFields_field by (done || by apply endsField_join).
    rewrite IH. by destruct (readFields n tail) as [[? ?]|].
Qed.

Lemma readFields_exhausted (n k : nat) : readFields (S n) (spaces k) = None.
Proof.
  cbn [readFields]. rewrite <- (JSFacts.app_empty_r (spaces k)).
  by rewrite skipSpaces_spaces.
Qed.

(** X6: a line with fewer than eight tokens is dropped: [parseLine]
    returns null whatever the tokens are and however many spaces separate
    or follow them. *)
Theorem parseLine_too_few_fields
    (parseFloat : string → float) (platform first : string)
    (rest : list (nat * string)) (trailing : nat) :
  isField first = true →
  Forall (λ f, isField f.2 = true) rest →
  (length rest < 7)%nat →
  parseLine parseFloat (first +:+ joinFields rest +:+ spaces trailing) platform = None.
Proof.
  intros Hfirst Hrest Hlen. unfold parseLine.
  replace 8%nat with (S (length rest + S (6 - length rest))) by lia.
  rewrite readFields_field
    by (done || apply endsField_join, endsField_spaces).
  rewrite readFields_join by (done || apply endsField_spaces).
  by rewrite readFields_exhausted.
Qed.

Lemma parseLine_too_few_fields_sample :
  isField "4242" = true
  ∧ Forall (λ f, isField f.2 = true) [(2%nat, "1"); (0%nat, "4242"); (0%nat, "root")]
  ∧ (length [(2%nat, "1"); (0%nat, "4242"); (0%nat, "root")] < 7)%nat
  ∧ parseLine Samples.sampleParseFloat
      ("4242" +:+ joinFields [(2%nat, "1"); (0%nat, "4242"); (0%nat, "root")]
       +:+ spaces 3) "linux" = None.
Proof.
  assert (Forall (λ f, isField f.2 = true)
            [(2%nat, "1"); (0%nat, "4242"); (0%nat, "root")]) as H
    by (repeat constructor).
  split; [reflexivity|]. split; [exact H|]. split; [cbn; lia|].
  apply (parseLine_too_few_fields Samples.sampleParseFloat "linux" "4242" _ 3
           eq_refl H).
  cbn. lia.
Defined.

(** The eight fixed fields of a line followed by anything. *)
Lemma readFields_eight (t0 t1 t2 t3 t4 t5 t6 t7 : string)
    (g1 g2 g3 g4 g5 g6 g7 : nat) (tail : string) :
  Forall (λ t, isField t = true) [t0; t1; t2; t3; t4; t5; t6; t7] →
  endsField tail →
  readFields 8
    (t0 +:+ gap g1 +:+ t1 +:+ gap g2 +:+ t2 +:+ gap g3 +:+ t3 +:+ gap g4 +:+
     t4 +:+ gap g5 +:+ t5 +:+ gap g6 +:+ t6 +:+ gap g7 +:+ t7 +:+ tail)
  = Some ([t0; t1; t2; t3; t4; t5; t6; t7], tail).
Proof.
  intros Hf Htail. repeat (apply Forall_cons in Hf as [? Hf]).
  do 7 (rewrite readFields_field by (done || apply endsField_gap);
        rewrite readFields_gap).
  by rewrite readFields_field.
Qed.

(** X7: when a ninth column follows the eight fields, [args] is the rest
    of the line verbatim from its first non-space character, embedded
    spaces included, and [command] is still the eighth field. *)
Theorem parseLine_args_verbatim
    (parseFloat : string → float) (platform : string)
    (t0 t1 t2 t3 t4 t5 t6 t7 : string) (g1 g2 g3 g4 g5 g6 g7 g8 : nat)
    (c : ascii) (more : string) (pid ppid pgid : Z) :
  Forall (λ t, isField t = true) [t0; t1; t2; t3; t4; t5; t6; t7] →
  c ≠ " "%char →
  JS.parseInt10 t0 = Some pid →
  JS.parseInt10 t1 = Some ppid →
  JS.parseInt10 t2 = Some pgid →
  parseLine parseFloat
    (t0 +:+ gap g1 +:+ t1 +:+ gap g2 +:+ t2 +:+ gap g3 +:+ t3 +:+ gap g4 +:+
     t4 +:+ gap g5 +:+ t5 +:+ gap g6 +:+ t6 +:+ gap g7 +:+ t7 +:+
     gap g8 +:+ String c more) platform
  = Some {| ProcessModel.pid := pid;
            ProcessModel.ppid := ppid;
            ProcessModel.pgid := pgid;
            ProcessModel.user := t3;
            ProcessModel.cpu := JS.orZeroF (parseFloat t4);
            ProcessModel.rss := JS.orZero (JS.parseInt10 t5);
            ProcessModel.etime := t6;
            ProcessModel.etimeSeconds := ProcessModel.parseEtime t6;
            ProcessModel.command := t7;
            ProcessModel.args := String c more |}.
Proof.
  intros Hf Hc Hpid Hppid Hpgid. unfold parseLine.
  rewrite (readFields_eight _ _ _ _ _ _ _ _ _ _ _ _ _ _ _ _ Hf (endsField_gap _ _)).
  unfold gap at 1. rewrite skipSpaces_spaces. cbn [skipSpaces].
  apply Ascii.eqb_neq in Hc. rewrite Hc.
  change (part [t0; t1; t2; t3; t4; t5; t6; t7] 0) with t0.
  change (part [t0; t1; t2; t3; t4; t5; t6; t7] 1) with t1.
  change (part [t0; t1; t2; t3; t4; t5; t6; t7] 2) with t2.
  by rewrite Hpid, Hppid, Hpgid.
Qed.

Lemma parseLine_args_verbatim_sample :
  Forall (λ t, isField t = true)
    ["812"; "1"; "812"; "alice"; "12.5"; "20480"; "01:02:03"; "node"]
  ∧ "/"%char ≠ " "%char
  ∧ JS.parseInt10 "812" = Some 812
  ∧ JS.parseInt10 "1" = Some 1
  ∧ parseLine Samples.sampleParseFloat
      ("812" +:+ gap 1 +:+ "1" +:+ gap 0 +:+ "812" +:+ gap 0 +:+ "alice" +:+ gap 2 +:+
       "12.5" +:+ gap 0 +:+ "20480" +:+ gap 0 +:+ "01:02:03" +:+ gap 0 +:+ "node" +:+
       gap 3 +:+ String "/" "usr/bin/node  my app.js --port 80") "linux"
    = Some {| ProcessModel.pid := 812;
              ProcessModel.ppid := 1;
              ProcessModel.pgid := 812;
              ProcessModel.user := "alice";
              ProcessModel.cpu := JS.orZeroF (Samples.sampleParseFloat "12.5");
              ProcessModel.rss := JS.orZero (JS.parseInt10 "20480");
              ProcessModel.etime := "01:02:03";
              ProcessModel.etimeSeconds := ProcessModel.parseEtime "01:02:03";
              ProcessModel.command := "node";
              ProcessModel.args := String "/" "usr/bin/node  my app.js --port 80" |}.
Proof.
  assert (Forall (λ t, isField t = true)
            ["812"; "1"; "812"; "alice"; "12.5"; "20480"; "01:02:03"; "node"]) as H
    by (repeat constructor).
  assert ("/"%char ≠ " "%char) as Hc by discriminate.
  split; [exact H|]. split; [exact Hc|]. do 2 (split; [reflexivity|]).
  exact (parseLine_args_verbatim Samples.sampleParseFloat "linux"
           "812" "1" "812" "alice" "12.5" "20480" "01:02:03" "node"
           1 0 0 2 0 0 0 3 "/" "usr/bin/node  my app.js --port 80" 812 1 812
           H Hc eq_refl eq_refl eq_refl).
Defined.

(** X8: a line with eight or more fields is dropped when its pid, ppid or
    pgid field does not start with an integer, whatever follows the eighth
    field. *)
Theorem parseLine_drops_non_integer_ids
    (parseFloat : string → float) (platform : string)
    (t0 t1 t2 t3 t4 t5 t6 t7 : string) (g1 g2 g3 g4 g5 g6 g7 : nat) (tail : string) :
  Forall (λ t, isField t = true) [t0; t1; t2; t3; t4; t5; t6; t7] →
  endsField tail →
  JS.parseInt10 t0 = None ∨ JS.parseInt10 t1 = None ∨ JS.parseInt10 t2 = None →
  parseLine parseFloat
    (t0 +:+ gap g1 +:+ t1 +:+ gap g2 +:+ t2 +:+ gap g3 +:+ t3 +:+ gap g4 +:+
     t4 +:+ gap g5 +:+ t5 +:+ gap g6 +:+ t6 +:+ gap g7 +:+ t7 +:+ tail) platform
  = None.
Proof.
  intros Hf Htail Hbad. unfold parseLine.
  rewrite (readFields_eight _ _ _ _ _ _ _ _ _ _ _ _ _ _ _ _ Hf Htail).
  change (part [t0; t1; t2; t3; t4; t5; t6; t7] 0) with t0.
  change (part [t0; t1; t2; t3; t4; t5; t6; t7] 1) with t1.
  change (part [t0; t1; t2; t3; t4; t5; t6; t7] 2) with t2.
  destruct Hbad as [->|[->| ->]]; [done| |].
  - by destruct (JS.parseInt10 t0).
  - by destruct (JS.parseInt10 t0), (JS.parseInt10 t1).
Qed.

Lemma parseLine_drops_non_integer_ids_sample :
  Forall (λ t, isField t = true) ["812"; "-"; "812"; "alice"; "0.0"; "0"; "00:01"; "sh"]
  ∧ endsField " sh -c true"
  ∧ (JS.parseInt10 "812" = None ∨ JS.parseInt10 "-" = None ∨ JS.parseInt10 "812" = None)
  ∧ parseLine Samples.sampleParseFloat
      ("812" +:+ gap 0 +:+ "-" +:+ gap 0 +:+ "812" +:+ gap 0 +:+ "alice" +:+ gap 0 +:+
       "0.0" +:+ gap 0 +:+ "0" +:+ gap 0 +:+ "00:01" +:+ gap 0 +:+ "sh" +:+
       " sh -c true") "linux"
    = None.
Proof.
  assert (Forall (λ t, isField t = true)
            ["812"; "-"; "812"; "alice"; "0.0"; "0"; "00:01"; "sh"]) as H
    by (repeat constructor).
  assert (endsField " sh -c true") as Ht by (right; eauto).
  assert (JS.parseInt10 "812" = None ∨ JS.parseInt10 "-" = None
          ∨ JS.parseInt10 "812" = None) as Hbad by (right; left; reflexivity).
  split; [exact H|]. split; [exact Ht|]. split; [exact Hbad|].
  exact (parseLine_drops_non_integer_ids Samples.sampleParseFloat "linux"
           "812" "-" "812" "alice" "0.0" "0" "00:01" "sh" 0 0 0 0 0 0 0
           " sh -c true" H Ht Hbad).
Defined.

(** *** The whole listing *)

Lemma trim_blank (s : string) :
  JS.allChars JS.isWhiteSpace s = true → JS.trim s = EmptyString.
Proof.
  unfold JS.trim. induction s as [|c s IH]; [done|]. cbn [JS.allChars JS.trimStart].
  intros [-> Hs]%andb_true_iff. by apply IH.
Qed.

Lemma allChars_splitOn (P sep : ascii → bool) (s : string) :
  JS.allChars P s = true → Forall (λ l, JS.allChars P l = true) (JS.splitOn sep s).
Proof.
  induction s as [|c s IH]; [by repeat constructor|]. cbn [JS.allChars JS.splitOn].
  intros [Hc Hs]%andb_true_iff. specialize (IH Hs).
  destruct (sep c); [by constructor|].
  destruct IH as [|h t Hh Ht]; constructor; try done.
  - cbn. by rewrite Hc.
  - cbn. by rewrite Hc, Hh.
Qed.

Lemma parseOutputLine_blank (parseFloat : string → float) (platform raw : string) :
  JS.allChars JS.isWhiteSpace raw = true → parseOutputLine parseFloat platform raw = [].
Proof. intros H. unfold parseOutputLine. by rewrite trim_blank. Qed.

(** X9: [parseOutput] never reads the first line, whatever it contains: the
    records come from the lines after the first line feed only.  A listing
    of the header alone, or of the header followed by nothing but white
    space (blank lines, a final line feed), gives no record. *)
Theorem parseOutput_header_and_blank_lines
    (parseFloat : string → float) (platform header blank : string) :
  JS.allChars (λ c, negb (Ascii.eqb "010" c)) header = true →
  JS.allChars JS.isWhiteSpace blank = true →
  parseOutput parseFloat header platform = []
  ∧ parseOutput parseFloat (header +:+ String "010" blank) platform = []
  ∧ ∀ body,
      parseOutput parseFloat (header +:+ String "010" body) platform
      = concat (map (parseOutputLine parseFloat platform)
                    (JS.splitOn (Ascii.eqb "010") body)).
Proof.
  intros Hh Hb.
  assert (∀ body,
      parseOutput parseFloat (header +:+ String "010" body) platform
      = concat (map (parseOutputLine parseFloat platform)
                    (JS.splitOn (Ascii.eqb "010") body))) as Hskip.
  { intros body. unfold parseOutput.
    by rewrite (JSFacts.splitOn_app (Ascii.eqb "010") header "010" body Hh eq_refl). }
  split; [|split; [|done]].
  - unfold parseOutput. by rewrite (JSFacts.splitOn_plain (Ascii.eqb "010") header Hh).
  - rewrite Hskip.
    pose proof (allChars_splitOn JS.isWhiteSpace (Ascii.eqb "010") blank Hb) as Hlines.
    induction Hlines as [|l ls Hl _ IH]; [done|]. cbn [map concat].
    by rewrite (parseOutputLine_blank parseFloat platform l Hl), IH.
Qed.

Lemma parseOutput_header_and_blank_lines_sample :
  JS.allChars (λ c, negb (Ascii.eqb "010" c))
    "  PID  PPID  PGID USER  %CPU   RSS ELAPSED COMM ARGS" = true
  ∧ JS.allChars JS.isWhiteSpace (String "010" (String " " (String "010" ""))) = true
  ∧ parseOutput Samples.sampleParseFloat
      "  PID  PPID  PGID USER  %CPU   RSS ELAPSED COMM ARGS" "linux" = []
  ∧ parseOutput Samples.sampleParseFloat
      ("  PID  PPID  PGID USER  %CPU   RSS ELAPSED COMM ARGS"
       +:+ String "010" (String "010" (String " " (String "010" "")))) "linux" = []
  ∧ ∀ body,
      parseOutput Samples.sampleParseFloat
        ("  PID  PPID  PGID USER  %CPU   RSS ELAPSED COMM ARGS" +:+ String "010" body)
        "linux"
      = concat (map (parseOutputLine Samples.sampleParseFloat "linux")
                    (JS.splitOn (Ascii.eqb "010") body)).
Proof.
  do 2 (split; [reflexivity|]).
  exact (parseOutput_header_and_blank_lines Samples.sampleParseFloat "linux"
           "  PID  PPID  PGID USER  %CPU   RSS ELAPSED COMM ARGS"
           (String "010" (String " " (String "010" ""))) eq_refl eq_refl).
Defined.

End ProcessPollerSpec.

Module PollerControlSpec.
Import PollerControl.

(** *** One listing at a time *)

#[local] Arguments launched : simpl never.

Lemma launched_one (e : Effect) :
  launched [e] = if isExecPs e then 1%nat else 0%nat.
Proof. unfold launched. cbn. by destruct (isExecPs e). Qed.

Lemma launched_app (l1 l2 : list Effect) :
  launched (l1 ++ l2) = (launched l1 + launched l2)%nat.
Proof. unfold launched. by rewrite List.filter_app, length_app. Qed.

Lemma poll_once (platform : string) (r : Run) : pollsAtMostOnce r (poll platform r).
Proof.
  destruct r as [this log]. unfold poll.
  destruct (polling this) eqn:Hp; [by left|].
  destruct (paused this); [by left|]. right. cbn.
  rewrite launched_app, launched_one. cbn. split; [done|]. split; [done|]. lia.
Qed.

Lemma poll_handle (platform : string) (r : Run) :
  intervalHandle (poll platform r).1 = intervalHandle r.1.
Proof. destruct r as [this log]. unfold poll. by destruct (_ || _)%bool. Qed.

Lemma start_once (platform : string) (r : Run) : pollsAtMostOnce r (start platform r).
Proof.
  unfold start. destruct (intervalHandle r.1); [by left|].
  pose proof (poll_once platform r) as H.
  destruct (poll platform r) as [this log]. cbn in *.
  unfold pollsAtMostOnce in *. cbn. rewrite launched_app, launched_one. cbn.
  rewrite Nat.add_0_r. exact H.
Qed.

Lemma stop_once (r : Run) : pollsAtMostOnce r (stop r).
Proof.
  destruct r as [this log]. unfold stop. destruct (intervalHandle this); left; cbn.
  - rewrite launched_app, launched_one. cbn. split; [done|lia].
  - done.
Qed.

Lemma pollsAtMostOnce_trans_l (r r' r'' : Run) :
  polling r'.1 = polling r.1 → launched r'.2 = launched r.2 →
  pollsAtMostOnce r' r'' → pollsAtMostOnce r r''.
Proof. unfold pollsAtMostOnce. intros -> ->. tauto. Qed.

Lemma setInterval_once (platform : string) (ms : Z) (r : Run) :
  pollsAtMostOnce r (setInterval platform ms r).
Proof.
  destruct r as [this log]. unfold setInterval. cbn [intervalHandle].
  destruct (intervalHandle this) as [h|] eqn:Hh; [|by left].
  eapply pollsAtMostOnce_trans_l; [| |apply start_once].
  - done.
  - cbn. rewrite launched_app, launched_one. cbn. lia.
Qed.

Lemma togglePause_once (r : Run) : pollsAtMostOnce r (togglePause r).2.
Proof. destruct r as [this log]. by left. Qed.

Lemma onExecDone_idle (parseFloat : string → float) (platform : string) (now : Z)
    (result : ExecResult) (r : Run) :
  polling (onExecDone parseFloat platform now result r).1 = false
  ∧ launched (onExecDone parseFloat platform now result r).2 = launched r.2.
Proof.
  destruct r as [this log], result as [err|stdout]; cbn;
    rewrite !launched_app, ?launched_one.
  - cbn. split; [done|lia].
  - destruct (0 <? _); cbn; rewrite ?launched_one; cbn; split; try done;
      change (launched []) with 0%nat; lia.
Qed.

Lemma consistent_once (r r' : Run) (n : nat) :
  pollsAtMostOnce r r' →
  consistent {| run := r; completed := n |} →
  consistent {| run := r'; completed := n |}.
Proof.
  unfold consistent, pollsAtMostOnce. cbn.
  intros [[-> ->]|(-> & -> & ->)]; [done|]. by intros ->.
Qed.

Lemma step_consistent (parseFloat : string → float) (platform : string)
    (s : System) (i : Input) :
  consistent s → consistent (step parseFloat platform s i).
Proof.
  destruct s as [r n]. intros Hs. destruct i; cbn [step run completed].
  - apply (consistent_once r); [apply start_once|done].
  - apply (consistent_once r); [apply stop_once|done].
  - apply (consistent_once r); [apply togglePause_once|done].
  - apply (consistent_once r); [apply setInterval_once|done].
  - apply (consistent_once r); [apply poll_once|done].
  - destruct (intervalHandle r.1); [|done].
    apply (consistent_once r); [apply poll_once|done].
  - unfold inFlight. cbn [run completed].
    destruct (Nat.ltb_spec 0 (launched r.2 - n)) as [Hlt|_]; [|done].
    destruct (onExecDone_idle parseFloat platform now result r) as [Hp Hl].
    unfold consistent in *. cbn [run completed] in *. rewrite Hp, Hl.
    destruct (polling r.1); lia.
Qed.

Lemma steps_consistent (parseFloat : string → float) (platform : string)
    (inputs : list Input) (s : System) :
  consistent s → consistent (steps parseFloat platform s inputs).
Proof.
  revert s. induction inputs as [|i inputs IH]; intros s Hs; [done|].
  cbn. apply IH. by apply step_consistent.
Qed.

(** X10: whatever the host calls, whenever the timer fires and whenever
    listings complete, a poller never has more than one listing in flight,
    and its [polling] flag tells exactly whether one is. *)
Theorem at_most_one_listing_in_flight
    (parseFloat : string → float) (platform : string) (intervalMs : Z)
    (user : string) (inputs : list Input) :
  let s := steps parseFloat platform (boot intervalMs user) inputs in
  (inFlight s ≤ 1)%nat
  ∧ (polling (run s).1 = true ↔ inFlight s = 1%nat).
Proof.
  intros s.
  assert (consistent s) as Hs by (by apply steps_consistent).
  unfold consistent, inFlight in *. destruct (polling (run s).1).
  - rewrite Hs. split; [lia|]. split; [lia|done].
  - rewrite Hs. split; [lia|]. split; [done|lia].
Qed.

(** *** Pausing, timers, failures *)

Lemma liveTimers_app (l1 l2 : list Effect) (live : list nat) :
  liveTimers (l1 ++ l2) live = liveTimers l2 (liveTimers l1 live).
Proof.
  revert live. induction l1 as [|e l1 IH]; intros live; [done|].
  destruct e; cbn; apply IH.
Qed.

(** Case analysis on the fields an operation tests, then simplification of
    the effects appended. *)
Ltac by_cases_on_poller :=
  repeat match goal with
         | s : System |- _ => destruct s as [[[? ? ? ? ? ?] ?] ?]
         | r : Run |- _ => destruct r as [[? ? ? ? ? ?] ?]
         | h : option nat |- _ => destruct h
         | b : bool |- _ => destruct b
         end;
  cbn in *;
  rewrite ?List.filter_app, ?liveTimers_app, ?launched_app, ?launched_one, ?app_nil_r;
  cbn in *.

Lemma steps_app (parseFloat : string → float) (platform : string)
    (s : System) (inputs : list Input) (i : Input) :
  steps parseFloat platform s (inputs ++ [i])
  = step parseFloat platform (steps parseFloat platform s inputs) i.
Proof. unfold steps. by rewrite fold_left_app. Qed.

Lemma steps_cons (parseFloat : string → float) (platform : string)
    (s : System) (i : Input) (inputs : list Input) :
  steps parseFloat platform s (i :: inputs)
  = steps parseFloat platform (step parseFloat platform s i) inputs.
Proof. reflexivity. Qed.

Lemma step_paused (parseFloat : string → float) (platform : string)
    (s : System) (i : Input) :
  paused (run s).1 = true → i ≠ CallTogglePause →
  paused (run (step parseFloat platform s i)).1 = true
  ∧ launched (run (step parseFloat platform s i)).2 = launched (run s).2.
Proof.
  intros Hp Hi. destruct i as [| | |ms| | |now result]; try done.
  - by_cases_on_poller; try done; split; try done; lia.
  - by_cases_on_poller; try done; split; try done; lia.
  - by_cases_on_poller; try done; split; try done; lia.
  - by_cases_on_poller; try done; split; try done; lia.
  - by_cases_on_poller; try done; split; try done; lia.
  - cbn [step]. destruct (0 <? inFlight s)%nat; [|done].
    destruct s as [[this log] n]. cbn [run completed] in *.
    destruct result as [err|stdout]; cbn; rewrite !launched_app, ?launched_one.
    + cbn. split; [done|lia].
    + destruct (0 <? _); cbn; rewrite ?launched_one; cbn;
        change (launched []) with 0%nat; split; try done; lia.
Qed.

(** X11: while a poller is paused and until [togglePause] is called, no
    listing is launched, whatever else the host calls, however often the
    timer fires, and whatever completes. *)
Theorem paused_launches_nothing
    (parseFloat : string → float) (platform : string)
    (s : System) (inputs : list Input) :
  paused (run s).1 = true →
  Forall (λ i, i ≠ CallTogglePause) inputs →
  paused (run (steps parseFloat platform s inputs)).1 = true
  ∧ launched (run (steps parseFloat platform s inputs)).2 = launched (run s).2.
Proof.
  intros Hp Hin. induction Hin as [|i inputs Hi _ IH] in s, Hp |- *; [done|].
  rewrite steps_cons. destruct (step_paused parseFloat platform s i Hp Hi) as [Hp' Hl'].
  destruct (IH _ Hp') as [? ->]. done.
Qed.

Lemma paused_launches_nothing_sample :
  let s := step Samples.sampleParseFloat "linux" (boot 1000 "alice") CallTogglePause in
  let inputs := [CallStart; TimerFires; CallRefresh; CallSetInterval 500; TimerFires] in
  paused (run s).1 = true
  ∧ Forall (λ i, i ≠ CallTogglePause) inputs
  ∧ paused (run (steps Samples.sampleParseFloat "linux" s inputs)).1 = true
  ∧ launched (run (steps Samples.sampleParseFloat "linux" s inputs)).2
    = launched (run s).2.
Proof.
  assert (Forall (λ i, i ≠ CallTogglePause)
            [CallStart; TimerFires; CallRefresh; CallSetInterval 500; TimerFires]) as H
    by (repeat constructor; discriminate).
  split; [reflexivity|]. split; [exact H|].
  exact (paused_launches_nothing Samples.sampleParseFloat "linux"
           (step Samples.sampleParseFloat "linux" (boot 1000 "alice") CallTogglePause)
           _ eq_refl H).
Defined.

Lemma step_timers (parseFloat : string → float) (platform : string)
    (s : System) (i : Input) :
  liveTimers (run s).2 [] = heldTimer (run s).1 →
  liveTimers (run (step parseFloat platform s i)).2 []
  = heldTimer (run (step parseFloat platform s i)).1.
Proof.
  intros Hs. destruct i as [| | |ms| | |now result].
  1-6: unfold heldTimer in *; by_cases_on_poller; rewrite ?Hs; cbn;
       try done; by case_decide.
  cbn [step]. destruct (0 <? inFlight s)%nat; [|done].
  destruct s as [[this log] n]. unfold heldTimer in *. cbn [run completed] in *.
  destruct result as [err|stdout]; cbn; rewrite !liveTimers_app; cbn.
  - done.
  - by destruct (0 <? _).
Qed.

(** X12: whatever happens to a poller, at most one of the timers it has
    armed is still armed, and it is the one whose handle the poller holds:
    [start] on a started poller arms nothing, and [setInterval] clears the
    old timer before arming the new one. *)
Theorem one_timer_armed
    (parseFloat : string → float) (platform : string) (intervalMs : Z)
    (user : string) (inputs : list Input) :
  let s := steps parseFloat platform (boot intervalMs user) inputs in
  liveTimers (run s).2 [] = heldTimer (run s).1
  ∧ (length (liveTimers (run s).2 []) ≤ 1)%nat.
Proof.
  intros s.
  assert (liveTimers (run s).2 [] = heldTimer (run s).1) as Hs.
  { subst s. induction inputs as [|i inputs IH] using rev_ind; [done|].
    rewrite steps_app. by apply step_timers. }
  split; [done|]. rewrite Hs. unfold heldTimer.
  destruct (intervalHandle _); cbn; lia.
Qed.

Lemma step_failures (parseFloat : string → float) (platform : string)
    (s : System) (i : Input) :
  noOutput i = true →
  currentSnapshot (run (step parseFloat platform s i)).1 = currentSnapshot (run s).1
  ∧ List.filter publishes (run (step parseFloat platform s i)).2
    = List.filter publishes (run s).2.
Proof.
  intros Hi. destruct i as [| | |ms| | |now [err|stdout]]; try done.
  1-6: by_cases_on_poller; done.
  cbn [step]. destruct (0 <? inFlight s)%nat; [|done].
  destruct s as [[this log] n]. cbn. by rewrite List.filter_app, app_nil_r.
Qed.

(** X13: as long as no listing succeeds (every completion is a failure),
    the stored snapshot stays the last good one and nothing is published:
    no "events" and no "snapshot" is emitted, whatever else happens. *)
Theorem failures_keep_last_snapshot
    (parseFloat : string → float) (platform : string)
    (s : System) (inputs : list Input) :
  forallb noOutput inputs = true →
  currentSnapshot (run (steps parseFloat platform s inputs)).1
  = currentSnapshot (run s).1
  ∧ List.filter publishes (run (steps parseFloat platform s inputs)).2
    = List.filter publishes (run s).2.
Proof.
  revert s. induction inputs as [|i inputs IH]; intros s; [done|].
  cbn [forallb]. intros [Hi Hin]%andb_true_iff. rewrite steps_cons.
  destruct (IH (step parseFloat platform s i) Hin) as [-> ->].
  by apply step_failures.
Qed.

Lemma failures_keep_last_snapshot_sample :
  let inputs :=
    [CallStart; ExecDone 5 (ExecFailed "spawn ps ENOENT"); TimerFires;
     ExecDone 9 (ExecFailed "stdout maxBuffer length exceeded")] in
  forallb noOutput inputs = true
  ∧ currentSnapshot
      (run (steps Samples.sampleParseFloat "linux" (boot 1000 "alice") inputs)).1
    = currentSnapshot (run (boot 1000 "alice")).1
  ∧ List.filter publishes
      (run (steps Samples.sampleParseFloat "linux" (boot 1000 "alice") inputs)).2
    = List.filter publishes (run (boot 1000 "alice")).2.
Proof.
  split; [reflexivity|].
  exact (failures_keep_last_snapshot Samples.sampleParseFloat "linux"
           (boot 1000 "alice")
           [CallStart; ExecDone 5 (ExecFailed "spawn ps ENOENT"); TimerFires;
            ExecDone 9 (ExecFailed "stdout maxBuffer length exceeded")] eq_refl).
Defined.

(** *** Completed listings *)

Lemma orZeroF_is_number (x : float) : JS.neF (JS.orZeroF x) (JS.orZeroF x) = false.
Proof.
  unfold JS.neF, JS.orZeroF, PrimFloat.is_nan.
  destruct (PrimFloat.eqb x x) eqn:Hx; cbn; [|reflexivity].
  destruct (PrimFloat.eqb x PrimFloat.zero); [reflexivity|]. by rewrite Hx.
Qed.

Lemma parseLine_cpu_is_number (parseFloat : string → float) (line platform : string)
    (info : ProcessModel.ProcessInfo) :
  ProcessPoller.parseLine parseFloat line platform = Some info →
  JS.neF (ProcessModel.cpu info) (ProcessModel.cpu info) = false.
Proof.
  unfold ProcessPoller.parseLine.
  destruct (ProcessPoller.readFields 8 line) as [[parts rest]|]; [|done].
  destruct (JS.parseInt10 _); [|done]. destruct (JS.parseInt10 _); [|done].
  destruct (JS.parseInt10 _); [|done]. intros [= <-]. apply orZeroF_is_number.
Qed.

Lemma parseOutput_cpu_is_number (parseFloat : string → float) (stdout platform : string) :
  Forall (λ info, JS.neF (ProcessModel.cpu info) (ProcessModel.cpu info) = false)
         (ProcessPoller.parseOutput parseFloat stdout platform).
Proof.
  unfold ProcessPoller.parseOutput.
  induction (tail _) as [|raw lines IH]; [constructor|].
  cbn [map concat]. apply Forall_app. split; [|done].
  unfold ProcessPoller.parseOutputLine. destruct (JS.trim raw); [constructor|].
  destruct (ProcessPoller.parseLine _ _ _) eqn:Hline; [|constructor].
  repeat constructor. by eapply parseLine_cpu_is_number.
Qed.

(** X14: when a listing completes with the same output as the one before
    it and the pids of its records are distinct, the second completion
    emits the new snapshot and no "events": the diff is empty, because a
    parsed cpu value is never NaN. *)
Theorem unchanged_listing_emits_no_events
    (parseFloat : string → float) (platform : string) (now now' : Z)
    (stdout : string) (r : Run) :
  NoDup (map ProcessModel.pid (ProcessPoller.parseOutput parseFloat stdout platform)) →
  let procs := ProcessPoller.parseOutput parseFloat stdout platform in
  let r1 := onExecDone parseFloat platform now (ExecOutput stdout) r in
  let r2 := onExecDone parseFloat platform now' (ExecOutput stdout) r1 in
  r2.2 = r1.2 ++ [EmitSnapshot (ProcessModel.buildSnapshot now' procs)]
  ∧ currentSnapshot r2.1 = Some (ProcessModel.buildSnapshot now' procs).
Proof.
  intros Hnd procs r1 r2. destruct r as [this log].
  assert (ProcessModel.diffSnapshots
            (Some (ProcessModel.buildSnapshot now procs))
            (ProcessModel.buildSnapshot now' procs) = []) as Hdiff.
  { cbn [ProcessModel.diffSnapshots].
    rewrite !ProcessModelSpec.buildSnapshot_processes.
    pose proof (parseOutput_cpu_is_number parseFloat stdout platform) as Hcpu.
    fold procs in Hcpu. rewrite Forall_forall in Hcpu.
    rewrite !ProcessModelSpec.concat_map_nil; [done|..].
    - intros p Hp. apply ProcessModelSpec.removed_known_pid.
      apply list_elem_of_fmap. eauto.
    - intros p Hp.
      apply (ProcessModelSpec.addedOrUpdated_same_metrics now procs p p Hnd Hp).
      repeat split. by apply Hcpu. }
  subst r1 r2.
  cbn -[ProcessModel.diffSnapshots ProcessModel.buildSnapshot ProcessPoller.parseOutput].
  fold procs. rewrite Hdiff. split; reflexivity.
Qed.

Lemma unchanged_listing_emits_no_events_sample :
  let stdout :=
    "PID PPID PGID USER %CPU RSS ELAPSED COMM ARGS" +:+ String "010"
      ("1 0 1 root 12.5 1234 02:30 launchd /sbin/launchd" +:+ String "010"
       "7 1 7 alice 0.0 20480 45 node /usr/bin/node app.js") in
  let procs := ProcessPoller.parseOutput Samples.sampleParseFloat stdout "darwin" in
  let r1 :=
    onExecDone Samples.sampleParseFloat "darwin" 10 (ExecOutput stdout)
      (create 1000 "alice") in
  let r2 := onExecDone Samples.sampleParseFloat "darwin" 20 (ExecOutput stdout) r1 in
  NoDup (map ProcessModel.pid procs)
  ∧ r2.2 = r1.2 ++ [EmitSnapshot (ProcessModel.buildSnapshot 20 procs)]
  ∧ currentSnapshot r2.1 = Some (ProcessModel.buildSnapshot 20 procs).
Proof.
  assert (NoDup (map ProcessModel.pid
            (ProcessPoller.parseOutput Samples.sampleParseFloat
               ("PID PPID PGID USER %CPU RSS ELAPSED COMM ARGS" +:+ String "010"
                  ("1 0 1 root 12.5 1234 02:30 launchd /sbin/launchd" +:+ String "010"
                   "7 1 7 alice 0.0 20480 45 node /usr/bin/node app.js"))
               "darwin"))) as H.
  { vm_compute. apply NoDup_cons. split; [|apply NoDup_singleton].
    intros [Hin|Hin%elem_of_nil]%elem_of_cons; [discriminate|done]. }
  split; [exact H|].
  exact (unchanged_listing_emits_no_events Samples.sampleParseFloat "darwin" 10 20
           _ (create 1000 "alice") H).
Defined.

(** X15: [setInterval] on a started poller clears the armed timer, launches
    a listing at once when none is in flight and the poller is not paused,
    and arms a new timer with the new period; on a poller that is not
    started it only stores the period. *)
Theorem setInterval_restarts
    (platform : string) (ms : Z) (this : Poller) (log : list Effect) :
  let r' := setInterval platform ms (this, log) in
  let idle := negb (polling this || paused this) in
  intervalMs r'.1 = ms
  ∧ match intervalHandle this with
    | None => r'.2 = log ∧ intervalHandle r'.1 = None ∧ polling r'.1 = polling this
    | Some handle =>
        ∃ handle',
          r'.2 = log ++ [ClearInterval handle]
                     ++ (if idle then [ExecPs (psArgs platform)] else [])
                     ++ [SetInterval handle' ms]
          ∧ intervalHandle r'.1 = Some handle'
          ∧ polling r'.1 = (polling this || idle)%bool
    end.
Proof.
  destruct this as [[h|] pl pa sn us old]; cbn; [|done].
  destruct pl, pa; cbn; (split; [done|]); eexists; (split; [|done]);
    by rewrite <- ?app_assoc.
Qed.

End PollerControlSpec.

(** * sfxManager.ts: sound effects *)

Module SFXSpec.
Import SFX.



Lemma sfxSteps_app (s : SfxSystem) (inputs : list SfxInput) (i : SfxInput) :
  sfxSteps s (inputs ++ [i]) = sfxStep (sfxSteps s inputs) i.
Proof. unfold sfxSteps. by rewrite fold_left_app. Qed.


Lemma mapSet_absent (event : SFXEvent) (timer : nat) (m : list (SFXEvent * nat)) :
  has event m = false → mapSet event timer m = m ++ [(event, timer)].
Proof. unfold mapSet. by intros ->. Qed.



(** What [trigger] does: nothing, or one sound and one timeout. *)
Lemma trigger_cases (env : Env) (event : SFXEvent) (this : SFXManager)
    (log : list Action) :
  trigger env event (this, log) = (this, log)
  ∨ ∃ player filePath,
      enabled this = true
      ∧ playbackCommand this = Some player
      ∧ has event (debounceTimers this) = false
      ∧ resolveSoundPath env this event = Some filePath
      ∧ trigger env event (this, log)
        = ({| enabled := enabled this; playbackCommand := playbackCommand this;
              debounceTimers := debounceTimers this ++ [(event, S (length log))];
              extensionPath := extensionPath this |},
           log ++ [Exec (playCommand player filePath) IgnoreErrors;
                   SetTimeout (S (length log)) event (DEBOUNCE event)]).
Proof.
  unfold trigger. destruct (enabled this) eqn:Hen; [|by left].
  destruct (playbackCommand this) as [[|c player]|] eqn:Hcmd; [by left| |by left].
  cbn [truthy negb orb].
  destruct (has event (debounceTimers this)) eqn:Hhas; [by left|].
  destruct (resolveSoundPath env this event) as [[|d filePath]|] eqn:Hres;
    [by left| |by left].
  right. exists (String c player), (String d filePath).
  do 4 (split; [done|]). cbn [truthy negb default].
  unfold play. rewrite Hcmd. cbn [truthy default].
  rewrite mapSet_absent by done. rewrite length_app, Nat.add_1_r.
  by rewrite <- app_assoc.
Qed.

Lemma resolveSoundPath_exists (env : Env) (this : SFXManager) (event : SFXEvent)
    (filePath : string) :
  resolveSoundPath env this event = Some filePath → existsSync env filePath = true.
Proof.
  unfold resolveSoundPath.
  destruct (truthy (configGet env _) && existsSync env _) eqn:Huser.
  - intros Heq. rewrite Heq in Huser. by apply andb_true_iff in Huser as [_ ?].
  - destruct (truthy (Some (extensionPath this))); [|done].
    destruct (existsSync env (pathJoin env _)) eqn:Hb; [|done].
    intros Heq. by simplify_eq.
Qed.











(** *** Debounce windows *)

Lemma debounced_app (l1 l2 : list Action) :
  debounced (l1 ++ l2) = debounced l1 ++ debounced l2.
Proof. apply omap_app. Qed.

Lemma debounced_sound (command : string) (callback : Callback) (handle : nat)
    (event : SFXEvent) (ms : Z) :
  debounced [Exec command callback; SetTimeout handle event ms] = [event].
Proof. reflexivity. Qed.

Lemma debounced_command (command : string) (callback : Callback) :
  debounced [Exec command callback] = [].
Proof. reflexivity. Qed.

Lemma has_app (event : SFXEvent) (m1 m2 : list (SFXEvent * nat)) :
  has event (m1 ++ m2) = (has event m1 || has event m2)%bool.
Proof. apply existsb_app. Qed.

(** X25: between the expiry of timeouts, and as long as [dispose] is not
    called, no event sounds twice: whatever else is called and whichever
    commands complete, the actions added are an extension of the log in
    which every sound played is paired with one timeout set, no event has
    two, and every event that sounded is still in the debounce map. *)
Theorem one_sound_per_window (s : SfxSystem) (inputs : list SfxInput) :
  forallb keepsWindows inputs = true →
  ∃ new,
    (sfx (sfxSteps s inputs)).2 = (sfx s).2 ++ new
    ∧ NoDup (debounced new)
    ∧ length (List.filter isPlay new) = length (debounced new)
    ∧ ∀ event, event ∈ debounced new →
        has event (debounceTimers (sfx (sfxSteps s inputs)).1) = true.
Proof.
  induction inputs as [|i inputs IH] using rev_ind; intros Hin.
  { exists []. rewrite app_nil_r. repeat split; [constructor|].
    by intros ? ?%elem_of_nil. }
  rewrite forallb_app in Hin. apply andb_true_iff in Hin as [Hin Hi].
  cbn in Hi. rewrite andb_true_r in Hi.
  destruct (IH Hin) as (new & Hlog & Hnd & Hlen & Hhas). clear IH Hin.
  rewrite sfxSteps_app. destruct (sfxSteps s inputs) as [[this log] done_].
  cbn [sfx ran fst snd] in *.
  destruct i as [extPath|value|env event| |event handle|index err];
    cbn [sfxStep sfx ran fst snd] in *; try done.
  - exists new. by repeat split.
  - exists new. by repeat split.
  - destruct (trigger_cases env event this log)
      as [->|(player & filePath & _ & _ & Hno & _ & ->)];
      [exists new; by repeat split|].
    cbn [fst snd debounceTimers].
    exists (new ++ [Exec (playCommand player filePath) IgnoreErrors;
                    SetTimeout (S (length log)) event (DEBOUNCE event)]).
    rewrite Hlog, <- app_assoc, debounced_app, debounced_sound, List.filter_app,
      !length_app.
    cbn [List.filter isPlay length app]. split; [done|]. split.
    + apply NoDup_app. split; [done|]. split; [|apply NoDup_singleton].
      intros e He ->%list_elem_of_singleton. apply Hhas in He. congruence.
    + split; [lia|]. intros e [He| ->%list_elem_of_singleton]%elem_of_app;
        rewrite has_app.
      * by rewrite (Hhas e He).
      * cbn. rewrite bool_decide_eq_true_2 by done. by rewrite orb_true_r.
  - case_bool_decide; [exists new; by repeat split|].
    destruct (log !! index) as [[command [| |]| |]|];
      try (exists new; by repeat split).
    + destruct err; cbn [onWhichPaplay negb fst snd debounceTimers].
      * exists (new ++ [Exec "which aplay" WhichAplay]).
        rewrite Hlog, <- app_assoc, debounced_app, debounced_command,
          List.filter_app, !length_app.
        cbn [List.filter isPlay length app].
        rewrite app_nil_r, !Nat.add_0_r. by repeat split.
      * exists new. by repeat split.
    + destruct err; cbn [onWhichAplay negb fst snd debounceTimers];
        exists new; by repeat split.
Qed.

Lemma one_sound_per_window_sample :
  let env := {| configGet := λ _, None; existsSync := λ _, true;
                pathJoin := λ parts, String.concat "/" parts |} in
  let s := sfxStep (sfxBoot "darwin") (CallSetExtensionPath "/ext") in
  let inputs := [CallTrigger env Fire; CallTrigger env Fire; CallTrigger env Cock;
                 ExecReturns 0 false; CallTrigger env Fire] in
  forallb keepsWindows inputs = true
  ∧ ∃ new,
      (sfx (sfxSteps s inputs)).2 = (sfx s).2 ++ new
      ∧ NoDup (debounced new)
      ∧ length (List.filter isPlay new) = length (debounced new)
      ∧ ∀ event, event ∈ debounced new →
          has event (debounceTimers (sfx (sfxSteps s inputs)).1) = true.
Proof.
  intros env s inputs. split; [reflexivity|].
  exact (one_sound_per_window s inputs eq_refl).
Defined.

(** *** What a manager runs *)

Lemma allowedAction_more (platform : string) (inputs : list SfxInput)
    (i : SfxInput) (a : Action) :
  allowedAction platform inputs a → allowedAction platform (inputs ++ [i]) a.
Proof.
  destruct a as [command [| |]| |]; cbn; try done.
  intros (player & filePath & env & event & ? & ? & ? & ? & ? & Hfrom).
  exists player, filePath, env, event. repeat split; try done.
  - apply elem_of_app. by left.
  - destruct Hfrom as [?|(extPath & ? & ?)]; [by left|right].
    exists extPath. split; [|done]. apply elem_of_app. by left.
Qed.

Lemma pathWasSet_more (inputs : list SfxInput) (i : SfxInput) (this : SFXManager) :
  pathWasSet inputs this → pathWasSet (inputs ++ [i]) this.
Proof. intros [?|?]; [by left|right]. apply elem_of_app. by left. Qed.

(** Where [resolveSoundPath] takes a file from. *)
Lemma resolveSoundPath_origin (env : Env) (this : SFXManager) (event : SFXEvent)
    (filePath : string) :
  resolveSoundPath env this event = Some filePath →
  configGet env (settingKey event) = Some filePath
  ∨ (extensionPath this ≠ EmptyString
     ∧ filePath
       = pathJoin env [extensionPath this; "media"; "sfx"; DEFAULT_FILES event]).
Proof.
  unfold resolveSoundPath. fold (settingKey event).
  destruct (truthy (configGet env _) && existsSync env _) eqn:Huser; [by left|].
  destruct (extensionPath this) as [|c extPath] eqn:Hext; [done|].
  cbn [truthy]. destruct (existsSync env (pathJoin env _)); [|done].
  intros [= <-]. by right.
Qed.

(** The log holds allowed actions only, the player is a known one, on
    darwin it is afplay, and the extension path is one that was set. *)
Lemma sfxSteps_allowed (platform : string) (inputs : list SfxInput) :
  let s := sfxSteps (sfxBoot platform) inputs in
  Forall (allowedAction platform inputs) (sfx s).2
  ∧ knownPlayer (sfx s).1
  ∧ (platform = "darwin" → playbackCommand (sfx s).1 = Some "afplay")
  ∧ pathWasSet inputs (sfx s).1.
Proof.
  induction inputs as [|i inputs IH] using rev_ind.
  { cbn. unfold sfxBoot, create.
    destruct (String.eqb_spec platform "darwin") as [->|Hne]; cbn.
    - split; [constructor|]. split; [|split; [done|by left]].
      unfold knownPlayer, players. cbn. by left.
    - split; [by repeat constructor|]. split; [done|]. split; [done|by left]. }
  cbn zeta in *. rewrite sfxSteps_app.
  destruct (sfxSteps (sfxBoot platform) inputs) as [[this log] done_].
  cbn [sfx ran fst snd] in *. destruct IH as (Hlog & Hknown & Hdarwin & Hpath).
  assert (Forall (allowedAction platform (inputs ++ [i])) log) as Hlog'.
  { eapply Forall_impl; [exact Hlog|]. intros a. apply allowedAction_more. }
  pose proof (pathWasSet_more inputs i this Hpath) as Hpath'.
  destruct i as [extPath|value|env event| |event handle|index err];
    cbn [sfxStep sfx ran fst snd].
  - split; [done|]. split; [done|]. split; [done|].
    right. cbn. apply elem_of_app. right. by left.
  - by repeat split.
  - destruct (trigger_cases env event this log)
      as [->|(player & filePath & _ & Hplayer & _ & Hres & ->)];
      [by repeat split|].
    cbn [fst snd]. split; [|by repeat split].
    apply Forall_app. split; [done|]. repeat constructor. cbn.
    exists player, filePath, env, event. split; [done|].
    unfold knownPlayer in Hknown. rewrite Hplayer in Hknown. split; [done|].
    split; [intros Hd; specialize (Hdarwin Hd); congruence|].
    split; [apply elem_of_app; right; by left|].
    split; [by apply (resolveSoundPath_exists env this event)|].
    destruct (resolveSoundPath_origin env this event filePath Hres)
      as [?|[Hset ->]]; [by left|right].
    exists (extensionPath this). split; [|done].
    by destruct Hpath' as [?|?].
  - cbn. split; [|by repeat split]. apply Forall_app. split; [done|].
    apply Forall_forall. intros a (kv & -> & _)%list_elem_of_fmap. done.
  - case_bool_decide; by repeat split.
  - case_bool_decide; [by repeat split|].
    destruct (log !! index) as [[command [| |]| |]|] eqn:Hlook;
      try by repeat split.
    + apply list_elem_of_lookup_2 in Hlook.
      rewrite Forall_forall in Hlog. destruct (Hlog _ Hlook) as [_ Hne].
      destruct err; cbn [onWhichPaplay negb fst snd].
      * split; [|by repeat split]. apply Forall_app. split; [done|].
        by repeat constructor.
      * split; [done|]. split; [|by split].
        unfold knownPlayer, players. cbn. right. by left.
    + apply list_elem_of_lookup_2 in Hlook.
      rewrite Forall_forall in Hlog. destruct (Hlog _ Hlook) as [_ Hne].
      destruct err; cbn [onWhichAplay negb fst snd]; [by repeat split|].
      split; [done|]. split; [|by split].
      unfold knownPlayer, players. cbn. right. right. by left.
Qed.

(** X26: every command line that a manager hands to [exec] is one of the
    two probes for a player (never on darwin), or a known player (afplay
    on darwin), a space and a file name between double quotes; the file
    name is put there exactly as [resolveSoundPath] returned it in a call
    of [trigger], nothing in it escaped: it is the user's setting for the
    event, or the bundled file under an extension path set before, and
    [fs.existsSync] returned true for it in that call.  What the shell
    started by [exec] makes of the file name is outside this statement. *)
Theorem exec_receives_known_command_lines (platform : string) (inputs : list SfxInput) :
  Forall (allowedAction platform inputs) (sfx (sfxSteps (sfxBoot platform) inputs)).2.
Proof. apply sfxSteps_allowed. Qed.

(** *** Switching the sounds off *)

Lemma trigger_disabled (env : Env) (event : SFXEvent) (r : Sfx) :
  enabled r.1 = false → trigger env event r = r.
Proof. destruct r as [this log]. cbn. unfold trigger. by intros ->. Qed.

Lemma isPlay_cleared (m : list (SFXEvent * nat)) :
  List.filter isPlay (map (λ kv, ClearTimeout kv.2) m) = [].
Proof. by induction m. Qed.

Lemma debounced_cleared (m : list (SFXEvent * nat)) :
  debounced (map (λ kv, ClearTimeout kv.2) m) = [].
Proof. by induction m. Qed.

(** X27: while the sounds are switched off, and until [setEnabled(true)]
    is called, [trigger] plays nothing and sets no timeout, whatever else
    is called and whatever expires or completes. *)
Theorem disabled_is_silent (s : SfxSystem) (inputs : list SfxInput) :
  enabled (sfx s).1 = false →
  Forall (λ i, i ≠ CallSetEnabled true) inputs →
  enabled (sfx (sfxSteps s inputs)).1 = false
  ∧ List.filter isPlay (sfx (sfxSteps s inputs)).2 = List.filter isPlay (sfx s).2
  ∧ debounced (sfx (sfxSteps s inputs)).2 = debounced (sfx s).2.
Proof.
  revert s. induction inputs as [|i inputs IH]; intros s Hoff Hin; [done|].
  apply Forall_cons in Hin as [Hi Hin].
  assert (enabled (sfx (sfxStep s i)).1 = false
          ∧ List.filter isPlay (sfx (sfxStep s i)).2 = List.filter isPlay (sfx s).2
          ∧ debounced (sfx (sfxStep s i)).2 = debounced (sfx s).2) as (H1 & H2 & H3).
  { destruct i as [extPath|value|env event| |event handle|index err];
      cbn [sfxStep].
    - by destruct s as [[this log] done_].
    - destruct value; [done|]. by destruct s as [[this log] done_].
    - cbn [sfx]. by rewrite trigger_disabled.
    - destruct s as [[this log] done_]. cbn in *.
      by rewrite List.filter_app, debounced_app, isPlay_cleared, debounced_cleared,
        !app_nil_r.
    - case_bool_decide; [|done]. by destruct s as [[this log] done_].
    - case_bool_decide; [done|]. destruct s as [[this log] done_].
      cbn [sfx ran fst snd] in *.
      destruct (log !! index) as [[command [| |]| |]|]; try done.
      + destruct err; cbn [onWhichPaplay negb sfx fst snd enabled]; [|done].
        by rewrite List.filter_app, debounced_app, debounced_command, !app_nil_r.
      + by destruct err. }
  change (sfxSteps s (i :: inputs)) with (sfxSteps (sfxStep s i) inputs).
  destruct (IH (sfxStep s i) H1 Hin) as (? & ? & ?). split; [done|].
  split; congruence.
Qed.

Lemma disabled_is_silent_sample :
  let env := {| configGet := λ _, None; existsSync := λ _, true;
                pathJoin := λ parts, String.concat "/" parts |} in
  let s := sfxSteps (sfxBoot "darwin")
             [CallSetExtensionPath "/ext"; CallTrigger env Cock; CallSetEnabled false] in
  let inputs := [TimeoutExpires Cock 1; CallTrigger env Cock; CallTrigger env Fire;
                 CallDispose] in
  enabled (sfx s).1 = false
  ∧ Forall (λ i, i ≠ CallSetEnabled true) inputs
  ∧ enabled (sfx (sfxSteps s inputs)).1 = false
  ∧ List.filter isPlay (sfx (sfxSteps s inputs)).2 = List.filter isPlay (sfx s).2
  ∧ debounced (sfx (sfxSteps s inputs)).2 = debounced (sfx s).2.
Proof.
  intros env s inputs.
  assert (Forall (λ i, i ≠ CallSetEnabled true) inputs) as Hin
    by (repeat constructor; discriminate).
  split; [reflexivity|]. split; [exact Hin|].
  exact (disabled_is_silent s inputs eq_refl Hin).
Defined.

End SFXSpec.

(** * extension.ts: the tree view follows the poller *)

Module ExtensionSpec.
Import PollerControl Extension.

Lemma lastEmitted_app (l1 l2 : list Effect) current :
  lastEmitted (l1 ++ l2) current = lastEmitted l2 (lastEmitted l1 current).
Proof. apply fold_left_app. Qed.

Lemma emitsItsSnapshot_refl (r : Run) : emitsItsSnapshot r r.
Proof. exists []. by rewrite app_nil_r. Qed.

Lemma emitsItsSnapshot_trans (r1 r2 r3 : Run) :
  emitsItsSnapshot r1 r2 → emitsItsSnapshot r2 r3 → emitsItsSnapshot r1 r3.
Proof.
  intros (n1 & H1 & H1' & H1'') (n2 & H2 & H2' & H2''). exists (n1 ++ n2).
  rewrite H2, H1, app_assoc, lastEmitted_app, <- H1', H2', H2'', H1''. done.
Qed.

Lemma poll_emits (platform : string) (r : Run) : emitsItsSnapshot r (poll platform r).
Proof.
  destruct r as [this log]. unfold poll.
  destruct (polling this || paused this)%bool; [apply emitsItsSnapshot_refl|].
  by eexists.
Qed.

Lemma start_emits (platform : string) (r : Run) : emitsItsSnapshot r (start platform r).
Proof.
  unfold start. destruct (intervalHandle r.1); [apply emitsItsSnapshot_refl|].
  eapply emitsItsSnapshot_trans; [apply (poll_emits platform)|].
  destruct (poll platform r) as [this log]. by eexists.
Qed.

Lemma stop_emits (r : Run) : emitsItsSnapshot r (stop r).
Proof.
  destruct r as [this log]. unfold stop.
  destruct (intervalHandle this); [by eexists|apply emitsItsSnapshot_refl].
Qed.

Lemma setInterval_emits (platform : string) (ms : Z) (r : Run) :
  emitsItsSnapshot r (setInterval platform ms r).
Proof.
  destruct r as [this log]. unfold setInterval. cbn [intervalHandle].
  destruct (intervalHandle this) eqn:Hh.
  - eapply emitsItsSnapshot_trans; [|apply start_emits].
    eapply emitsItsSnapshot_trans; [|apply stop_emits].
    exists []. by rewrite app_nil_r.
  - exists []. by rewrite app_nil_r.
Qed.

Lemma onExecDone_emits (parseFloat : string → float) (platform : string) (now : Z)
    (result : ExecResult) (r : Run) :
  emitsItsSnapshot r (onExecDone parseFloat platform now result r).
Proof.
  destruct r as [this log], result as [err|stdout]; cbn; [by eexists|].
  eexists. split; [reflexivity|]. split; [|done].
  rewrite lastEmitted_app. by destruct (0 <? _).
Qed.

Lemma step_emits (parseFloat : string → float) (platform : string)
    (s : System) (i : Input) :
  emitsItsSnapshot (run s) (run (step parseFloat platform s i)).
Proof.
  destruct i as [| | |ms| | |now result]; cbn [step run].
  - apply start_emits.
  - apply stop_emits.
  - destruct (run s) as [this log]. exists []. by rewrite app_nil_r.
  - apply setInterval_emits.
  - apply poll_emits.
  - destruct (intervalHandle (run s).1); [apply poll_emits|apply emitsItsSnapshot_refl].
  - destruct (0 <? inFlight s)%nat; [apply onExecDone_emits|apply emitsItsSnapshot_refl].
Qed.

(** What delivery does to a tree view. *)
Lemma deliver_spec (emitted : list Effect) (view : TreeView) :
  let view' := deliver emitted view in
  ProcessTreeProvider.snapshot (provider view')
  = lastEmitted emitted (ProcessTreeProvider.snapshot (provider view))
  ∧ ProcessTreeProvider.showSystemProcesses (provider view')
    = ProcessTreeProvider.showSystemProcesses (provider view)
  ∧ ProcessTreeProvider.showOtherUsers (provider view')
    = ProcessTreeProvider.showOtherUsers (provider view)
  ∧ ProcessTreeProvider.currentUser (provider view')
    = ProcessTreeProvider.currentUser (provider view)
  ∧ (upToDate view → upToDate view').
Proof.
  revert view. induction emitted as [|e emitted IH]; intros view; [done|].
  cbn zeta. change (deliver (e :: emitted) view)
    with (deliver emitted (match e with
                           | EmitSnapshot snapshot => onSnapshot snapshot view
                           | _ => view
                           end)).
  change (lastEmitted (e :: emitted) ?c)
    with (lastEmitted emitted (match e with
                               | EmitSnapshot snapshot => Some snapshot
                               | _ => c
                               end)).
  destruct e as [args|h ms|h|err|events|snapshot]; try apply IH.
  destruct (IH (onSnapshot snapshot view)) as (-> & -> & -> & -> & Hup).
  repeat split. intros _. by apply Hup.
Qed.

Lemma emittedBy_step (parseFloat : string → float) (platform : string)
    (s : System) (i : Input) :
  (run (step parseFloat platform s i)).2
  = (run s).2 ++ emittedBy s (step parseFloat platform s i)
  ∧ currentSnapshot (run (step parseFloat platform s i)).1
    = lastEmitted (emittedBy s (step parseFloat platform s i))
                  (currentSnapshot (run s).1)
  ∧ currentUser (run (step parseFloat platform s i)).1 = currentUser (run s).1.
Proof.
  destruct (step_emits parseFloat platform s i) as (new & Hlog & Hsnap & Huser).
  unfold emittedBy. rewrite Hlog, drop_app_length. done.
Qed.

Lemma appStep_follows (parseFloat : string → float) (platform : string)
    (app : App) (input : AppInput) :
  follows app → follows (appStep parseFloat platform app input).
Proof.
  destruct app as [s view]. unfold follows. cbn [pollerSystem treeView].
  intros [Hsnap Huser]. destruct input as [i|settings]; cbn [appStep pollerSystem treeView].
  - destruct (emittedBy_step parseFloat platform s i) as (_ & -> & ->).
    destruct (deliver_spec (emittedBy s (step parseFloat platform s i)) view)
      as (-> & _ & _ & -> & _).
    by rewrite Hsnap, Huser.
  - destruct (emittedBy_step parseFloat platform s
                (CallSetInterval (refreshIntervalMs settings))) as (_ & -> & ->).
    cbn [configure provider ProcessTreeProvider.snapshot ProcessTreeProvider.currentUser].
    destruct (deliver_spec
                (emittedBy s (step parseFloat platform s
                                (CallSetInterval (refreshIntervalMs settings)))) view)
      as (-> & _ & _ & -> & _).
    by rewrite Hsnap, Huser.
Qed.

Lemma activate_shows (platform user : string) (settings : Settings) :
  shows user settings (activate platform user settings)
  ∧ publishesItsSnapshot user (pollerSystem (activate platform user settings)).
Proof.
  unfold shows, follows, upToDate, publishesItsSnapshot, activate, create, start, poll.
  cbn. by repeat split.
Qed.

Lemma configure_upToDate (settings : Settings) (view : TreeView) :
  ProcessTreeProvider.showSystemProcesses (provider view)
  = showSystemProcessesSetting settings →
  ProcessTreeProvider.showOtherUsers (provider view)
  = showOtherUsersSetting settings →
  upToDate view → upToDate (configure settings view).
Proof.
  destruct view as [[snap sys oth user] stored]. unfold upToDate, configure. cbn.
  by intros <- <-.
Qed.

Lemma appStep_shows (parseFloat : string → float) (platform user : string)
    (settings : Settings) (app : App) (input : AppInput) :
  keepsFilters settings input →
  shows user settings app →
  shows user settings (appStep parseFloat platform app input).
Proof.
  intros Hkeep (Hfollows & Hup & Hsys & Hoth & Huser).
  split; [by apply appStep_follows|].
  destruct app as [s view]. cbn [pollerSystem treeView] in *.
  destruct input as [i|settings']; cbn [appStep pollerSystem treeView keepsFilters] in *.
  - destruct (emittedBy_step parseFloat platform s i) as (_ & _ & ->).
    destruct (deliver_spec (emittedBy s (step parseFloat platform s i)) view)
      as (_ & -> & -> & _ & Hup').
    split; [by apply Hup'|done].
  - destruct Hkeep as [Hsys' Hoth'].
    destruct (emittedBy_step parseFloat platform s
                (CallSetInterval (refreshIntervalMs settings'))) as (_ & _ & ->).
    destruct (deliver_spec
                (emittedBy s (step parseFloat platform s
                                (CallSetInterval (refreshIntervalMs settings')))) view)
      as (_ & Hs & Ho & _ & Hup').
    split; [|done].
    apply configure_upToDate; [congruence|congruence|by apply Hup'].
Qed.

Lemma appStep_publishes (parseFloat : string → float) (platform user : string)
    (app : App) (input : AppInput) :
  publishesItsSnapshot user (pollerSystem app) →
  publishesItsSnapshot user (pollerSystem (appStep parseFloat platform app input)).
Proof.
  assert (∀ i, publishesItsSnapshot user (pollerSystem app) →
               publishesItsSnapshot user (step parseFloat platform (pollerSystem app) i))
    as Hstep.
  { intros i [Hsnap Huser].
    destruct (step_emits parseFloat platform (pollerSystem app) i)
      as (new & Hlog & Hsnap' & Huser').
    split; [|congruence].
    by rewrite Hsnap', Hlog, lastEmitted_app, Hsnap. }
  destruct input; cbn [appStep pollerSystem]; apply Hstep.
Qed.

(** X28: after activation, whatever the commands, the timer, the listings
    and the settings do, the tree provider holds the very snapshot that
    the poller holds, and this is the last snapshot the poller has emitted
    (none before the first); the provider filters for the user that the
    poller has read. *)
Theorem tree_holds_latest_snapshot
    (parseFloat : string → float) (platform user : string)
    (settings : Settings) (inputs : list AppInput) :
  let app := appSteps parseFloat platform (activate platform user settings) inputs in
  ProcessTreeProvider.snapshot (provider (treeView app))
  = currentSnapshot (run (pollerSystem app)).1
  ∧ currentSnapshot (run (pollerSystem app)).1
    = lastEmitted (run (pollerSystem app)).2 None
  ∧ ProcessTreeProvider.currentUser (provider (treeView app)) = user.
Proof.
  cbn zeta.
  assert (∀ app, follows app → publishesItsSnapshot user (pollerSystem app) →
            follows (appSteps parseFloat platform app inputs)
            ∧ publishesItsSnapshot user
                (pollerSystem (appSteps parseFloat platform app inputs))) as Hall.
  { induction inputs as [|input inputs IH]; intros app Hf Hp; [done|].
    cbn. apply IH; [by apply appStep_follows|by apply appStep_publishes]. }
  destruct (activate_shows platform user settings) as [(Hf & _) Hp].
  destruct (Hall _ Hf Hp) as ([Hsnap Huser] & Hlast & Huser').
  split; [done|]. split; [done|]. congruence.
Qed.

(** X29: as long as the two filter settings stay as they were at
    activation, the trie that the tree provider has stored is the one of
    the visible processes of the poller's current snapshot: it holds
    exactly these processes, each once; and there is no stored trie
    exactly as long as the poller has no snapshot. *)
Theorem tree_shows_visible_processes
    (parseFloat : string → float) (platform user : string)
    (settings : Settings) (inputs : list AppInput) :
  Forall (keepsFilters settings) inputs →
  let app := appSteps parseFloat platform (activate platform user settings) inputs in
  let this := provider (treeView app) in
  ProcessTreeProvider.showSystemProcesses this = showSystemProcessesSetting settings
  ∧ ProcessTreeProvider.showOtherUsers this = showOtherUsersSetting settings
  ∧ match trie (treeView app), currentSnapshot (run (pollerSystem app)).1 with
    | Some stored, Some snapshot =>
        let visible :=
          List.filter (ProcessTreeProvider.isVisible this)
                      (ProcessModel.processes snapshot) in
        stored = ProcessTreeProvider.collapseChains
                   (ProcessTreeProvider.buildTrie visible)
        ∧ ProcessTreeProvider.allProcesses stored ≡ₚ visible
    | None, None => True
    | _, _ => False
    end.
Proof.
  intros Hkeep. cbn zeta.
  assert (∀ app, shows user settings app →
            shows user settings (appSteps parseFloat platform app inputs)) as Hall.
  { induction Hkeep as [|input inputs Hk _ IH]; intros app Happ; [done|].
    cbn. apply IH. by apply appStep_shows. }
  destruct (activate_shows platform user settings) as [Hs _].
  destruct (Hall _ Hs) as ([Hsnap _] & Hup & Hsys & Hoth & _).
  split; [done|]. split; [done|].
  rewrite <- Hsnap. unfold upToDate in Hup. rewrite Hup.
  unfold ProcessTreeProvider.getVisibleProcesses.
  destruct (ProcessTreeProvider.snapshot _) as [snapshot|]; cbn [option_map]; [|done].
  split; [done|]. apply ProcessTreeProviderSpec.buildTrie_processes.
Qed.

Lemma tree_shows_visible_processes_sample :
  let settings := {| refreshIntervalMs := 1000; showSystemProcessesSetting := false;
                     showOtherUsersSetting := false |} in
  let inputs :=
    [ OfPoller (ExecDone 0 (ExecOutput "header"));
      SettingsChanged {| refreshIntervalMs := 500; showSystemProcessesSetting := false;
                         showOtherUsersSetting := false |};
      OfPoller TimerFires ] in
  let app := appSteps Samples.sampleParseFloat "linux"
               (activate "linux" "alice" settings) inputs in
  let this := provider (treeView app) in
  Forall (keepsFilters settings) inputs
  ∧ ProcessTreeProvider.showSystemProcesses this = showSystemProcessesSetting settings
  ∧ ProcessTreeProvider.showOtherUsers this = showOtherUsersSetting settings
  ∧ match trie (treeView app), currentSnapshot (run (pollerSystem app)).1 with
    | Some stored, Some snapshot =>
        let visible :=
          List.filter (ProcessTreeProvider.isVisible this)
                      (ProcessModel.processes snapshot) in
        stored = ProcessTreeProvider.collapseChains
                   (ProcessTreeProvider.buildTrie visible)
        ∧ ProcessTreeProvider.allProcesses stored ≡ₚ visible
    | None, None => True
    | _, _ => False
    end.
Proof.
  intros settings inputs app this.
  assert (Forall (keepsFilters settings) inputs) as Hkeep
    by (repeat constructor).
  split; [exact Hkeep|].
  exact (tree_shows_visible_processes Samples.sampleParseFloat "linux" "alice"
           settings inputs Hkeep).
Defined.

End ExtensionSpec.
